(** * Anvil consensus node: a shallow embedding of the consensus core

    The development follows [consensus-node.cjs] (the ledger, the block
    builder, leader election, the BFT handlers) function by function.

    Modelling conventions.
    - JavaScript strings are [string]; [Map]s keyed by strings or numbers
      are [gmap]s, [Set]s are [gset]s; a [Map] whose iteration order is
      observed is an association list in insertion order.
    - Ledger numbers (amounts, balances, nonces, epochs, views) are [Z]:
      the integers a double represents exactly.  Effectiveness scores are
      values of a type parameter [Eff] wherever the node only stores and
      copies them; the engine that computes them with [Math.exp] is
      modelled over the reals in [Module Effectiveness].
    - [state.peers] is a [gmap]: the order of its keys is observed only
      after sorting or through maps built from it.
    - Account records are JavaScript objects held by reference in
      [state.accounts]; the model keeps an explicit object heap so that the
      aliasing in [applyTransaction] is the source's.
    - SHA-256, Ed25519 and [JSON.stringify] are the operations of a
      [Crypto] and a [Json] interface; nothing is assumed of them beyond
      the size of a digest and that [verify] answers [false] on a key that
      does not parse.
    - Logging, persistence ([saveChain]) and network sends have no effect on
      the modelled state and are left out. *)

From Stdlib Require Import ZArith List Permutation Sorted Lia.
From Stdlib.Strings Require Import String Ascii Byte.
From Stdlib Require Reals Lra.
From Equations Require Import Equations.
From stdpp Require Import base option gmap strings list fin_maps pretty sorting.

Set Default Proof Using "Type*".
Open Scope Z_scope.

(* ================================================================== *)
(** ** Cryptographic and serialisation interfaces *)
(* ================================================================== *)

(** [crypto.createHash('sha256')], [crypto.sign], [crypto.verify] and
    [crypto.createPublicKey(pem).export({type:'spki',format:'der'})].
    [sign] uses the node's own private key. *)
Class Crypto := {
  sha256 : string → list byte;
  sha256_length : ∀ s, length (sha256 s) = 32%nat;
  sign : string → string;
  verify : string → string → string → bool;
  spkiDer : string → option string;
  verify_parses : ∀ data sig pem, verify data sig pem = true → is_Some (spkiDer pem)
}.

(** Hexadecimal rendering of a digest ([.digest('hex')]): digits
    [0-9a-f] by character code. *)
Definition hexChar (n : N) : ascii :=
  ascii_of_N (if (n <? 10)%N then 48 + n else 87 + n)%N.

Definition hexOfByte (b : byte) (rest : string) : string :=
  String (hexChar (Byte.to_N b / 16)) (String (hexChar (Byte.to_N b mod 16)) rest).

Definition hexOfBytes (bs : list byte) : string :=
  fold_right hexOfByte EmptyString bs.

(** Value of one hexadecimal digit, as [parseInt(_, 16)] reads it: the
    ranges [0-9], [a-f] and [A-F] of character codes. *)
Definition hexDigit (c : ascii) : option N :=
  let code := N_of_ascii c in
  if (48 <=? code)%N && (code <=? 57)%N then Some (code - 48)%N
  else if (97 <=? code)%N && (code <=? 102)%N then Some (code - 87)%N
  else if (65 <=? code)%N && (code <=? 70)%N then Some (code - 55)%N
  else None.

(** [parseInt(s, 16)] on a string of digits: the value of the longest
    prefix of hexadecimal digits, [None] (NaN) when there is none.  The
    callers pass a slice of a lowercase digest, so the sign, blank and
    [0x] prefixes that [parseInt] also accepts cannot occur. *)
Fixpoint parseHexFrom (acc : option N) (s : string) : option N :=
  match s with
  | EmptyString => acc
  | String c rest =>
      match hexDigit c with
      | Some d => parseHexFrom (Some (16 * default 0 acc + d)%N) rest
      | None => acc
      end
  end.

Definition parseInt16 (s : string) : option N := parseHexFrom None s.

(** Big-endian value of a byte sequence. *)
Definition beValue (bs : list byte) : N :=
  fold_left (λ acc b, (256 * acc + Byte.to_N b)%N) bs 0%N.

(** ['0'.repeat(64)] *)
Definition zeros64 : string :=
  "0000000000000000000000000000000000000000000000000000000000000000".

Section Hashing.
Context `{Crypto}.

(** [hash(data)] on a string argument. *)
Definition hash (data : string) : string := hexOfBytes (sha256 data).

(** One pass of the [for (let i = 0; i < hashes.length; i += 2)] loop of
    [calculateMerkleRoot].  [hashes[i + 1] || left] takes the left digest when the
    index is out of range and also when the entry is the empty string. *)
Fixpoint nextLevel (hashes : list string) : list string :=
  match hashes with
  | [] => []
  | [lft] => [hash (lft +:+ lft)]
  | lft :: rgt :: rest =>
      hash (lft +:+ (if decide (rgt = "") then lft else rgt))
        :: nextLevel rest
  end.

Equations? calculateMerkleRoot (hashes : list string) : string
  by wf (length hashes) lt :=
  calculateMerkleRoot [] := zeros64;
  calculateMerkleRoot [h] := h;
  calculateMerkleRoot (h1 :: h2 :: rest) :=
    calculateMerkleRoot (nextLevel (h1 :: h2 :: rest)).
Proof.
  assert (Hle : ∀ l : list string, (length (nextLevel l) ≤ length l)%nat).
  { fix IH 1. intros [|a [|b l]]; simpl; [lia | lia |].
    specialize (IH l). lia. }
  specialize (Hle rest). simpl. lia.
Qed.

(** The Merkle root as section 4.2 of the specification words it: when a
    level has odd length its last digest is duplicated, adjacent digests
    are paired, each pair is hashed, until one root remains. *)
Definition duplicateLastIfOdd (level : list string) : list string :=
  if Nat.odd (length level) then level ++ [List.last level ""] else level.

Fixpoint hashPairs (level : list string) : list string :=
  match level with
  | lft :: rgt :: rest => hash (lft +:+ rgt) :: hashPairs rest
  | _ => []
  end.

Equations? merkleRootSpec (leaves : list string) : string
  by wf (length leaves) lt :=
  merkleRootSpec [] := zeros64;
  merkleRootSpec [d] := d;
  merkleRootSpec (d1 :: d2 :: rest) :=
    merkleRootSpec (hashPairs (duplicateLastIfOdd (d1 :: d2 :: rest))).
Proof.
  assert (Hle : ∀ l : list string, (2 * length (hashPairs l) ≤ length l)%nat).
  { fix IH 1. intros [|a [|b l]]; simpl; [lia | lia |].
    specialize (IH l). lia. }
  unfold duplicateLastIfOdd.
  destruct (Nat.odd _) eqn:Hodd.
  - specialize (Hle ((d1 :: d2 :: rest) ++ [List.last (d1 :: d2 :: rest) ""])).
    rewrite length_app in Hle. simpl in *. lia.
  - specialize (Hle (d1 :: d2 :: rest)). simpl in *. lia.
Qed.
End Hashing.

(* ================================================================== *)
(** ** Data model *)
(* ================================================================== *)

(** A property read with [!x] or [x || d]: absent and empty strings are
    falsy. *)
Definition truthy (o : option string) : bool :=
  match o with
  | Some s => bool_decide (s ≠ "")
  | None => false
  end.

Record Transaction := {
  tx_from : string;
  tx_to : string;
  tx_amount : Z;
  tx_nonce : Z;
  tx_timestamp : Z;
  tx_signature : option string
}.

Record Receipt := {
  r_challengeId : option string;
  r_from : option string;
  r_to : option string;
  r_epoch : Z;
  r_success : bool;
  r_latencyMs : Z;
  r_timestamp : Z;
  r_workResult : Z;
  r_signature : option string
}.

(** A block as it travels in JSON.  [b_hash], [b_leaderSignature] and
    [b_votes] are the three properties the code sets to [undefined] before
    hashing; [None] is an absent property. *)
Record Block (Eff : Type) := {
  b_epoch : Z;
  b_previousHash : option string;
  b_leader : string;
  b_leaderPubKey : string;
  b_timestamp : Z;
  b_txRoot : string;
  b_receiptRoot : string;
  b_stateRoot : string;
  b_receipts : list Receipt;
  b_transactions : list Transaction;
  b_effectivenessUpdates : list (string * Eff);
  b_rewards : list (string * Z);
  b_hash : option string;
  b_leaderSignature : option string;
  b_votes : option (gmap string string)
}.
Arguments b_epoch {Eff} _.
Arguments b_previousHash {Eff} _.
Arguments b_leader {Eff} _.
Arguments b_leaderPubKey {Eff} _.
Arguments b_timestamp {Eff} _.
Arguments b_txRoot {Eff} _.
Arguments b_receiptRoot {Eff} _.
Arguments b_stateRoot {Eff} _.
Arguments b_receipts {Eff} _.
Arguments b_transactions {Eff} _.
Arguments b_effectivenessUpdates {Eff} _.
Arguments b_rewards {Eff} _.
Arguments b_hash {Eff} _.
Arguments b_leaderSignature {Eff} _.
Arguments b_votes {Eff} _.

(** [{ ...block, hash: undefined, leaderSignature: undefined, votes: undefined }] *)
Definition blockData {Eff} (b : Block Eff) : Block Eff :=
  {| b_epoch := b_epoch b; b_previousHash := b_previousHash b;
     b_leader := b_leader b; b_leaderPubKey := b_leaderPubKey b;
     b_timestamp := b_timestamp b; b_txRoot := b_txRoot b;
     b_receiptRoot := b_receiptRoot b; b_stateRoot := b_stateRoot b;
     b_receipts := b_receipts b; b_transactions := b_transactions b;
     b_effectivenessUpdates := b_effectivenessUpdates b;
     b_rewards := b_rewards b;
     b_hash := None; b_leaderSignature := None; b_votes := None |}.

Definition withVotes {Eff} (b : Block Eff) (v : gmap string string) : Block Eff :=
  {| b_epoch := b_epoch b; b_previousHash := b_previousHash b;
     b_leader := b_leader b; b_leaderPubKey := b_leaderPubKey b;
     b_timestamp := b_timestamp b; b_txRoot := b_txRoot b;
     b_receiptRoot := b_receiptRoot b; b_stateRoot := b_stateRoot b;
     b_receipts := b_receipts b; b_transactions := b_transactions b;
     b_effectivenessUpdates := b_effectivenessUpdates b;
     b_rewards := b_rewards b;
     b_hash := b_hash b; b_leaderSignature := b_leaderSignature b;
     b_votes := Some v |}.

(** [JSON.stringify] at the values the node hashes or signs.  An absent
    property is not printed, so [stringifyBlock (blockData b)] is the text
    the leader hashed in [createBlock]. *)
Class Json (Eff : Type) := {
  stringifyTx : Transaction → string;
  stringifyReceipt : Receipt → string;
  stringifyBlock : Block Eff → string;
  stringifyEpochView : Z → Z → string
}.

(** [NODE_NAME] and [IDENTITY] *)
Record Identity := {
  NODE_NAME : string;
  id_publicKeyPem : string;
  id_publicKeyHash : string
}.

(** [CONFIG] *)
Definition viewChangeTimeoutMs : Z := 8000.
Definition slashAmount : Z := 500.

(** [CONFIG.quorumFraction = 0.67] as the double it is: the numerator of
    the nearest double over [2^53],
    [0.67000000000000003996802888650563545525074005126953125]. *)
Definition quorumFractionBits : Z := 6034823500676465.

(** The double nearest to [p / 2^53] for an integer [p ≥ 0], again as a
    numerator over [2^53]: [p] itself when it fits in 53 bits, otherwise
    its 53 leading bits rounded to nearest, ties to even. *)
Definition roundToDouble (p : Z) : Z :=
  let bits := Z.log2 p + 1 in
  if decide (bits ≤ 53) then p
  else
    let shift := bits - 53 in
    let q := Z.shiftr p shift in
    let r := p - Z.shiftl q shift in
    let half := Z.shiftl 1 (shift - 1) in
    let q :=
      if decide (r < half) then q
      else if decide (half < r) then q + 1
      else if Z.even q then q else q + 1 in
    Z.shiftl q shift.

(** [Math.ceil(totalNodes * CONFIG.quorumFraction)] in double arithmetic:
    the product of the integer [totalNodes] and the double [0.67] is
    rounded to a double, and the ceiling is taken of that double.  The
    result is [⌈67 n / 100⌉] for every [n < 1500] and is one more at
    [n = 1500]. *)
Definition votesNeeded (totalNodes : nat) : nat :=
  let product := roundToDouble (Z.of_nat totalNodes * quorumFractionBits) in
  Z.to_nat ((product + 2 ^ 53 - 1) / 2 ^ 53).

Record Peer (Eff : Type) := {
  p_url : string;
  p_publicKeyPem : option string;
  p_publicKeyHash : option string;
  p_lastSeen : Z;
  p_effectiveness : Eff
}.
Arguments p_url {Eff} _.
Arguments p_publicKeyPem {Eff} _.
Arguments p_publicKeyHash {Eff} _.
Arguments p_lastSeen {Eff} _.
Arguments p_effectiveness {Eff} _.

Definition setPeerEffectiveness {Eff} (eff : Eff) (p : Peer Eff) : Peer Eff :=
  {| p_url := p_url p; p_publicKeyPem := p_publicKeyPem p;
     p_publicKeyHash := p_publicKeyHash p; p_lastSeen := p_lastSeen p;
     p_effectiveness := eff |}.

(** *** Accounts: a map from address to a reference into an object heap *)

(** An account object [{ balance, nonce }].  The code holds JavaScript
    numbers; they are read as integers here, and the statements about
    balances are written with the code's own additions, subtractions and
    comparisons, in the order in which the code performs them. *)
Record Account := { balance : Z; nonce : Z }.

(** [objects] is the heap of account objects ever allocated, a reference
    is an index into it; [entries] is the [Map] [state.accounts]. *)
Record AccountStore := {
  objects : list Account;
  entries : gmap string nat
}.

Definition emptyAccounts : AccountStore := {| objects := []; entries := ∅ |}.

(** [{ balance: 0, nonce: 0 }] *)
Definition newAccount : Account := {| balance := 0; nonce := 0 |}.

(** [state.accounts.get(addr)] *)
Definition accountsGet (s : AccountStore) (addr : string) : option nat :=
  entries s !! addr.

(** Allocation of an object literal. *)
Definition allocAccount (s : AccountStore) (o : Account) : nat * AccountStore :=
  (length (objects s), {| objects := objects s ++ [o]; entries := entries s |}).

(** [state.accounts.set(addr, ref)] *)
Definition accountsSet (s : AccountStore) (addr : string) (ref : nat) : AccountStore :=
  {| objects := objects s; entries := <[addr := ref]> (entries s) |}.

(** [state.accounts.clear()]: the map is emptied, the objects it held are
    no longer reachable from it. *)
Definition accountsClear (s : AccountStore) : AccountStore :=
  {| objects := objects s; entries := ∅ |}.

(** An assignment to a property of the object behind [ref]. *)
Definition mutate (s : AccountStore) (ref : nat) (f : Account → Account) : AccountStore :=
  {| objects := alter f ref (objects s); entries := entries s |}.

Definition addBalance (d : Z) (a : Account) : Account :=
  {| balance := balance a + d; nonce := nonce a |}.
Definition subBalance (d : Z) (a : Account) : Account :=
  {| balance := balance a - d; nonce := nonce a |}.
Definition setNonce (n : Z) (a : Account) : Account :=
  {| balance := balance a; nonce := n |}.

(** [state.accounts.get(addr) || { balance: 0, nonce: 0 }]: the object in
    the map, or a freshly allocated one that is not (yet) in the map. *)
Definition getOrNew (s : AccountStore) (addr : string) : nat * AccountStore :=
  match accountsGet s addr with
  | Some ref => (ref, s)
  | None => allocAccount s newAccount
  end.

(** The account an address currently denotes, and the account map read as
    a map from address to [(balance, nonce)]. *)
Definition accountOf (s : AccountStore) (addr : string) : option Account :=
  entries s !! addr ≫= λ ref, objects s !! ref.

Definition accountsView (s : AccountStore) : gmap string Account :=
  omap (λ ref, objects s !! ref) (entries s).

(** Every reference held by the map points into the heap, and no object is
    held under two addresses: what [new Map(JSON.parse(...))] and the
    ledger operations establish. *)
Definition storeOk (s : AccountStore) : Prop :=
  (∀ addr ref, entries s !! addr = Some ref → (ref < length (objects s))%nat)
  ∧ (∀ a1 a2 ref, entries s !! a1 = Some ref → entries s !! a2 = Some ref → a1 = a2).

(** [(state.accounts.get(a) || { balance: 0, nonce: 0 })] read only. *)
Definition accountOrZero (s : AccountStore) (addr : string) : Account :=
  default newAccount (accountOf s addr).

(** [applyTransaction(tx)] *)
Definition applyTransaction (s : AccountStore) (tx : Transaction) : AccountStore :=
  let '(fromAccount, s) := getOrNew s (tx_from tx) in
  let '(toAccount, s) := getOrNew s (tx_to tx) in
  let s := mutate s fromAccount (subBalance (tx_amount tx)) in
  let s := mutate s fromAccount (setNonce (tx_nonce tx)) in
  let s := mutate s toAccount (addBalance (tx_amount tx)) in
  let s := accountsSet s (tx_from tx) fromAccount in
  accountsSet s (tx_to tx) toAccount.

(** One iteration of the rewards loop shared by [commitBlock] and
    [rebuildStateFromChain]. *)
Definition applyReward (s : AccountStore) (entry : string * Z) : AccountStore :=
  let '(addr, reward) := entry in
  let s :=
    match accountsGet s addr with
    | Some _ => s
    | None => let '(ref, s) := allocAccount s newAccount in accountsSet s addr ref
    end in
  match accountsGet s addr with
  | Some ref => mutate s ref (addBalance reward)
  | None => s
  end.

(** One iteration of the transaction loop of [rebuildStateFromChain]. *)
Definition replayTransaction (s : AccountStore) (tx : Transaction) : AccountStore :=
  if decide (tx_from tx = "coinbase") then
    let '(toAccount, s) := getOrNew s (tx_to tx) in
    let s := mutate s toAccount (addBalance (tx_amount tx)) in
    accountsSet s (tx_to tx) toAccount
  else
    let '(fromAccount, s) := getOrNew s (tx_from tx) in
    let '(toAccount, s) := getOrNew s (tx_to tx) in
    let s := mutate s fromAccount (subBalance (tx_amount tx)) in
    let s := mutate s fromAccount (setNonce (tx_nonce tx)) in
    let s := mutate s toAccount (addBalance (tx_amount tx)) in
    let s := accountsSet s (tx_from tx) fromAccount in
    accountsSet s (tx_to tx) toAccount.

(* ================================================================== *)
(** ** Node state *)
(* ================================================================== *)

(** [state.stats] *)
Record Stats := {
  blocksProduced : Z;
  blocksCommitted : Z;
  challengesSent : Z;
  challengesReceived : Z;
  receiptsVerified : Z;
  viewChanges : Z;
  slashEvents : Z
}.

Definition incrBlocksCommitted (s : Stats) : Stats :=
  {| blocksProduced := blocksProduced s; blocksCommitted := blocksCommitted s + 1;
     challengesSent := challengesSent s; challengesReceived := challengesReceived s;
     receiptsVerified := receiptsVerified s; viewChanges := viewChanges s;
     slashEvents := slashEvents s |}.
Definition incrViewChanges (s : Stats) : Stats :=
  {| blocksProduced := blocksProduced s; blocksCommitted := blocksCommitted s;
     challengesSent := challengesSent s; challengesReceived := challengesReceived s;
     receiptsVerified := receiptsVerified s; viewChanges := viewChanges s + 1;
     slashEvents := slashEvents s |}.
Definition incrSlashEvents (s : Stats) : Stats :=
  {| blocksProduced := blocksProduced s; blocksCommitted := blocksCommitted s;
     challengesSent := challengesSent s; challengesReceived := challengesReceived s;
     receiptsVerified := receiptsVerified s; viewChanges := viewChanges s;
     slashEvents := slashEvents s + 1 |}.

(** The [state] object.  [seenProposals] maps an epoch to the inner [Map]
    from block hash to block, kept in insertion order because
    [checkEquivocation] returns at the first conflicting entry. *)
Record NodeState (Eff : Type) := {
  peers : gmap string (Peer Eff);
  chain : list (Block Eff);
  pendingReceipts : list Receipt;
  pendingTransactions : list Transaction;
  accounts : AccountStore;
  currentEpoch : Z;
  epochStartTime : Z;
  currentView : Z;
  proposedBlock : option (Block Eff);
  votes : gmap string string;
  viewChangeVotes : gmap string (gset string);
  seenProposals : gmap Z (list (option string * Block Eff));
  slashedNodes : gset string;
  effectiveness : Eff;
  stats : Stats
}.
Arguments peers {Eff} _.
Arguments chain {Eff} _.
Arguments pendingReceipts {Eff} _.
Arguments pendingTransactions {Eff} _.
Arguments accounts {Eff} _.
Arguments currentEpoch {Eff} _.
Arguments epochStartTime {Eff} _.
Arguments currentView {Eff} _.
Arguments proposedBlock {Eff} _.
Arguments votes {Eff} _.
Arguments viewChangeVotes {Eff} _.
Arguments seenProposals {Eff} _.
Arguments slashedNodes {Eff} _.
Arguments effectiveness {Eff} _.
Arguments stats {Eff} _.

(** Field assignments [state.f = v]. *)
Definition set_peers {Eff} (st : NodeState Eff) (v : gmap string (Peer Eff)) : NodeState Eff :=
  {| peers := v; chain := chain st; pendingReceipts := pendingReceipts st;
     pendingTransactions := pendingTransactions st; accounts := accounts st;
     currentEpoch := currentEpoch st; epochStartTime := epochStartTime st;
     currentView := currentView st; proposedBlock := proposedBlock st; votes
     := votes st; viewChangeVotes := viewChangeVotes st; seenProposals :=
     seenProposals st; slashedNodes := slashedNodes st; effectiveness :=
     effectiveness st; stats := stats st |}.
Definition set_chain {Eff} (st : NodeState Eff) (v : list (Block Eff)) : NodeState Eff :=
  {| peers := peers st; chain := v; pendingReceipts := pendingReceipts st;
     pendingTransactions := pendingTransactions st; accounts := accounts st;
     currentEpoch := currentEpoch st; epochStartTime := epochStartTime st;
     currentView := currentView st; proposedBlock := proposedBlock st; votes
     := votes st; viewChangeVotes := viewChangeVotes st; seenProposals :=
     seenProposals st; slashedNodes := slashedNodes st; effectiveness :=
     effectiveness st; stats := stats st |}.
Definition set_pendingReceipts {Eff} (st : NodeState Eff) (v : list Receipt) : NodeState Eff :=
  {| peers := peers st; chain := chain st; pendingReceipts := v;
     pendingTransactions := pendingTransactions st; accounts := accounts st;
     currentEpoch := currentEpoch st; epochStartTime := epochStartTime st;
     currentView := currentView st; proposedBlock := proposedBlock st; votes
     := votes st; viewChangeVotes := viewChangeVotes st; seenProposals :=
     seenProposals st; slashedNodes := slashedNodes st; effectiveness :=
     effectiveness st; stats := stats st |}.
Definition set_pendingTransactions {Eff} (st : NodeState Eff) (v : list Transaction) : NodeState Eff :=
  {| peers := peers st; chain := chain st; pendingReceipts :=
     pendingReceipts st; pendingTransactions := v; accounts := accounts st;
     currentEpoch := currentEpoch st; epochStartTime := epochStartTime st;
     currentView := currentView st; proposedBlock := proposedBlock st; votes
     := votes st; viewChangeVotes := viewChangeVotes st; seenProposals :=
     seenProposals st; slashedNodes := slashedNodes st; effectiveness :=
     effectiveness st; stats := stats st |}.
Definition set_accounts {Eff} (st : NodeState Eff) (v : AccountStore) : NodeState Eff :=
  {| peers := peers st; chain := chain st; pendingReceipts :=
     pendingReceipts st; pendingTransactions := pendingTransactions st;
     accounts := v; currentEpoch := currentEpoch st; epochStartTime :=
     epochStartTime st; currentView := currentView st; proposedBlock :=
     proposedBlock st; votes := votes st; viewChangeVotes := viewChangeVotes
     st; seenProposals := seenProposals st; slashedNodes := slashedNodes st;
     effectiveness := effectiveness st; stats := stats st |}.
Definition set_currentView {Eff} (st : NodeState Eff) (v : Z) : NodeState Eff :=
  {| peers := peers st; chain := chain st; pendingReceipts :=
     pendingReceipts st; pendingTransactions := pendingTransactions st;
     accounts := accounts st; currentEpoch := currentEpoch st;
     epochStartTime := epochStartTime st; currentView := v; proposedBlock :=
     proposedBlock st; votes := votes st; viewChangeVotes := viewChangeVotes
     st; seenProposals := seenProposals st; slashedNodes := slashedNodes st;
     effectiveness := effectiveness st; stats := stats st |}.
Definition set_proposedBlock {Eff} (st : NodeState Eff) (v : option (Block Eff)) : NodeState Eff :=
  {| peers := peers st; chain := chain st; pendingReceipts :=
     pendingReceipts st; pendingTransactions := pendingTransactions st;
     accounts := accounts st; currentEpoch := currentEpoch st;
     epochStartTime := epochStartTime st; currentView := currentView st;
     proposedBlock := v; votes := votes st; viewChangeVotes :=
     viewChangeVotes st; seenProposals := seenProposals st; slashedNodes :=
     slashedNodes st; effectiveness := effectiveness st; stats := stats st
     |}.
Definition set_votes {Eff} (st : NodeState Eff) (v : gmap string string) : NodeState Eff :=
  {| peers := peers st; chain := chain st; pendingReceipts :=
     pendingReceipts st; pendingTransactions := pendingTransactions st;
     accounts := accounts st; currentEpoch := currentEpoch st;
     epochStartTime := epochStartTime st; currentView := currentView st;
     proposedBlock := proposedBlock st; votes := v; viewChangeVotes :=
     viewChangeVotes st; seenProposals := seenProposals st; slashedNodes :=
     slashedNodes st; effectiveness := effectiveness st; stats := stats st
     |}.
Definition set_viewChangeVotes {Eff} (st : NodeState Eff) (v : gmap string (gset string)) : NodeState Eff :=
  {| peers := peers st; chain := chain st; pendingReceipts :=
     pendingReceipts st; pendingTransactions := pendingTransactions st;
     accounts := accounts st; currentEpoch := currentEpoch st;
     epochStartTime := epochStartTime st; currentView := currentView st;
     proposedBlock := proposedBlock st; votes := votes st; viewChangeVotes
     := v; seenProposals := seenProposals st; slashedNodes := slashedNodes
     st; effectiveness := effectiveness st; stats := stats st |}.
Definition set_seenProposals {Eff} (st : NodeState Eff) (v : gmap Z (list (option string * Block Eff))) : NodeState Eff :=
  {| peers := peers st; chain := chain st; pendingReceipts :=
     pendingReceipts st; pendingTransactions := pendingTransactions st;
     accounts := accounts st; currentEpoch := currentEpoch st;
     epochStartTime := epochStartTime st; currentView := currentView st;
     proposedBlock := proposedBlock st; votes := votes st; viewChangeVotes
     := viewChangeVotes st; seenProposals := v; slashedNodes := slashedNodes
     st; effectiveness := effectiveness st; stats := stats st |}.
Definition set_slashedNodes {Eff} (st : NodeState Eff) (v : gset string) : NodeState Eff :=
  {| peers := peers st; chain := chain st; pendingReceipts :=
     pendingReceipts st; pendingTransactions := pendingTransactions st;
     accounts := accounts st; currentEpoch := currentEpoch st;
     epochStartTime := epochStartTime st; currentView := currentView st;
     proposedBlock := proposedBlock st; votes := votes st; viewChangeVotes
     := viewChangeVotes st; seenProposals := seenProposals st; slashedNodes
     := v; effectiveness := effectiveness st; stats := stats st |}.
Definition set_effectiveness {Eff} (st : NodeState Eff) (v : Eff) : NodeState Eff :=
  {| peers := peers st; chain := chain st; pendingReceipts :=
     pendingReceipts st; pendingTransactions := pendingTransactions st;
     accounts := accounts st; currentEpoch := currentEpoch st;
     epochStartTime := epochStartTime st; currentView := currentView st;
     proposedBlock := proposedBlock st; votes := votes st; viewChangeVotes
     := viewChangeVotes st; seenProposals := seenProposals st; slashedNodes
     := slashedNodes st; effectiveness := v; stats := stats st |}.
Definition set_stats {Eff} (st : NodeState Eff) (v : Stats) : NodeState Eff :=
  {| peers := peers st; chain := chain st; pendingReceipts :=
     pendingReceipts st; pendingTransactions := pendingTransactions st;
     accounts := accounts st; currentEpoch := currentEpoch st;
     epochStartTime := epochStartTime st; currentView := currentView st;
     proposedBlock := proposedBlock st; votes := votes st; viewChangeVotes
     := viewChangeVotes st; seenProposals := seenProposals st; slashedNodes
     := slashedNodes st; effectiveness := effectiveness st; stats := v |}.

(** Wire messages and handler results. *)
Record Vote := {
  v_epoch : Z;
  v_blockHash : option string;
  v_voter : string;
  v_voterPubKey : string;
  v_signature : option string
}.

Record ViewChange := {
  vc_epoch : Z;
  vc_oldView : Z;
  vc_newView : Z;
  vc_from : string;
  vc_signature : option string
}.

Record Evidence (Eff : Type) := {
  ev_block1 : Block Eff;
  ev_block2 : Block Eff;
  ev_leader : string;
  ev_epoch : Z
}.
Arguments ev_block1 {Eff} _.
Arguments ev_block2 {Eff} _.
Arguments ev_leader {Eff} _.
Arguments ev_epoch {Eff} _.

(** What [handleBlockProposal] writes to [res]: [{ok: true, vote}],
    [{ok: false, error, evidence}], or the status 500 that [handleRequest]
    sends when the handler throws. *)
Inductive ProposalResponse (Eff : Type) :=
| ProposalVote (vote : Vote)
| ProposalRefused (error : string) (evidence : option (Evidence Eff))
| ProposalThrew.
Arguments ProposalVote {Eff} _.
Arguments ProposalRefused {Eff} _ _.
Arguments ProposalThrew {Eff}.

(** The default order of [Array.prototype.sort]: strings compared code
    unit by code unit. *)
Definition strLe (a b : string) : Prop := String.leb a b = true.
Global Instance strLe_dec : RelDecision strLe.
Proof. intros a b. unfold strLe. apply _. Defined.

(** [Map.prototype.set] on a map kept in insertion order. *)
Fixpoint assocSet {K V} `{EqDecision K} (k : K) (v : V) (m : list (K * V)) : list (K * V) :=
  match m with
  | [] => [(k, v)]
  | (k', v') :: rest =>
      if decide (k' = k) then (k, v) :: rest else (k', v') :: assocSet k v rest
  end.

(** [Math.min(...keys)] on a non-empty key list. *)
Definition minKey (keys : list Z) : option Z :=
  match keys with
  | [] => None
  | k :: rest => Some (fold_left Z.min rest k)
  end.

(** The balance and nonce overlays of [createBlock]. *)
Record Overlay := {
  tempBalances : gmap string Z;
  tempNonces : gmap string Z
}.

Definition emptyOverlay : Overlay := {| tempBalances := ∅; tempNonces := ∅ |}.

(* ================================================================== *)
(** ** The node *)
(* ================================================================== *)

Section Node.
Context `{Crypto} {Eff : Type} `{Json Eff}.
Variable me : Identity.

Local Abbreviation State := (NodeState Eff).

(** [hash(tx)], [hash(r)] and [hash(blockData)] on objects:
    [hash(JSON.stringify(_))]. *)
Definition hashTx (tx : Transaction) : string := hash (stringifyTx tx).
Definition hashReceipt (r : Receipt) : string := hash (stringifyReceipt r).
Definition hashBlock (b : Block Eff) : string := hash (stringifyBlock b).

(** [verify(data, signature, pem)] where [data] or [signature] may be
    [undefined]: [Buffer.from(undefined)] throws inside the [try], so the
    answer is [false]. *)
Definition verifyOpt (data sig : option string) (pem : string) : bool :=
  match data, sig with
  | Some d, Some s => verify d s pem
  | _, _ => false
  end.

(** The address of a public key, as [IDENTITY.publicKeyHash] and
    [slashNode] derive it; [None] when [createPublicKey] throws. *)
Definition addressOfKey (pem : string) : option string :=
  (λ der, substring 0 40 (hash der)) <$> spkiDer pem.

(** [state.chain.length > 0 ? state.chain[state.chain.length - 1].hash
     : '0'.repeat(64)] *)
Definition lastHash (st : State) : option string :=
  match last (chain st) with
  | Some b => b_hash b
  | None => Some zeros64
  end.

(** *** Block builder *)

Definition overlayBalance (accts : AccountStore) (ov : Overlay) (addr : string) : Z :=
  match tempBalances ov !! addr with
  | Some b => b
  | None => balance (accountOrZero accts addr)
  end.

Definition overlayNonce (accts : AccountStore) (ov : Overlay) (addr : string) : Z :=
  match tempNonces ov !! addr with
  | Some n => n
  | None => nonce (accountOrZero accts addr)
  end.

Definition creditOverlay (accts : AccountStore) (ov : Overlay) (addr : string) (amount : Z) : Overlay :=
  {| tempBalances := <[addr := overlayBalance accts ov addr + amount]> (tempBalances ov);
     tempNonces := tempNonces ov |}.

Definition debitOverlay (accts : AccountStore) (ov : Overlay) (addr : string)
    (amount newNonce : Z) : Overlay :=
  {| tempBalances := <[addr := overlayBalance accts ov addr - amount]> (tempBalances ov);
     tempNonces := <[addr := newNonce]> (tempNonces ov) |}.

(** The body of the [for (const tx of transactions)] loop of
    [createBlock]: whether [tx] is pushed on [validTxs], and the overlays
    after the iteration. *)
Definition filterTransaction (accts : AccountStore) (ov : Overlay) (tx : Transaction)
    : bool * Overlay :=
  if decide (tx_from tx = "coinbase") then
    (true, creditOverlay accts ov (tx_to tx) (tx_amount tx))
  else
    let currentBalance := overlayBalance accts ov (tx_from tx) in
    let currentNonce := overlayNonce accts ov (tx_from tx) in
    if decide (currentBalance < tx_amount tx) then (false, ov)
    else if decide (tx_nonce tx ≠ currentNonce + 1) then (false, ov)
    else
      let ov := debitOverlay accts ov (tx_from tx) (tx_amount tx) (tx_nonce tx) in
      (true, creditOverlay accts ov (tx_to tx) (tx_amount tx)).

Fixpoint filterTransactions (accts : AccountStore) (ov : Overlay)
    (validTxs : list Transaction) (transactions : list Transaction)
    : list Transaction * Overlay :=
  match transactions with
  | [] => (validTxs, ov)
  | tx :: rest =>
      let '(keep, ov) := filterTransaction accts ov tx in
      filterTransactions accts ov (if keep then validTxs ++ [tx] else validTxs) rest
  end.


Definition stateEntry (addr : string) (bal nonce : Z) : string :=
  addr +:+ ":" +:+ pretty bal +:+ ":" +:+ pretty nonce.

(** [entries.join(',')] *)
Fixpoint join (sep : string) (l : list string) : string :=
  match l with
  | [] => ""
  | [s] => s
  | s :: rest => s +:+ sep +:+ join sep rest
  end.

(** [calculateStateRoot(balances, nonces)] *)
Definition calculateStateRoot (accts : AccountStore) (ov : Overlay) : string :=
  let existing :=
    (λ '(addr, account),
       stateEntry addr
         (default (balance account) (tempBalances ov !! addr))
         (default (nonce account) (tempNonces ov !! addr)))
      <$> map_to_list (accountsView accts) in
  let fresh :=
    (λ '(addr, bal), stateEntry addr bal (default 0 (tempNonces ov !! addr)))
      <$> filter (λ '(addr, _), accountsGet accts addr = None)
            (map_to_list (tempBalances ov)) in
  hash (join "," (merge_sort strLe (existing ++ fresh))).

(** [createBlock(epoch, receipts, transactions)].  [now] is [Date.now()];
    [effectivenessUpdates] and [rewards] are the values returned by
    [calculateEffectivenessUpdates(receipts)] and [calculateRewards(_)]. *)
Definition createBlock (st : State) (now : Z)
    (effectivenessUpdates : list (string * Eff)) (rewards : list (string * Z))
    (epoch : Z) (receipts : list Receipt) (transactions : list Transaction)
    : Block Eff :=
  let previousHash := lastHash st in
  let '(validTxs, ov) :=
    filterTransactions (accounts st) emptyOverlay [] transactions in
  let txRoot := calculateMerkleRoot (hashTx <$> validTxs) in
  let receiptRoot := calculateMerkleRoot (hashReceipt <$> receipts) in
  let stateRoot := calculateStateRoot (accounts st) ov in
  let block :=
    {| b_epoch := epoch; b_previousHash := previousHash;
       b_leader := NODE_NAME me; b_leaderPubKey := id_publicKeyPem me;
       b_timestamp := now;
       b_txRoot := txRoot; b_receiptRoot := receiptRoot; b_stateRoot := stateRoot;
       b_receipts := receipts; b_transactions := validTxs;
       b_effectivenessUpdates := effectivenessUpdates; b_rewards := rewards;
       b_hash := None; b_leaderSignature := None; b_votes := None |} in
  let h := hashBlock block in
  {| b_epoch := epoch; b_previousHash := previousHash;
     b_leader := NODE_NAME me; b_leaderPubKey := id_publicKeyPem me;
     b_timestamp := now;
     b_txRoot := txRoot; b_receiptRoot := receiptRoot; b_stateRoot := stateRoot;
     b_receipts := receipts; b_transactions := validTxs;
     b_effectivenessUpdates := effectivenessUpdates; b_rewards := rewards;
     b_hash := Some h; b_leaderSignature := Some (sign h); b_votes := Some ∅ |}.

(** *** Leader election *)

(** [[NODE_NAME, ...state.peers.keys()]] *)
Definition allNodeIds (st : State) : list string :=
  NODE_NAME me :: (map_to_list (peers st)).*1.

(** [electLeader(epoch)].  [None] is [undefined], the value of
    [allNodes[NaN]]. *)
Definition electLeader (st : State) (epoch : Z) : option string :=
  let allNodes := merge_sort strLe (allNodeIds st) in
  if decide (length allNodes = 0%nat) then Some (NODE_NAME me)
  else
    let epochHash :=
      hash ("epoch-" +:+ pretty epoch +:+ "-view-" +:+ pretty (currentView st)) in
    index ← parseInt16 (substring 0 8 epochHash);
    allNodes !! N.to_nat (index mod N.of_nat (length allNodes)).

(** *** Ledger *)

(** [validateTransaction(tx)] *)
Definition validateTransaction (st : State) (tx : Transaction) : bool :=
  let account := accountOrZero (accounts st) (tx_from tx) in
  if decide (balance account < tx_amount tx) then false
  else if decide (tx_nonce tx ≠ nonce account + 1) then false
  else true.

(** [validateBlock(block)] *)
Definition validateBlock (st : State) (block : Block Eff) : bool :=
  if decide (b_previousHash block ≠ lastHash st) then false
  else if decide (Some (b_leader block) ≠ electLeader st (b_epoch block)) then false
  else if decide (b_hash block ≠ Some (hashBlock (blockData block))) then false
  else if negb (verifyOpt (b_hash block) (b_leaderSignature block) (b_leaderPubKey block))
  then false
  else forallb (validateTransaction st) (b_transactions block).

(** One iteration of the effectiveness loop of [commitBlock]. *)
Definition applyEffectiveness (st : State) (entry : string * Eff) : State :=
  let '(addr, eff) := entry in
  let st :=
    if decide (addr = id_publicKeyHash me) then set_effectiveness st eff else st in
  set_peers st
    ((λ peer, if decide (p_publicKeyHash peer = Some addr)
              then setPeerEffectiveness eff peer else peer) <$> peers st).

(** [commitBlock(block)] *)
Definition commitBlock (st : State) (block : Block Eff) : State :=
  let st := set_chain st (chain st ++ [block]) in
  let st := fold_left applyEffectiveness (b_effectivenessUpdates block) st in
  let st := set_accounts st (fold_left applyReward (b_rewards block) (accounts st)) in
  let st := set_accounts st (fold_left applyTransaction (b_transactions block) (accounts st)) in
  let includedReceiptIds := r_challengeId <$> b_receipts block in
  let st := set_pendingReceipts st
    (filter (λ r, r_challengeId r ∉ includedReceiptIds) (pendingReceipts st)) in
  let includedTxHashes := hashTx <$> b_transactions block in
  let st := set_pendingTransactions st
    (filter (λ t, hashTx t ∉ includedTxHashes) (pendingTransactions st)) in
  set_stats st (incrBlocksCommitted (stats st)).

(** One block of the loop of [rebuildStateFromChain]. *)
Definition replayBlock (s : AccountStore) (block : Block Eff) : AccountStore :=
  let s := fold_left applyReward (b_rewards block) s in
  fold_left replayTransaction (b_transactions block) s.

Definition replayEffectiveness (st : State) (block : Block Eff) : State :=
  fold_left (λ st '(nodeId, eff),
               if decide (nodeId = NODE_NAME me) then set_effectiveness st eff else st)
    (b_effectivenessUpdates block) st.

(** [rebuildStateFromChain()] *)
Definition rebuildStateFromChain (st : State) : State :=
  let st := set_accounts st (accountsClear (accounts st)) in
  fold_left (λ st block,
               replayEffectiveness
                 (set_accounts st (replayBlock (accounts st) block)) block)
    (chain st) st.

(** The incremental path: the blocks of a chain committed one after the
    other. *)
Definition commitChain (st : State) (blocks : list (Block Eff)) : State :=
  fold_left commitBlock blocks st.

(** *** BFT hardening *)

(** [checkViewChange()].  [now] is [Date.now()].  The result is the value
    returned, the state, and the message broadcast on [/view-change]. *)
Definition checkViewChange (st : State) (now : Z) : bool * State * option ViewChange :=
  let elapsed := now - epochStartTime st in
  if decide (proposedBlock st = None ∧ elapsed > viewChangeTimeoutMs) then
    let oldView := currentView st in
    let st := set_currentView st (currentView st + 1) in
    let st := set_viewChangeVotes st ∅ in
    let st := set_stats st (incrViewChanges (stats st)) in
    (true, st,
     Some {| vc_epoch := currentEpoch st; vc_oldView := oldView;
             vc_newView := currentView st; vc_from := NODE_NAME me;
             vc_signature :=
               Some (sign (stringifyEpochView (currentEpoch st) (currentView st))) |})
  else (false, st, None).

(** The scan of [epochProposals] in [checkEquivocation]: the first entry
    by the same leader under a different hash. *)
Definition conflicting (block : Block Eff) (entry : option string * Block Eff) : bool :=
  bool_decide (b_leader entry.2 = b_leader block ∧ entry.1 ≠ b_hash block).

(** [checkEquivocation(block)]: [Some evidence] is [{detected: true,
    evidence}], [None] is [{detected: false}]. *)
Definition checkEquivocation (st : State) (block : Block Eff)
    : State * option (Evidence Eff) :=
  let epochKey := b_epoch block in
  let st :=
    match seenProposals st !! epochKey with
    | Some _ => st
    | None => set_seenProposals st (<[epochKey := []]> (seenProposals st))
    end in
  let epochProposals := default [] (seenProposals st !! epochKey) in
  match List.find (conflicting block) epochProposals with
  | Some (existingHash, existingBlock) =>
      (st, Some {| ev_block1 := existingBlock; ev_block2 := block;
                   ev_leader := b_leader block; ev_epoch := epochKey |})
  | None =>
      let st := set_seenProposals st
        (<[epochKey := assocSet (b_hash block) block epochProposals]> (seenProposals st)) in
      let st :=
        if decide (10 < size (seenProposals st))%nat then
          match minKey (map_to_list (seenProposals st)).*1 with
          | Some oldestEpoch =>
              set_seenProposals st (delete oldestEpoch (seenProposals st))
          | None => st
          end
        else st in
      (st, None)
  end.

(** [slashNode(leaderPubKey, evidence)] *)
Definition slashNode (st : State) (leaderPubKey : string) (evidence : Evidence Eff) : State :=
  match addressOfKey leaderPubKey with
  | None => st
  | Some addr =>
      if decide (addr ∈ slashedNodes st) then st
      else
        let st := set_slashedNodes st ({[addr]} ∪ slashedNodes st) in
        let st := set_stats st (incrSlashEvents (stats st)) in
        match accountsGet (accounts st) addr with
        | Some account =>
            match objects (accounts st) !! account with
            | Some obj =>
                let amount := Z.min (balance obj) slashAmount in
                set_accounts st (mutate (accounts st) account (subBalance amount))
            | None => st
            end
        | None => st
        end
  end.

(** [verifyBlockReceipts(block)]: [None] is [{valid: true}], [Some reason]
    is [{valid: false, reason}]. *)
Fixpoint verifyReceipts (receipts : list Receipt) : option string :=
  match receipts with
  | [] => None
  | receipt :: rest =>
      if negb (truthy (r_signature receipt)) then Some "Receipt missing signature"
      else if negb (truthy (r_challengeId receipt)) || negb (truthy (r_from receipt))
              || negb (truthy (r_to receipt))
      then Some "Receipt missing required fields"
      else verifyReceipts rest
  end.

Definition verifyBlockReceipts (block : Block Eff) : option string :=
  verifyReceipts (b_receipts block).

(** *** Consensus handlers *)

(** [handleBlockProposal(block, res)] *)
Definition handleBlockProposal (st : State) (block : Block Eff)
    : State * ProposalResponse Eff :=
  let '(st, equivResult) := checkEquivocation st block in
  match equivResult with
  | Some evidence =>
      (slashNode st (b_leaderPubKey block) evidence,
       ProposalRefused "Equivocation detected" (Some evidence))
  | None =>
      match verifyBlockReceipts block with
      | Some reason => (st, ProposalRefused reason None)
      | None =>
          let myLastHash := lastHash st in
          let syncCheck : option string :=
            if decide (b_previousHash block ≠ myLastHash) then
              if decide (b_hash block ≠ Some (hashBlock (blockData block)))
              then Some "Hash mismatch"
              else if negb (verifyOpt (b_hash block) (b_leaderSignature block)
                              (b_leaderPubKey block))
              then Some "Invalid signature"
              else None
            else None in
          match syncCheck with
          | Some error => (st, ProposalRefused error None)
          | None =>
              let st := set_proposedBlock st (Some block) in
              match b_hash block with
              | Some h =>
                  (st, ProposalVote
                         {| v_epoch := b_epoch block; v_blockHash := b_hash block;
                            v_voter := NODE_NAME me;
                            v_voterPubKey := id_publicKeyPem me;
                            v_signature := Some (sign h) |})
              | None => (st, ProposalThrew)
              end
          end
      end
  end.

(** [handleVote(vote)] *)
Definition handleVote (st : State) (vote : Vote) : State :=
  if negb (verifyOpt (v_blockHash vote) (v_signature vote) (v_voterPubKey vote)) then st
  else
    match proposedBlock st with
    | None => st
    | Some proposed =>
        if decide (b_hash proposed ≠ v_blockHash vote) then st
        else
          match v_signature vote with
          | None => st
          | Some signature =>
              let st := set_votes st (<[v_voter vote := signature]> (votes st)) in
              let totalNodes := (size (peers st) + 1)%nat in
              if decide (votesNeeded totalNodes ≤ size (votes st))%nat then
                let st := commitBlock st (withVotes proposed (votes st)) in
                let st := set_proposedBlock st None in
                set_votes st ∅
              else st
          end
    end.

(** [handleCommittedBlock(block)] *)
Definition handleCommittedBlock (st : State) (block : Block Eff) : State :=
  if existsb (λ b, bool_decide (b_hash b = b_hash block)) (chain st) then st
  else
    let voteCount := size (default ∅ (b_votes block)) in
    if decide (voteCount < 2)%nat then st
    else if decide (b_hash block ≠ Some (hashBlock (blockData block))) then st
    else if negb (verifyOpt (b_hash block) (b_leaderSignature block)
                    (b_leaderPubKey block))
    then st
    else commitBlock st block.

(** The key [`${viewChange.epoch}-${viewChange.newView}`] *)
Definition viewChangeKey (viewChange : ViewChange) : string :=
  pretty (vc_epoch viewChange) +:+ "-" +:+ pretty (vc_newView viewChange).

(** [handleViewChange(viewChange)] *)
Definition handleViewChange (st : State) (viewChange : ViewChange) : State :=
  if decide (vc_epoch viewChange ≠ currentEpoch st) then st
  else if decide (vc_newView viewChange ≤ currentView st) then st
  else
    let key := viewChangeKey viewChange in
    let st :=
      match viewChangeVotes st !! key with
      | Some _ => st
      | None => set_viewChangeVotes st (<[key := ∅]> (viewChangeVotes st))
      end in
    let tally := {[vc_from viewChange]} ∪ default ∅ (viewChangeVotes st !! key) in
    let st := set_viewChangeVotes st (<[key := tally]> (viewChangeVotes st)) in
    let votes := size tally in
    let totalNodes := (size (peers st) + 1)%nat in
    if decide (votesNeeded totalNodes ≤ votes)%nat then
      let st := set_currentView st (vc_newView viewChange) in
      let st := set_proposedBlock st None in
      let st := set_votes st ∅ in
      set_stats st (incrViewChanges (stats st))
    else st.
End Node.

(* ================================================================== *)
(** ** Light-wallet proofs and the remaining endpoints *)
(* ================================================================== *)

(** One entry [{ hash: sibling, isLeft }] of a Merkle proof; [None] is a
    sibling that was read out of range. *)
Record ProofStep := {
  ps_hash : option string;
  ps_isLeft : bool
}.

(** What [/proof/<txHash>] answers when the transaction is found. *)
Record ProofResponse := {
  pr_blockEpoch : Z;
  pr_blockHash : option string;
  pr_txRoot : string;
  pr_proof : option (list ProofStep)
}.

(** A string operand of [+]: [undefined] prints as ["undefined"]. *)
Definition strOf (o : option string) : string := default "undefined" o.

(** [txHashes.indexOf(txHash)]; [None] is [-1]. *)
Fixpoint indexOf (x : string) (l : list string) : option nat :=
  match l with
  | [] => None
  | y :: rest => if decide (y = x) then Some 0%nat else S <$> indexOf x rest
  end.

(** The entries of a [/gossip] message that the handler reads. *)
Record GossipPeer := {
  gp_id : string;
  gp_url : string;
  gp_publicKeyHash : option string
}.

Record Gossip := {
  g_from : option string;
  g_peers : option (list GossipPeer)
}.

Section Endpoints.
Context `{Crypto} {Eff : Type} `{Json Eff}.
Variable me : Identity.

(** The sibling read at one level of [getMerkleProof]:
    [idx % 2 === 0 ? level[idx + 1] || level[idx] : level[idx - 1]]. *)
Definition siblingAt (level : list string) (idx : nat) : option string :=
  if Nat.even idx then
    if truthy (level !! S idx) then level !! S idx else level !! idx
  else level !! (idx - 1)%nat.

(** The [while (level.length > 1)] loop of [getMerkleProof]. *)
Equations? merkleProofFrom (level : list string) (idx : nat) : list ProofStep
  by wf (length level) lt :=
  merkleProofFrom [] idx := [];
  merkleProofFrom [h] idx := [];
  merkleProofFrom (h1 :: h2 :: rest) idx :=
    {| ps_hash := siblingAt (h1 :: h2 :: rest) idx; ps_isLeft := Nat.odd idx |}
      :: merkleProofFrom (nextLevel (h1 :: h2 :: rest)) (idx / 2)%nat.
Proof.
  assert (Hle : ∀ l : list string, (length (nextLevel l) ≤ length l)%nat).
  { fix IH 1. intros [|a [|b l]]; simpl; [lia | lia |].
    specialize (IH l). lia. }
  specialize (Hle rest). simpl. lia.
Qed.

(** [getMerkleProof(block, txHash)]; [None] is [null]. *)
Definition getMerkleProof (block : Block Eff) (txHash : string) : option (list ProofStep) :=
  let txHashes := hashTx <$> b_transactions block in
  match indexOf txHash txHashes with
  | None => None
  | Some index => Some (merkleProofFrom txHashes index)
  end.

(** [verifyMerkleProof(txHash, proof, root)] *)
Definition verifyMerkleProof (txHash : string) (proof : list ProofStep) (root : string) : bool :=
  bool_decide
    (fold_left
       (λ current step,
          if ps_isLeft step then hash (strOf (ps_hash step) +:+ current)
          else hash (current +:+ strOf (ps_hash step)))
       proof txHash = root).

(** The [/proof/<txHash>] endpoint: the first block of the chain holding a
    transaction with that hash; [None] is [{ found: false }]. *)
Fixpoint proofFor (blocks : list (Block Eff)) (txHash : string) : option ProofResponse :=
  match blocks with
  | [] => None
  | block :: rest =>
      if existsb (λ tx, bool_decide (hashTx tx = txHash)) (b_transactions block) then
        Some {| pr_blockEpoch := b_epoch block; pr_blockHash := b_hash block;
                pr_txRoot := b_txRoot block;
                pr_proof := getMerkleProof block txHash |}
      else proofFor rest txHash
  end.

(** [amILeader(epoch)] *)
Definition amILeader (st : NodeState Eff) (epoch : Z) : bool :=
  bool_decide (electLeader me st epoch = Some (NODE_NAME me)).

(** The [/transaction] endpoint: the transaction joins the pending pool
    unless one with the same [signature] is already there. *)
Definition receiveTransaction (st : NodeState Eff) (tx : Transaction) : NodeState Eff :=
  if existsb (λ t, bool_decide (tx_signature t = tx_signature tx)) (pendingTransactions st)
  then st
  else set_pendingTransactions st (pendingTransactions st ++ [tx]).




(** One iteration of the peer loop of [handleGossip]; [now] is the
    [Date.now()] of that iteration, [zero] the effectiveness [0] given to a
    discovered peer. *)
Definition learnPeer (now : Z) (zero : Eff) (ps : gmap string (Peer Eff))
    (peer : GossipPeer) : gmap string (Peer Eff) :=
  if decide (gp_id peer ≠ NODE_NAME me ∧ ps !! gp_id peer = None) then
    <[gp_id peer := {| p_url := gp_url peer; p_publicKeyPem := None;
                       p_publicKeyHash := gp_publicKeyHash peer;
                       p_lastSeen := now; p_effectiveness := zero |}]> ps
  else ps.

(** The loop over [data.peers], from entry [k] on; [clock i] is the time
    read while entry [i] is handled. *)
Fixpoint learnPeers (clock : nat → Z) (k : nat) (zero : Eff)
    (ps : gmap string (Peer Eff)) (entries : list GossipPeer)
    : gmap string (Peer Eff) :=
  match entries with
  | [] => ps
  | peer :: rest => learnPeers clock (S k) zero (learnPeer (clock k) zero ps peer) rest
  end.

Definition touchPeer {E} (now : Z) (p : Peer E) : Peer E :=
  {| p_url := p_url p; p_publicKeyPem := p_publicKeyPem p;
     p_publicKeyHash := p_publicKeyHash p; p_lastSeen := now;
     p_effectiveness := p_effectiveness p |}.

(** [handleGossip(data)]; [now] is the [Date.now()] of the last
    statement. *)
Definition handleGossip (st : NodeState Eff) (clock : nat → Z) (now : Z) (zero : Eff)
    (data : Gossip) : NodeState Eff :=
  let ps := learnPeers clock 0 zero (peers st) (default [] (g_peers data)) in
  let ps :=
    match g_from data with
    | Some from =>
        if decide (from ≠ "") then alter (touchPeer now) from ps else ps
    | None => ps
    end in
  set_peers st ps.

(** The [/announce] endpoint; [now] is [Date.now()], [zero] the
    effectiveness [0].  Whatever is registered under [id] is replaced, and
    [id] is not compared with [NODE_NAME]. *)
Definition handleAnnounce (st : NodeState Eff) (now : Z) (zero : Eff)
    (id url : string) (publicKeyPem publicKeyHash : option string) : NodeState Eff :=
  set_peers st
    (<[id := {| p_url := url; p_publicKeyPem := publicKeyPem;
                p_publicKeyHash := publicKeyHash; p_lastSeen := now;
                p_effectiveness := zero |}]> (peers st)).
End Endpoints.

(* ================================================================== *)
(** ** The ledger operations read on account maps *)
(* ================================================================== *)

(** What the operations on the object heap amount to on the map from
    address to [(balance, nonce)]; the properties of the ledger relate the
    two.  A credit creates the account when it is missing. *)
Definition creditView (v : gmap string Account) (addr : string) (amount : Z)
    : gmap string Account :=
  <[addr := addBalance amount (default newAccount (v !! addr))]> v.

(** A transfer debits the sender, sets its nonce and credits the
    recipient.  When sender and recipient are one address without an
    account, the two [|| { balance: 0, nonce: 0 }] objects are distinct and
    the one stored last, the credited one, is what remains. *)
Definition transferView (v : gmap string Account) (tx : Transaction)
    : gmap string Account :=
  if decide (tx_from tx = tx_to tx ∧ v !! tx_from tx = None) then
    <[tx_to tx := addBalance (tx_amount tx) newAccount]> v
  else
    let sender := default newAccount (v !! tx_from tx) in
    creditView
      (<[tx_from tx := setNonce (tx_nonce tx) (subBalance (tx_amount tx) sender)]> v)
      (tx_to tx) (tx_amount tx).

Definition replayTransactionView (v : gmap string Account) (tx : Transaction)
    : gmap string Account :=
  if decide (tx_from tx = "coinbase") then creditView v (tx_to tx) (tx_amount tx)
  else transferView v tx.

Definition replayBlockView {Eff} (v : gmap string Account) (block : Block Eff)
    : gmap string Account :=
  fold_left replayTransactionView (b_transactions block)
    (fold_left (λ v entry, creditView v entry.1 entry.2) (b_rewards block) v).

(** The account map a chain determines. *)
Definition ledgerOfChain {Eff} (blocks : list (Block Eff)) : gmap string Account :=
  fold_left replayBlockView blocks ∅.

(* ================================================================== *)
(** ** A small concrete instance of the interfaces, for running the model *)
(* ================================================================== *)

Module Toy.
(** A 32-byte checksum standing in for SHA-256: byte [i mod 32] of the
    digest accumulates the input bytes at the positions congruent to [i]. *)
Fixpoint toyMix (i : nat) (input : list byte) (acc : list N) : list N :=
  match input with
  | [] => acc
  | b :: rest =>
      toyMix (S i) rest
        (alter (λ n, (n * 31 + Byte.to_N b + N.of_nat i) mod 256)%N (i mod 32)%nat acc)
  end.

Definition toySha256 (s : string) : list byte :=
  (λ n, default x00 (Byte.of_N n))
    <$> toyMix 0 (list_byte_of_string s) (replicate 32 0%N).

Definition toySign (data : string) : string := "sig:" +:+ data.

Definition toyVerify (data sig pem : string) : bool :=
  bool_decide (sig = toySign data) && bool_decide (pem ≠ "").

Definition toySpkiDer (pem : string) : option string :=
  if decide (pem = "") then None else Some pem.

Global Program Instance toyCrypto : Crypto := {|
  sha256 := toySha256;
  sign := toySign;
  verify := toyVerify;
  spkiDer := toySpkiDer
|}.
Next Obligation.
  intros s. unfold toySha256. rewrite length_fmap.
  assert (Hmix : ∀ input i acc, length (toyMix i input acc) = length acc).
  { induction input as [|b rest IH]; intros i acc; [done |].
    cbn [toyMix]. by rewrite IH, length_alter. }
  by rewrite Hmix, length_replicate.
Qed.
Next Obligation.
  intros data sig pem Hv. unfold toyVerify in Hv. unfold toySpkiDer.
  apply andb_prop in Hv as [_ Hpem]. apply bool_decide_eq_true in Hpem.
  destruct (decide (pem = "")); [done | eauto].
Qed.

Definition toyStringifyTx (tx : Transaction) : string :=
  tx_from tx +:+ ">" +:+ tx_to tx +:+ ":" +:+ pretty (tx_amount tx)
    +:+ "#" +:+ pretty (tx_nonce tx).

Global Instance toyJson : Json unit := {|
  stringifyTx := toyStringifyTx;
  stringifyReceipt := λ r, default "" (r_challengeId r);
  stringifyBlock := λ b,
    pretty (b_epoch b) +:+ "/" +:+ b_leader b +:+ "/"
      +:+ default "" (b_previousHash b) +:+ "/" +:+ b_txRoot b;
  stringifyEpochView := λ e v, pretty e +:+ "," +:+ pretty v
|}.

Definition node1 : Identity :=
  {| NODE_NAME := "n1"; id_publicKeyPem := "pem-n1"; id_publicKeyHash := "addr-n1" |}.

Definition peerAt (url : string) : Peer unit :=
  {| p_url := url; p_publicKeyPem := None; p_publicKeyHash := None;
     p_lastSeen := 0; p_effectiveness := () |}.

Definition noStats : Stats :=
  {| blocksProduced := 0; blocksCommitted := 0; challengesSent := 0;
     challengesReceived := 0; receiptsVerified := 0; viewChanges := 0;
     slashEvents := 0 |}.

(** The state of a node that has just started, with the given peers. *)
Definition freshState (ps : gmap string (Peer unit)) : NodeState unit :=
  {| peers := ps; chain := []; pendingReceipts := []; pendingTransactions := [];
     accounts := emptyAccounts; currentEpoch := 0; epochStartTime := 0;
     currentView := 0; proposedBlock := None; votes := ∅;
     viewChangeVotes := ∅; seenProposals := ∅; slashedNodes := ∅;
     effectiveness := (); stats := noStats |}.

Definition threePeers : gmap string (Peer unit) :=
  <["n2" := peerAt "u2"]> (<["n3" := peerAt "u3"]> (<["n4" := peerAt "u4"]> ∅)).

Definition transfer (from to : string) (amount nonce : Z) : Transaction :=
  {| tx_from := from; tx_to := to; tx_amount := amount; tx_nonce := nonce;
     tx_timestamp := 0; tx_signature := Some "s" |}.

(** A block with the given transactions, hashed and signed as
    [createBlock] does with the toy interface. *)
Definition blockOf (leader pem : string) (epoch : Z) (prev : option string)
    (txs : list Transaction) (votes : option (gmap string string)) : Block unit :=
  let data :=
    {| b_epoch := epoch; b_previousHash := prev; b_leader := leader;
       b_leaderPubKey := pem; b_timestamp := 0;
       b_txRoot := calculateMerkleRoot (hashTx <$> txs);
       b_receiptRoot := zeros64; b_stateRoot := zeros64;
       b_receipts := []; b_transactions := txs;
       b_effectivenessUpdates := []; b_rewards := [];
       b_hash := None; b_leaderSignature := None; b_votes := None |} in
  {| b_epoch := epoch; b_previousHash := prev; b_leader := leader;
     b_leaderPubKey := pem; b_timestamp := 0;
     b_txRoot := b_txRoot data;
     b_receiptRoot := zeros64; b_stateRoot := zeros64;
     b_receipts := []; b_transactions := txs;
     b_effectivenessUpdates := []; b_rewards := [];
     b_hash := Some (hashBlock data);
     b_leaderSignature := Some (sign (hashBlock data)); b_votes := votes |}.
End Toy.

(* ================================================================== *)
(** ** Effectiveness engine (floating point read as real arithmetic) *)
(* ================================================================== *)

Module Effectiveness.
Import Stdlib.Reals.Reals.

(** [CONFIG.rampConstant], [CONFIG.decayConstant], and the local
    [const days = 1 / 144]. *)
Definition rampConstant : R := 40%R.
Definition decayConstant : R := 7%R.
Definition days : R := (1 / 144)%R.

(** The two branches of the [if (wasOnline)] of
    [calculateEffectivenessUpdates], and the clamp
    [Math.max(0, Math.min(1, eff))]. *)
Definition rampDecay (wasOnline : bool) (currentEff : R) : R :=
  if wasOnline then (1 - (1 - currentEff) * exp (- days / rampConstant))%R
  else (currentEff * exp (- days / decayConstant))%R.

Definition clamp (eff : R) : R := Rmax 0 (Rmin 1 eff).

(** [x || y] on numbers: [0] is falsy. *)
Definition orElse (x y : R) : R := if Req_dec_T x 0%R then y else x.

Section Engine.
Variable me : Identity.

(** The [nodeAddresses] map. *)
Definition nodeAddresses (st : NodeState R) : gmap string string :=
  fold_left (λ m '(nodeId, peer),
               if truthy (p_publicKeyHash peer)
               then <[nodeId := default "" (p_publicKeyHash peer)]> m else m)
    (map_to_list (peers st))
    (<[NODE_NAME me := id_publicKeyHash me]> ∅).

(** [peer?.effectiveness || (nodeId === NODE_NAME ? state.effectiveness : 0)] *)
Definition currentEffectiveness (st : NodeState R) (nodeId : string) : R :=
  let fallback := if decide (nodeId = NODE_NAME me) then effectiveness st else 0%R in
  match peers st !! nodeId with
  | Some peer => orElse (p_effectiveness peer) fallback
  | None => fallback
  end.

(** [receipts.filter(r => r.to === nodeId && r.success).length > 0] *)
Definition wasOnline (receipts : list Receipt) (nodeId : string) : bool :=
  existsb (λ r, bool_decide (r_to r = Some nodeId) && r_success r) receipts.

(** One iteration of the [for (const nodeId of allNodes)] loop. *)
Definition updateNode (st : NodeState R) (receipts : list Receipt)
    (updates : gmap string R) (nodeId : string) : gmap string R :=
  match nodeAddresses st !! nodeId with
  | None => updates
  | Some addr =>
      if decide (addr = "") then updates
      else
        let eff := rampDecay (wasOnline receipts nodeId)
                     (currentEffectiveness st nodeId) in
        <[addr := clamp eff]> updates
  end.

(** [calculateEffectivenessUpdates(receipts)].  The code visits the nodes
    in the insertion order of the peer [Map], and when two nodes share an
    address the value of the one visited last stays; the registry here
    keeps no insertion order, so the definition is that of the code for
    registries in which no two nodes share an address. *)
Definition calculateEffectivenessUpdates (st : NodeState R)
    (receipts : list Receipt) : gmap string R :=
  fold_left (updateNode st receipts) (allNodeIds me st) ∅.
End Engine.

(** [CONFIG.rewardPerEpoch] *)
Definition rewardPerEpoch : R := 100%R.

(** [Object.values(effectivenessUpdates).reduce((a, b) => a + b, 0)] *)
Definition totalEffectiveness (updates : gmap string R) : R :=
  fold_left Rplus (map_to_list updates).*2 0%R.

Global Instance positive_entry_dec (entry : string * R) : Decision (0 < entry.2)%R :=
  Rlt_dec 0 entry.2.

(** [calculateRewards(effectivenessUpdates)] *)
Definition calculateRewards (updates : gmap string R) : gmap string R :=
  let totalEff := totalEffectiveness updates in
  if Req_dec_T totalEff 0%R then ∅
  else
    (λ eff, eff / totalEff * rewardPerEpoch)%R
      <$> filter (λ entry : string * R, (0 < entry.2)%R) updates.

(** The update as section 4.4 of the specification words it:
    [Δd = epochDuration / 86400] days, ramp constant 40, decay constant 7,
    clamped to the unit interval. *)
Definition epochDurationSeconds : R := 10%R.
Definition deltaDays : R := (epochDurationSeconds / 86400)%R.

Definition specUpdate (producedReceipt : bool) (e : R) : R :=
  Rmax 0 (Rmin 1
    (if producedReceipt then (1 - (1 - e) * exp (- deltaDays / 40))%R
     else (e * exp (- deltaDays / 7))%R)).
(** A node on its own, at effectiveness 0. *)
Definition soloState : NodeState R :=
  {| peers := ∅; chain := []; pendingReceipts := []; pendingTransactions := [];
     accounts := emptyAccounts; currentEpoch := 1; epochStartTime := 0;
     currentView := 0; proposedBlock := None; votes := ∅;
     viewChangeVotes := ∅; seenProposals := ∅; slashedNodes := ∅;
     effectiveness := 0%R; stats := Toy.noStats |}.

(** The effectiveness values of two validators, one of them at 0. *)
Definition twoValidators : gmap string R :=
  <["addr-n1" := (1 / 4)%R]> {["addr-n2" := 0%R]}.

(** A successful receipt answered by the node itself. *)
Definition ownReceipt : Receipt :=
  {| r_challengeId := Some "e1-n2-c0"; r_from := Some "n2"; r_to := Some "n1";
     r_epoch := 1; r_success := true; r_latencyMs := 3; r_timestamp := 0;
     r_workResult := 0; r_signature := Some "sig" |}.
End Effectiveness.

(* ================================================================== *)
(** ** Concrete inputs used to run the model *)
(* ================================================================== *)

Module Examples.
Import Toy.

(** A ledger in which ["A"] holds 5 tokens at nonce 0. *)
Definition ledgerA5 : AccountStore :=
  {| objects := [ {| balance := 5; nonce := 0 |} ]; entries := {["A" := 0%nat]} |}.

Definition small : Transaction := transfer "A" "B" 3 1.
Definition again : Transaction := transfer "A" "C" 2 1.

(** The transaction the [/faucet] endpoint queues. *)
Definition faucetTx : Transaction :=
  {| tx_from := "coinbase"; tx_to := "addr-n1"; tx_amount := 1000;
     tx_nonce := 1700000000000; tx_timestamp := 1700000000000;
     tx_signature := Some "coinbase" |}.

Definition twoVotes : gmap string string :=
  <["n1" := "sig-n1"]> (<["n2" := "sig-n2"]> ∅).

Definition faucetBlock : Block unit :=
  blockOf "n1" "pem-n1" 1 (Some zeros64) [faucetTx] (Some twoVotes).

(** The chain of one block, committed on a node that starts empty. *)
Definition committed : NodeState unit :=
  commitChain node1 (freshState ∅) [faucetBlock].

(** A leader ["n2"] signs two different blocks for epoch 1. *)
Definition blockA : Block unit := blockOf "n2" "pem-n2" 1 (Some zeros64) [] None.
Definition blockB : Block unit :=
  blockOf "n2" "pem-n2" 1 (Some zeros64) [transfer "x" "y" 1 1] None.

(** The address derived from the key ["pem-n2"], holding 800 tokens. *)
Definition leaderAddress : string := default "" (addressOfKey "pem-n2").

Definition observer : NodeState unit :=
  set_accounts (freshState threePeers)
    {| objects := [ {| balance := 800; nonce := 3 |} ];
       entries := {[leaderAddress := 0%nat]} |}.

(** The observer after it has received [blockA] on [/propose]. *)
Definition observerHoldingA : NodeState unit :=
  (handleBlockProposal node1 observer blockA).1.

(** A block proposed by a node that is no validator at all, extending the
    empty chain, with a hash and a signature that are not even computed. *)
Definition forgedBlock : Block unit :=
  {| b_epoch := 1; b_previousHash := Some zeros64; b_leader := "mallory";
     b_leaderPubKey := "pem-mallory"; b_timestamp := 0;
     b_txRoot := zeros64; b_receiptRoot := zeros64; b_stateRoot := zeros64;
     b_receipts := []; b_transactions := [transfer "nobody" "mallory" 1000000 5];
     b_effectivenessUpdates := []; b_rewards := [("mallory", 1000000)];
     b_hash := Some "not-a-hash"; b_leaderSignature := Some "not-a-signature";
     b_votes := None |}.

(** A well-formed committed block that carries two votes. *)
Definition underVotedBlock : Block unit :=
  blockOf "n1" "pem-n1" 1 (Some zeros64) [transfer "coinbase" "addr-n1" 50 1]
    (Some (<["n1" := "sig-n1"]> (<["n2" := "sig-n2"]> ∅))).

(** Two view-change messages from the same sender, one unsigned and one
    with an arbitrary string as signature. *)
Definition unsignedViewChange : ViewChange :=
  {| vc_epoch := 0; vc_oldView := 0; vc_newView := 1; vc_from := "anyone";
     vc_signature := None |}.
Definition bogusViewChange : ViewChange :=
  {| vc_epoch := 0; vc_oldView := 0; vc_newView := 1; vc_from := "anyone";
     vc_signature := Some "garbage" |}.

(** A second validator. *)
Definition node2 : Identity :=
  {| NODE_NAME := "n2"; id_publicKeyPem := "pem-n2"; id_publicKeyHash := "addr-n2" |}.

(** Node ["n1"] with peers ["n2"] and ["n3"] after it has received its own
    announcement on [/announce], and node ["n2"] with peers ["n1"] and
    ["n3"]: both know the validators ["n1"], ["n2"], ["n3"]. *)
Definition selfRegistered : NodeState unit :=
  handleAnnounce
    (freshState (<["n2" := peerAt "u2"]> (<["n3" := peerAt "u3"]> ∅)))
    0 () "n1" "u1" (Some "pem-n1") (Some "addr-n1").

Definition notRegistered : NodeState unit :=
  freshState (<["n1" := peerAt "u1"]> (<["n3" := peerAt "u3"]> ∅)).

(** A node without peers whose ledger is [ledgerA5], and the block it
    builds in epoch 1 from the two transfers with nonce 1 and a reward of 1
    for ["A"]. *)
Definition holder : NodeState unit := set_accounts (freshState ∅) ledgerA5.

Definition builtBlock : Block unit :=
  createBlock node1 holder 0 [] [("A", 1)] 1 [] [small; again].

(** The node of the committed chain with a ledger that does not come from
    that chain. *)
Definition stale : NodeState unit := set_accounts committed ledgerA5.


(** What ["n1"] broadcasts when its timer fires in epoch 0 at view 0. *)
Definition timeoutMessage : ViewChange :=
  {| vc_epoch := 0; vc_oldView := 0; vc_newView := 1; vc_from := "n1";
     vc_signature := Some (sign (stringifyEpochView 0 1)) |}.
End Examples.

(* ================================================================== *)
(** ** Statements of the specification kept for comparison *)
(* ================================================================== *)


(* ================================================================== *)
(** ** Properties: digests and the Merkle root *)
(* ================================================================== *)

Section HashingFacts.
Context `{Crypto}.

Lemma hash_nonempty (s : string) : hash s ≠ "".
Proof.
  unfold hash. pose proof (sha256_length s) as Hlen.
  destruct (sha256 s) as [|b bs]; [discriminate Hlen | discriminate].
Qed.

Lemma length_hexOfBytes (bs : list byte) :
  String.length (hexOfBytes bs) = (2 * length bs)%nat.
Proof.
  induction bs as [|b bs IH]; [done |].
  change (hexOfBytes (b :: bs)) with (hexOfByte b (hexOfBytes bs)).
  unfold hexOfByte. cbn [String.length length]. rewrite IH. lia.
Qed.

Lemma length_prefix (n : nat) (s : string) :
  (n ≤ String.length s)%nat → String.length (substring 0 n s) = n.
Proof.
  revert s. induction n as [|n IH]; intros [|c s]; cbn; try done; try lia.
  intros Hn. rewrite IH; [done | lia].
Qed.

Lemma parseHexFrom_hexOfByte (b : byte) (rest : string) (acc : option N) :
  parseHexFrom acc (hexOfByte b rest)
  = parseHexFrom (Some (256 * default 0%N acc + Byte.to_N b)%N) rest.
Proof.
  destruct acc as [a|]; unfold default, from_option, id.
  - replace (256 * a + Byte.to_N b)%N
      with (16 * (16 * a + Byte.to_N b / 16) + Byte.to_N b mod 16)%N
      by (pose proof (N.div_mod (Byte.to_N b) 16); lia).
    destruct b; reflexivity.
  - destruct b; reflexivity.
Qed.

(** The first eight hexadecimal digits of a digest, read by [parseInt],
    are its first four bytes as a big-endian unsigned integer. *)
Lemma parseInt16_digest_prefix (s : string) :
  parseInt16 (substring 0 8 (hash s)) = Some (beValue (take 4 (sha256 s))).
Proof.
  unfold hash, parseInt16. pose proof (sha256_length s) as Hlen.
  destruct (sha256 s) as [|b0 [|b1 [|b2 [|b3 bs]]]]; try discriminate Hlen.
  change (substring 0 8 (hexOfBytes (b0 :: b1 :: b2 :: b3 :: bs))) with
    (hexOfByte b0 (hexOfByte b1 (hexOfByte b2 (hexOfByte b3
       (substring 0 0 (hexOfBytes bs)))))).
  replace (substring 0 0 (hexOfBytes bs)) with EmptyString
    by (by destruct (hexOfBytes bs)).
  rewrite !parseHexFrom_hexOfByte. reflexivity.
Qed.

Lemma nextLevel_nonempty (hashes : list string) :
  Forall (λ d, d ≠ "") (nextLevel hashes).
Proof.
  induction hashes as [hashes IH] using (induction_ltof1 _ (@length string)).
  destruct hashes as [|a [|b rest]]; cbn [nextLevel].
  - constructor.
  - repeat constructor. apply hash_nonempty.
  - constructor; [apply hash_nonempty |]. apply IH. unfold ltof. simpl. lia.
Qed.

Lemma duplicateLastIfOdd_cons2 (a b : string) (rest : list string) :
  hashPairs (duplicateLastIfOdd (a :: b :: rest))
  = hash (a +:+ b) :: hashPairs (duplicateLastIfOdd rest).
Proof.
  unfold duplicateLastIfOdd.
  change (length (a :: b :: rest)) with (S (S (length rest))).
  rewrite Nat.odd_succ_succ.
  destruct (Nat.odd (length rest)) eqn:Hodd; [|reflexivity].
  destruct rest as [|c rest']; [discriminate Hodd | reflexivity].
Qed.

(** One pass of the loop is the specification's "duplicate the last digest
    of an odd level, then hash adjacent pairs", as long as no digest is
    the empty string. *)
Lemma nextLevel_hashPairs (hashes : list string) :
  Forall (λ d, d ≠ "") hashes →
  nextLevel hashes = hashPairs (duplicateLastIfOdd hashes).
Proof.
  induction hashes as [hashes IH] using (induction_ltof1 _ (@length string)).
  intros Hne. destruct hashes as [|a [|b rest]].
  - reflexivity.
  - reflexivity.
  - rewrite duplicateLastIfOdd_cons2. cbn [nextLevel].
    inversion Hne as [|? ? _ Hne']; subst. inversion Hne' as [|? ? Hb Hrest]; subst.
    destruct (decide (b = "")) as [->|_]; [done |].
    f_equal. apply IH; [unfold ltof; simpl; lia | done].
Qed.

Lemma calculateMerkleRoot_refines (leaves : list string) :
  Forall (λ d, d ≠ "") leaves → calculateMerkleRoot leaves = merkleRootSpec leaves.
Proof.
  induction leaves as [leaves IH] using (induction_ltof1 _ (@length string)).
  intros Hne. destruct leaves as [|a [|b rest]].
  - by simp calculateMerkleRoot merkleRootSpec.
  - by simp calculateMerkleRoot merkleRootSpec.
  - simp calculateMerkleRoot merkleRootSpec.
    rewrite <- nextLevel_hashPairs by done.
    apply IH; [|apply nextLevel_nonempty].
    unfold ltof.
    assert (Hle : ∀ l : list string, (length (nextLevel l) ≤ length l)%nat).
    { clear. intros l.
      induction l as [l IHl] using (induction_ltof1 _ (@length string)).
      destruct l as [|x [|y l']]; simpl; [lia | lia |].
      assert (length (nextLevel l') ≤ length l')%nat
        by (apply IHl; unfold ltof; simpl; lia).
      lia. }
    specialize (Hle rest). simpl. lia.
Qed.
End HashingFacts.

(* ================================================================== *)
(** ** Properties: the transaction filter of the block builder *)
(* ================================================================== *)

Section FilterFacts.
Variable accts : AccountStore.




Lemma overlayNonce_credit (ov : Overlay) (addr a : string) (amount : Z) :
  overlayNonce accts (creditOverlay accts ov addr amount) a = overlayNonce accts ov a.
Proof. reflexivity. Qed.






End FilterFacts.


Module FilterExamples.
Import Toy Examples.


End FilterExamples.

(* ================================================================== *)
(** ** Properties: Merkle commitments of a block *)
(* ================================================================== *)

Section MerkleClaims.
Context `{Crypto} {Eff : Type} `{Json Eff}.

(** C9.  On every sequence of leaf digests (non-empty strings),
    [calculateMerkleRoot] is the reference Merkle root of section 4.2:
    duplicate the last digest of an odd level, hash adjacent pairs, repeat
    until one root remains.  The empty sequence gives the root of 64 zero
    digits and a single digest is returned unchanged; so the [txRoot] of a
    block built with no transaction is all zeros and that of a block with
    one transaction is the hash of that transaction. *)
Theorem calculateMerkleRoot_is_reference_root (leaves : list string)
    (Hdigests : Forall (λ d, d ≠ "") leaves) :
  calculateMerkleRoot leaves = merkleRootSpec leaves
  ∧ calculateMerkleRoot [] = zeros64
  ∧ zeros64 = fold_right String EmptyString (replicate 64 "0"%char)
  ∧ (∀ d, calculateMerkleRoot [d] = d)
  ∧ (∀ (me : Identity) (st : NodeState Eff) now effs rewards epoch receipts txs,
       let block := createBlock me st now effs rewards epoch receipts txs in
       b_txRoot block = calculateMerkleRoot (hashTx <$> b_transactions block)
       ∧ (b_transactions block = [] → b_txRoot block = zeros64)
       ∧ (∀ tx, b_transactions block = [tx] → b_txRoot block = hashTx tx)).
Proof.
  split; [by apply calculateMerkleRoot_refines |].
  split; [by simp calculateMerkleRoot |].
  split; [reflexivity |].
  split; [intros d; by simp calculateMerkleRoot |].
  intros me st now effs rewards epoch receipts txs. unfold createBlock.
  destruct (filterTransactions _ _ _ _) as [validTxs ov]. cbn.
  split; [reflexivity |].
  split.
  - intros ->. by simp calculateMerkleRoot.
  - intros tx ->. cbn. by simp calculateMerkleRoot.
Qed.
End MerkleClaims.

Lemma calculateMerkleRoot_is_reference_root_witness :
  Forall (λ d : string, d ≠ "") ["aa"; "bb"; "cc"]
  ∧ calculateMerkleRoot ["aa"; "bb"; "cc"] = merkleRootSpec ["aa"; "bb"; "cc"].
Proof.
  assert (Hd : Forall (λ d : string, d ≠ "") ["aa"; "bb"; "cc"])
    by (repeat constructor; discriminate).
  split; [exact Hd |].
  exact (proj1 (calculateMerkleRoot_is_reference_root
                  (H := Toy.toyCrypto) (Eff := unit) ["aa"; "bb"; "cc"] Hd)).
Defined.

(* ================================================================== *)
(** ** Properties: leader election *)
(* ================================================================== *)

Global Instance strLe_trans : Transitive strLe.
Proof.
  unfold strLe, String.leb. intros a.
  induction a as [|x a IH]; intros [|y b] [|z c]; cbn; try done.
  unfold Ascii.compare.
  destruct (N.compare_spec (N_of_ascii x) (N_of_ascii y)) as [Hxy|Hxy|Hxy],
           (N.compare_spec (N_of_ascii y) (N_of_ascii z)) as [Hyz|Hyz|Hyz],
           (N.compare_spec (N_of_ascii x) (N_of_ascii z)) as [Hxz|Hxz|Hxz];
    try done; try lia.
  apply IH.
Qed.

Global Instance strLe_total : Total strLe.
Proof. intros a b. apply String.leb_total. Qed.

Global Instance strLe_antisym : AntiSymm (=) strLe.
Proof. intros a b. apply String.leb_antisym. Qed.

Section ElectionClaims.
Context `{Crypto} {Eff : Type}.

Lemma sorted_ids_nonempty (me : Identity) (st : NodeState Eff) :
  length (merge_sort strLe (allNodeIds me st)) ≠ 0%nat.
Proof.
  rewrite (Permutation_length (merge_sort_Permutation strLe (allNodeIds me st))).
  discriminate.
Qed.

Lemma electLeader_index (me : Identity) (st : NodeState Eff) (epoch : Z) :
  let L := merge_sort strLe (allNodeIds me st) in
  electLeader me st epoch
  = L !! N.to_nat
      (beValue (take 4 (sha256 ("epoch-" +:+ pretty epoch +:+ "-view-"
                                  +:+ pretty (currentView st))))
       mod N.of_nat (length L)).
Proof.
  cbn zeta. unfold electLeader.
  rewrite decide_False by apply sorted_ids_nonempty.
  by rewrite parseInt16_digest_prefix.
Qed.

Lemma electLeader_permutation (me1 me2 : Identity) (st1 st2 : NodeState Eff)
    (epoch : Z) :
  currentView st1 = currentView st2 →
  allNodeIds me1 st1 ≡ₚ allNodeIds me2 st2 →
  electLeader me2 st2 epoch = electLeader me1 st1 epoch.
Proof.
  intros Hview Hset. rewrite !electLeader_index. cbn zeta. rewrite <- Hview.
  assert (Heq : merge_sort strLe (allNodeIds me2 st2)
                = merge_sort strLe (allNodeIds me1 st1)).
  { apply (Sorted_unique strLe); [apply (Sorted_merge_sort strLe)..|].
    rewrite !merge_sort_Permutation. by symmetry. }
  by rewrite Heq.
Qed.

(** Read on sets: two nodes that are not registered among their own peers
    and know the same set of validators elect the same leader. *)
Lemma electLeader_same_validator_set (me1 me2 : Identity) (st1 st2 : NodeState Eff)
    (epoch : Z) :
  currentView st1 = currentView st2 →
  NODE_NAME me1 ∉ dom (peers st1) → NODE_NAME me2 ∉ dom (peers st2) →
  ({[NODE_NAME me1]} ∪ dom (peers st1) : gset string)
  = {[NODE_NAME me2]} ∪ dom (peers st2) →
  electLeader me2 st2 epoch = electLeader me1 st1 epoch.
Proof.
  intros Hview Hself1 Hself2 Hsets. apply electLeader_permutation; [done |].
  assert (Hnodup : ∀ (me : Identity) (st : NodeState Eff),
            NODE_NAME me ∉ dom (peers st) → NoDup (allNodeIds me st)).
  { intros me st Hself. unfold allNodeIds. apply NoDup_cons. split.
    - intros Hin. apply Hself. apply elem_of_dom.
      apply list_elem_of_fmap in Hin as ([k p] & -> & Hkp).
      apply elem_of_map_to_list in Hkp. by eexists.
    - apply NoDup_fst_map_to_list. }
  assert (Hmem : ∀ (me : Identity) (st : NodeState Eff) x,
            x ∈ allNodeIds me st ↔ x ∈ ({[NODE_NAME me]} ∪ dom (peers st) : gset string)).
  { intros me st x. unfold allNodeIds.
    rewrite elem_of_cons, elem_of_union, elem_of_singleton, elem_of_dom.
    split; (intros [->|Hx]; [by left | right]).
    - apply list_elem_of_fmap in Hx as ([k p] & -> & Hkp).
      apply elem_of_map_to_list in Hkp. by eexists.
    - destruct Hx as [p Hp]. apply list_elem_of_fmap.
      exists (x, p). split; [done |]. by apply elem_of_map_to_list. }
  apply NoDup_Permutation; [by apply Hnodup | by apply Hnodup |].
  intros x. by rewrite !Hmem, Hsets.
Qed.

(** [electLeader] sorts the identifiers of the known validators (self
    plus peers), reads the first four bytes of
    [H("epoch-" + E + "-view-" + V)] as an unsigned integer, reduces it
    modulo the length of the list and returns the identifier at that index
    of the sorted list; the result is one of the validators, and two nodes
    with the same epoch and view whose lists hold the same identifiers the
    same number of times elect the same leader. *)
Lemma electLeader_deterministic (me1 me2 : Identity) (st1 st2 : NodeState Eff)
    (epoch : Z)
    (Hview : currentView st1 = currentView st2)
    (Hset : allNodeIds me1 st1 ≡ₚ allNodeIds me2 st2) :
  let L := merge_sort strLe (allNodeIds me1 st1) in
  let idx :=
    (beValue (take 4 (sha256 ("epoch-" +:+ pretty epoch +:+ "-view-"
                                +:+ pretty (currentView st1))))
     mod N.of_nat (length L))%N in
  Sorted strLe L
  ∧ L ≡ₚ allNodeIds me1 st1
  ∧ electLeader me1 st1 epoch = L !! N.to_nat idx
  ∧ (∃ leader, electLeader me1 st1 epoch = Some leader
               ∧ leader ∈ allNodeIds me1 st1)
  ∧ electLeader me2 st2 epoch = electLeader me1 st1 epoch.
Proof.
  cbn zeta.
  pose proof (merge_sort_Permutation strLe (allNodeIds me1 st1)) as Hperm.
  split; [apply (Sorted_merge_sort strLe) |].
  split; [exact Hperm |].
  split; [apply electLeader_index |].
  split.
  - rewrite electLeader_index. cbn zeta.
    pose proof (sorted_ids_nonempty me1 st1) as Hne.
    set (L := merge_sort strLe (allNodeIds me1 st1)) in *.
    set (v := beValue _).
    assert (Hlt : (N.to_nat (v mod N.of_nat (length L)) < length L)%nat).
    { pose proof (N.mod_lt v (N.of_nat (length L))). lia. }
    destruct (lookup_lt_is_Some_2 L _ Hlt) as [leader Hleader].
    exists leader. split; [exact Hleader |].
    rewrite <- Hperm. by eapply list_elem_of_lookup_2.
  - by apply electLeader_permutation.
Qed.
End ElectionClaims.

Section ElectionDefect.
Context `{Crypto}.

(** C7 (the code departs from it).  Node ["n1"], with peers ["n2"] and
    ["n3"], has received its own announcement: [/announce] does not compare
    the id with [NODE_NAME], as [handleGossip] does, so ["n1"] is now among
    its own peers and its sorted list is [n1, n1, n2, n3].  Node ["n2"],
    with peers ["n1"] and ["n3"], has the list [n1, n2, n3].  Both know the
    validator set [{n1, n2, n3}] and are at view 0, yet in every epoch
    whose digest index (the first four bytes of
    [H("epoch-" + E + "-view-0")]) leaves a remainder from 1 to 8 modulo
    12 they elect different leaders; with SHA-256 that is the case at
    epoch 2, where ["n1"] elects ["n2"] and ["n2"] elects ["n1"]. *)
Theorem self_announced_node_elects_another_leader (epoch : Z)
    (Hdigest :
       (1 ≤ beValue (take 4 (sha256 ("epoch-" +:+ pretty epoch +:+ "-view-"
                                       +:+ pretty (0 : Z)))) mod 12 ≤ 8)%N) :
  let st1 := Examples.selfRegistered in
  let st2 := Examples.notRegistered in
  ({[NODE_NAME Toy.node1]} ∪ dom (peers st1) : gset string)
  = {[NODE_NAME Examples.node2]} ∪ dom (peers st2)
  ∧ currentView st1 = currentView st2
  ∧ merge_sort strLe (allNodeIds Toy.node1 st1) = ["n1"; "n1"; "n2"; "n3"]
  ∧ merge_sort strLe (allNodeIds Examples.node2 st2) = ["n1"; "n2"; "n3"]
  ∧ electLeader Toy.node1 st1 epoch ≠ electLeader Examples.node2 st2 epoch.
Proof.
  cbn zeta.
  assert (Hl1 : merge_sort strLe (allNodeIds Toy.node1 Examples.selfRegistered)
                = ["n1"; "n1"; "n2"; "n3"]) by (vm_compute; reflexivity).
  assert (Hl2 : merge_sort strLe (allNodeIds Examples.node2 Examples.notRegistered)
                = ["n1"; "n2"; "n3"]) by (vm_compute; reflexivity).
  split_and!; [by vm_compute | done | done | done |].
  rewrite !electLeader_index. cbn zeta. rewrite Hl1, Hl2.
  change (currentView Examples.selfRegistered) with 0.
  change (currentView Examples.notRegistered) with 0.
  set (i := beValue _) in *.
  change (N.of_nat (length ["n1"; "n1"; "n2"; "n3"])) with 4%N.
  change (N.of_nat (length ["n1"; "n2"; "n3"])) with 3%N.
  pose proof (N.Div0.mod_mul_r i 4 3) as H43.
  pose proof (N.Div0.mod_mul_r i 3 4) as H34.
  change (4 * 3)%N with 12%N in H43. change (3 * 4)%N with 12%N in H34.
  pose proof (N.mod_lt i 4 ltac:(done)) as Hx.
  pose proof (N.mod_lt i 3 ltac:(done)) as Hu.
  pose proof (N.mod_lt (i / 4) 3 ltac:(done)) as Hy.
  pose proof (N.mod_lt (i / 3) 4 ltac:(done)) as Hw.
  set (x := (i mod 4)%N) in *. set (u := (i mod 3)%N) in *.
  set (y := ((i / 4) mod 3)%N) in *. set (w := ((i / 3) mod 4)%N) in *.
  assert (Hresidues :
            ((x = 1 ∧ u = 1) ∨ (x = 2 ∧ u = 2) ∨ (x = 3 ∧ u = 0) ∨ (x = 0 ∧ u = 1)
             ∨ (x = 1 ∧ u = 2) ∨ (x = 2 ∧ u = 0) ∨ (x = 3 ∧ u = 1)
             ∨ (x = 0 ∧ u = 2))%N).
  { clearbody x u y w. rewrite H43 in Hdigest. clear Hl1 Hl2. lia. }
  destruct_or! Hresidues; destruct Hresidues as [Hx' Hu']; rewrite Hx', Hu';
    discriminate.
Qed.
End ElectionDefect.

Lemma self_announced_node_elects_another_leader_witness :
  (1 ≤ beValue (take 4 (sha256 "epoch-2-view-0")) mod 12 ≤ 8)%N
  ∧ electLeader Toy.node1 Examples.selfRegistered 2
    ≠ electLeader Examples.node2 Examples.notRegistered 2.
Proof.
  assert (Hdigest : (1 ≤ beValue (take 4 (sha256 "epoch-2-view-0")) mod 12 ≤ 8)%N)
    by (vm_compute; split; discriminate).
  split; [exact Hdigest |].
  exact (proj2 (proj2 (proj2 (proj2
           (self_announced_node_elects_another_leader 2 Hdigest))))).
Defined.

(* ================================================================== *)
(** ** Properties: the ledger *)
(* ================================================================== *)

Section LedgerFacts.
Context `{Crypto} {Eff : Type} `{Json Eff}.
Variable me : Identity.

Lemma applyEffectiveness_frame (updates : list (string * Eff)) (st : NodeState Eff) :
  let st' := fold_left (applyEffectiveness me) updates st in
  accounts st' = accounts st ∧ chain st' = chain st
  ∧ pendingReceipts st' = pendingReceipts st
  ∧ pendingTransactions st' = pendingTransactions st
  ∧ stats st' = stats st.
Proof.
  revert st. induction updates as [|[addr eff] rest IH]; intros st; [done |].
  cbn [fold_left]. cbn zeta in IH.
  destruct (IH (applyEffectiveness me st (addr, eff))) as (-> & -> & -> & -> & ->).
  unfold applyEffectiveness. by case_decide.
Qed.

Lemma commitBlock_accounts (st : NodeState Eff) (block : Block Eff) :
  accounts (commitBlock me st block)
  = fold_left applyTransaction (b_transactions block)
      (fold_left applyReward (b_rewards block) (accounts st)).
Proof.
  unfold commitBlock. cbn.
  by destruct (applyEffectiveness_frame (b_effectivenessUpdates block)
                 (set_chain st (chain st ++ [block]))) as (-> & _).
Qed.

Lemma commitBlock_chain (st : NodeState Eff) (block : Block Eff) :
  chain (commitBlock me st block) = chain st ++ [block].
Proof.
  unfold commitBlock. cbn.
  by destruct (applyEffectiveness_frame (b_effectivenessUpdates block)
                 (set_chain st (chain st ++ [block]))) as (_ & -> & _).
Qed.

Lemma commitChain_chain (blocks : list (Block Eff)) (st : NodeState Eff) :
  chain (commitChain me st blocks) = chain st ++ blocks.
Proof.
  revert st. induction blocks as [|b rest IH]; intros st; cbn.
  - by rewrite app_nil_r.
  - unfold commitChain in *. cbn [fold_left]. rewrite IH, commitBlock_chain.
    by rewrite <- (assoc_L (++)).
Qed.

Lemma replayEffectiveness_frame (block : Block Eff) (st : NodeState Eff) :
  accounts (replayEffectiveness me st block) = accounts st.
Proof.
  unfold replayEffectiveness. generalize (b_effectivenessUpdates block).
  intros updates. revert st.
  induction updates as [|[nodeId eff] rest IH]; intros st; [done |].
  cbn [fold_left]. rewrite IH. by case_decide.
Qed.

Lemma rebuildStateFromChain_accounts (st : NodeState Eff) :
  accounts (rebuildStateFromChain me st)
  = fold_left replayBlock (chain st) (accountsClear (accounts st)).
Proof.
  unfold rebuildStateFromChain.
  assert (Hloop : ∀ blocks (st' : NodeState Eff),
            accounts (fold_left
                        (λ st0 block,
                           replayEffectiveness me
                             (set_accounts st0 (replayBlock (accounts st0) block)) block)
                        blocks st')
            = fold_left replayBlock blocks (accounts st')).
  { induction blocks as [|b rest IH]; intros st'; [done |].
    cbn [fold_left]. rewrite IH. by rewrite replayEffectiveness_frame. }
  by rewrite Hloop.
Qed.

(** Away from the coinbase sentinel the replay loop runs the statements of
    [applyTransaction]. *)
Lemma replayTransaction_transfer (s : AccountStore) (tx : Transaction) :
  tx_from tx ≠ "coinbase" → replayTransaction s tx = applyTransaction s tx.
Proof. intros Hcb. unfold replayTransaction. by rewrite decide_False. Qed.

Lemma replayBlock_transfers (s : AccountStore) (block : Block Eff) :
  Forall (λ tx, tx_from tx ≠ "coinbase") (b_transactions block) →
  replayBlock s block
  = fold_left applyTransaction (b_transactions block)
      (fold_left applyReward (b_rewards block) s).
Proof.
  unfold replayBlock. generalize (fold_left applyReward (b_rewards block) s).
  induction (b_transactions block) as [|tx rest IH]; intros s' Hall; [done |].
  inversion Hall as [|? ? Htx Hrest]; subst. cbn [fold_left].
  rewrite replayTransaction_transfer by done. by apply IH.
Qed.

(** On a chain without coinbase transactions, replaying the chain on a node
    whose account map is empty rebuilds the very account store that
    committing the blocks one by one from an empty store produced. *)
Lemma replay_agrees_without_coinbase (blocks : list (Block Eff))
    (genesis fresh : NodeState Eff) :
  Forall (λ b, Forall (λ tx, tx_from tx ≠ "coinbase") (b_transactions b)) blocks →
  accounts genesis = emptyAccounts →
  accounts fresh = emptyAccounts → chain fresh = blocks →
  accounts (rebuildStateFromChain me fresh)
  = accounts (commitChain me genesis blocks).
Proof.
  intros Hall Hgen Hfresh Hchain.
  rewrite rebuildStateFromChain_accounts, Hfresh, Hchain.
  change (accountsClear emptyAccounts) with emptyAccounts. rewrite <- Hgen.
  clear Hgen Hfresh Hchain. revert genesis.
  induction blocks as [|b rest IH]; intros genesis; [done |].
  inversion Hall as [|? ? Hb Hrest]; subst. cbn [fold_left commitChain].
  rewrite replayBlock_transfers by done.
  rewrite <- commitBlock_accounts. by apply IH.
Qed.
(** The replay loop on a faucet transaction: the recipient is credited and
    nothing else in the account map changes. *)
Lemma replayTransaction_coinbase_credits_only (s : AccountStore) (tx : Transaction) :
  storeOk s → tx_from tx = "coinbase" →
  accountsView (replayTransaction s tx)
  = <[tx_to tx := addBalance (tx_amount tx) (accountOrZero s (tx_to tx))]>
      (accountsView s).
Proof.
  intros [Hbound Hinj] Hcb. unfold replayTransaction. rewrite decide_True by done.
  unfold getOrNew, accountsGet, accountOrZero, accountOf.
  destruct (entries s !! tx_to tx) as [r|] eqn:Hto; cbn.
  - destruct (lookup_lt_is_Some_2 (objects s) r (Hbound _ _ Hto)) as [o Ho].
    rewrite Ho. cbn. apply map_eq. intros a. unfold accountsView.
    rewrite lookup_omap. cbn [entries objects accountsSet mutate].
    destruct (decide (a = tx_to tx)) as [->|Hne].
    + rewrite !lookup_insert_eq. cbn. by rewrite list_lookup_alter_eq, Ho.
    + rewrite !lookup_insert_ne by done. rewrite lookup_omap.
      destruct (entries s !! a) as [r'|] eqn:Ha; cbn; [|done].
      apply list_lookup_alter_ne. intros ->. apply Hne. by apply (Hinj _ _ r').
  - apply map_eq. intros a. unfold accountsView.
    rewrite lookup_omap. cbn [entries objects accountsSet mutate allocAccount].
    destruct (decide (a = tx_to tx)) as [->|Hne].
    + rewrite !lookup_insert_eq. cbn. rewrite list_lookup_alter_eq.
      by rewrite lookup_app_r, Nat.sub_diag by lia.
    + rewrite !lookup_insert_ne by done. rewrite lookup_omap.
      destruct (entries s !! a) as [r'|] eqn:Ha; cbn; [|done].
      pose proof (Hbound _ _ Ha) as Hlt.
      rewrite list_lookup_alter_ne by lia. by rewrite lookup_app_l.
Qed.

(** [applyTransaction] on the same transaction: whenever the ledger has no
    account under ["coinbase"] yet, one appears with the negated amount as
    balance and the nonce of the transaction. *)
Lemma applyTransaction_coinbase_creates_account (s : AccountStore) (tx : Transaction) :
  storeOk s → tx_from tx = "coinbase" → tx_to tx ≠ "coinbase" →
  entries s !! "coinbase" = None →
  accountsView (applyTransaction s tx) !! "coinbase"
  = Some {| balance := - tx_amount tx; nonce := tx_nonce tx |}.
Proof.
  intros [Hbound Hinj] Hcb Hto Hnone. unfold applyTransaction.
  unfold getOrNew at 1. unfold accountsGet. rewrite Hcb, Hnone.
  cbn [allocAccount]. unfold getOrNew, accountsGet. cbn [entries objects].
  unfold accountsView.
  destruct (entries s !! tx_to tx) as [r|] eqn:Hr; cbn [allocAccount];
    rewrite lookup_omap; cbn [entries objects accountsSet mutate];
    rewrite lookup_insert_ne by done; rewrite lookup_insert_eq; cbn.
  - pose proof (Hbound _ _ Hr) as Hlt.
    rewrite list_lookup_alter_ne by lia.
    rewrite !list_lookup_alter_eq.
    by rewrite lookup_app_r, Nat.sub_diag by lia.
  - rewrite length_app. cbn [length].
    rewrite list_lookup_alter_ne by lia.
    rewrite !list_lookup_alter_eq.
    rewrite lookup_app_l by (rewrite length_app; cbn; lia).
    by rewrite lookup_app_r, Nat.sub_diag by lia.
Qed.
End LedgerFacts.

Module LedgerExamples.
Import Toy Examples.

(** C1 (the code departs from it).  On the chain whose only block carries
    one faucet transaction, committing the block leaves an account under
    the key ["coinbase"] with balance -1000 and the nonce of the
    transaction, whereas replaying the same chain from an empty map creates
    no such account: the two account maps differ. *)
Theorem replay_differs_from_commit_on_coinbase :
  chain committed = [faucetBlock]
  ∧ accountsView (accounts committed) !! "coinbase"
    = Some {| balance := -1000; nonce := 1700000000000 |}
  ∧ accountsView (accounts committed) !! "addr-n1"
    = Some {| balance := 1000; nonce := 0 |}
  ∧ accountsView (accounts (rebuildStateFromChain node1 committed)) !! "coinbase"
    = None
  ∧ accountsView (accounts (rebuildStateFromChain node1 committed)) !! "addr-n1"
    = Some {| balance := 1000; nonce := 0 |}
  ∧ accountsView (accounts (rebuildStateFromChain node1 committed))
    ≠ accountsView (accounts committed).
Proof.
  assert (Hinc : accountsView (accounts committed) !! "coinbase"
                 = Some {| balance := -1000; nonce := 1700000000000 |})
    by (vm_compute; reflexivity).
  assert (Hrep : accountsView (accounts (rebuildStateFromChain node1 committed))
                   !! "coinbase" = None)
    by (vm_compute; reflexivity).
  repeat split; try exact Hinc; try exact Hrep; try (vm_compute; reflexivity).
  intros Heq. rewrite Heq, Hinc in Hrep. discriminate Hrep.
Qed.

(** C6 (the code departs from it).  [applyTransaction], the function the
    commit path runs on every transaction, treats the faucet transaction as
    a transfer: it creates an account under ["coinbase"], debits it by the
    amount and sets its nonce.  The replay loop, on the same transaction,
    only credits the recipient. *)
Theorem applyTransaction_debits_coinbase_sentinel :
  accountsView (applyTransaction emptyAccounts faucetTx) !! "coinbase"
  = Some {| balance := -1000; nonce := 1700000000000 |}
  ∧ accountsView (applyTransaction emptyAccounts faucetTx) !! "addr-n1"
    = Some {| balance := 1000; nonce := 0 |}
  ∧ accountsView (replayTransaction emptyAccounts faucetTx)
    = {["addr-n1" := {| balance := 1000; nonce := 0 |}]}.
Proof.
  split; [vm_compute; reflexivity |].
  split; [vm_compute; reflexivity |].
  vm_compute. reflexivity.
Qed.
End LedgerExamples.

(* ================================================================== *)
(** ** Properties: the consensus handlers *)
(* ================================================================== *)

Section KeyFacts.

(** No character of [s] is the separator ["-"]. *)
Local Abbreviation dashFree s :=
  (Forall (λ c : ascii, c ≠ "-"%char) (list_ascii_of_string s)).

Lemma pretty_N_go_dashFree (x : N) (s : string) :
  dashFree s → dashFree (pretty_N_go x s).
Proof.
  revert s. induction (N.lt_wf_0 x) as [x _ IH]; intros s Hs.
  assert (x = 0 ∨ 0 < x)%N as [->|Hpos] by lia; [by rewrite pretty_N_go_0 |].
  rewrite pretty_N_go_step by done. apply IH; [by apply N.div_lt |].
  cbn. constructor; [|done]. unfold pretty_N_char. by repeat case_match.
Qed.

Lemma pretty_N_go_nonempty (x : N) (s : string) : s ≠ "" → pretty_N_go x s ≠ "".
Proof.
  revert s. induction (N.lt_wf_0 x) as [x _ IH]; intros s Hs.
  assert (x = 0 ∨ 0 < x)%N as [->|Hpos] by lia; [by rewrite pretty_N_go_0 |].
  rewrite pretty_N_go_step by done. apply IH; [by apply N.div_lt | done].
Qed.

Lemma pretty_N_digits (n : N) : dashFree (pretty n) ∧ pretty n ≠ "".
Proof.
  unfold pretty, pretty_N. case_decide as Hn.
  - split; [by repeat constructor | done].
  - split; [by apply pretty_N_go_dashFree |].
    rewrite pretty_N_go_step by lia. by apply pretty_N_go_nonempty.
Qed.

(** A decimal numeral is digits, with a leading ["-"] when negative. *)
Lemma pretty_Z_shape (z : Z) :
  ∃ digits, dashFree digits ∧ digits ≠ ""
            ∧ pretty z = (if decide (z < 0) then "-" +:+ digits else digits).
Proof.
  destruct z as [|p|p].
  - exists "0". split_and!; [by repeat constructor | done..].
  - exists (pretty (N.pos p)). by destruct (pretty_N_digits (N.pos p)).
  - exists (pretty (N.pos p)). by destruct (pretty_N_digits (N.pos p)).
Qed.

Lemma split_at_dash (a1 a2 t1 t2 : string) :
  dashFree a1 → dashFree a2 →
  a1 +:+ "-" +:+ t1 = a2 +:+ "-" +:+ t2 → a1 = a2 ∧ t1 = t2.
Proof.
  revert a2. induction a1 as [|c1 a1 IH]; intros [|c2 a2] H1 H2 Heq;
    simplify_eq/=.
  - done.
  - by inversion H2.
  - by inversion H1.
  - inversion H1; inversion H2; subst.
    destruct (IH a2) as [-> ->]; done.
Qed.

(** The key [`${epoch}-${newView}`] determines the epoch and the view. *)
Lemma viewChange_key_inj (e1 v1 e2 v2 : Z) :
  pretty e1 +:+ "-" +:+ pretty v1 = pretty e2 +:+ "-" +:+ pretty v2 →
  e1 = e2 ∧ v1 = v2.
Proof.
  destruct (pretty_Z_shape e1) as (d1 & Hd1 & Hn1 & Hp1).
  destruct (pretty_Z_shape e2) as (d2 & Hd2 & Hn2 & Hp2).
  intros Hkey.
  assert (Hparts : pretty e1 = pretty e2 ∧ pretty v1 = pretty v2).
  { rewrite Hp1, Hp2 in Hkey |- *.
    destruct (decide (e1 < 0)), (decide (e2 < 0)).
    - simplify_eq/=. by destruct (split_at_dash _ _ _ _ Hd1 Hd2 Hkey) as [-> ->].
    - destruct d2 as [|c d2]; [done |]. simplify_eq/=. by inversion Hd2.
    - destruct d1 as [|c d1]; [done |]. simplify_eq/=. by inversion Hd1.
    - by destruct (split_at_dash _ _ _ _ Hd1 Hd2 Hkey) as [-> ->]. }
  destruct Hparts as [He Hv]. by apply (inj pretty) in He, Hv.
Qed.
End KeyFacts.

(** The quorum in double arithmetic is the exact ceiling [⌈67 n / 100⌉]
    for every network of fewer than 1500 nodes, and one more at 1500. *)
Lemma votesNeeded_below_1500 :
  forallb (λ n, bool_decide (votesNeeded n = Z.to_nat ((Z.of_nat n * 67 + 99) / 100)))
    (seq 0 1500) = true.
Proof. vm_compute. reflexivity. Qed.

Lemma votesNeeded_1500 :
  votesNeeded 1500 = 1006%nat ∧ Z.to_nat ((1500 * 67 + 99) / 100) = 1005%nat.
Proof. split; vm_compute; reflexivity. Qed.

Section ConsensusFacts.
Context `{Crypto} {Eff : Type} `{Json Eff}.
Variable me : Identity.

(** [checkEquivocation] writes no field of the state other than
    [seenProposals]. *)
Lemma checkEquivocation_frame (st : NodeState Eff) (block : Block Eff) :
  (checkEquivocation st block).1
  = set_seenProposals st (seenProposals (checkEquivocation st block).1).
Proof.
  unfold checkEquivocation.
  destruct (seenProposals st !! b_epoch block) as [ps|]; cbn.
  - destruct (List.find _ _) as [[? ?]|]; cbn; [by destruct st |].
    case_decide; [destruct (minKey _) |]; by destruct st.
  - rewrite lookup_insert_eq. cbn.
    case_decide; [destruct (minKey _) |]; by destruct st.
Qed.

Lemma checkEquivocation_first_sight (st : NodeState Eff) (block : Block Eff) :
  seenProposals st !! b_epoch block = None →
  (checkEquivocation st block).2 = None.
Proof.
  intros Hnone. unfold checkEquivocation. rewrite Hnone. cbn.
  by rewrite lookup_insert_eq.
Qed.

Lemma checkEquivocation_detects (st : NodeState Eff) (b1 b2 : Block Eff)
    (h1 : option string) (proposals : list (option string * Block Eff)) :
  seenProposals st !! b_epoch b2 = Some proposals →
  (h1, b1) ∈ proposals →
  b_leader b1 = b_leader b2 →
  h1 ≠ b_hash b2 →
  ∃ evidence,
    checkEquivocation st b2 = (st, Some evidence)
    ∧ ev_block2 evidence = b2
    ∧ ev_leader evidence = b_leader b2
    ∧ ev_epoch evidence = b_epoch b2
    ∧ b_leader (ev_block1 evidence) = b_leader b2.
Proof.
  intros Hheld Hin Hleader Hhash. unfold checkEquivocation.
  rewrite Hheld. cbn. rewrite Hheld. cbn.
  destruct (List.find (conflicting b2) proposals) as [[h b]|] eqn:Hfind.
  - apply find_some in Hfind as [_ Hconf].
    apply bool_decide_eq_true in Hconf as [Hl _]. cbn in Hl.
    eexists. by repeat split.
  - exfalso.
    assert (Hno : conflicting b2 (h1, b1) = false)
      by (apply (find_none _ _ Hfind); by apply list_elem_of_In).
    apply bool_decide_eq_false in Hno. by apply Hno.
Qed.

Lemma verifyOpt_parses (data sig : option string) (pem : string) :
  verifyOpt data sig pem = true → is_Some (addressOfKey pem).
Proof.
  unfold verifyOpt, addressOfKey. destruct data, sig; try done.
  intros Hv. apply verify_parses in Hv as [der ->]. by eexists.
Qed.

Lemma slashNode_already_slashed (st : NodeState Eff) (pem addr : string)
    (evidence : Evidence Eff) :
  addressOfKey pem = Some addr → addr ∈ slashedNodes st →
  slashNode st pem evidence = st.
Proof. intros Haddr Hin. unfold slashNode. rewrite Haddr. by rewrite decide_True. Qed.

Lemma slashNode_first_time (st : NodeState Eff) (pem addr : string)
    (evidence : Evidence Eff) :
  addressOfKey pem = Some addr → addr ∉ slashedNodes st →
  let st' := slashNode st pem evidence in
  slashedNodes st' = {[addr]} ∪ slashedNodes st
  ∧ slashEvents (stats st') = slashEvents (stats st) + 1
  ∧ entries (accounts st') = entries (accounts st)
  ∧ accountOf (accounts st') addr
    = (λ a, subBalance (Z.min (balance a) slashAmount) a)
        <$> accountOf (accounts st) addr
  ∧ (∀ ref, accountsGet (accounts st) addr ≠ Some ref →
            objects (accounts st') !! ref = objects (accounts st) !! ref)
  ∧ chain st' = chain st
  ∧ proposedBlock st' = proposedBlock st.
Proof.
  intros Haddr Hnotin. cbn zeta. unfold slashNode. rewrite Haddr.
  rewrite decide_False by done. cbn.
  unfold accountOf, accountsGet.
  destruct (entries (accounts st) !! addr) as [ref|] eqn:Href; cbn.
  - destruct (objects (accounts st) !! ref) as [obj|] eqn:Hobj; cbn;
      rewrite ?Href; cbn; rewrite ?list_lookup_alter_eq, ?Hobj; cbn;
      repeat split; try done.
    intros ref' Hne. apply list_lookup_alter_ne. congruence.
  - rewrite ?Href. by repeat split.
Qed.

(** C4.  An observer that holds a block [b1] for the epoch of [b2], by the
    same leader under a different hash, refuses the proposal [b2] (whose
    leader signature verifies) with the equivocation evidence and casts no
    vote.  The slash goes to the leader's address [addr]: the first 40
    hexadecimal digits of the SHA-256 digest of the DER form of the key
    carried by the proposal, which is how the leader derives its own
    [IDENTITY.publicKeyHash] from the key it puts in its blocks.  The
    first time, [addr] joins the slashed set,
    [slashEvents] grows by one and the account at [addr], if there is one,
    loses [min(balance, slashAmount)] while every other account object is
    left alone; when [addr] is already slashed the state does not change
    at all. *)
Theorem equivocation_refused_and_slashed_once (st : NodeState Eff)
    (b1 b2 : Block Eff) (h1 : option string)
    (proposals : list (option string * Block Eff))
    (Hheld : seenProposals st !! b_epoch b2 = Some proposals)
    (Hstored : (h1, b1) ∈ proposals)
    (Hleader : b_leader b1 = b_leader b2)
    (Hhash : h1 ≠ b_hash b2)
    (Hsig : verifyOpt (b_hash b2) (b_leaderSignature b2) (b_leaderPubKey b2) = true) :
  ∃ addr evidence,
    addressOfKey (b_leaderPubKey b2) = Some addr
    ∧ (∃ der, spkiDer (b_leaderPubKey b2) = Some der
              ∧ addr = substring 0 40 (hexOfBytes (sha256 der)))
    ∧ String.length addr = 40%nat
    ∧ (handleBlockProposal me st b2).2
      = ProposalRefused "Equivocation detected" (Some evidence)
    ∧ ev_block2 evidence = b2
    ∧ ev_leader evidence = b_leader b2
    ∧ ev_epoch evidence = b_epoch b2
    ∧ b_leader (ev_block1 evidence) = b_leader b2
    ∧ let st' := (handleBlockProposal me st b2).1 in
      (addr ∈ slashedNodes st → st' = st)
      ∧ (addr ∉ slashedNodes st →
         slashedNodes st' = {[addr]} ∪ slashedNodes st
         ∧ slashEvents (stats st') = slashEvents (stats st) + 1
         ∧ entries (accounts st') = entries (accounts st)
         ∧ accountOf (accounts st') addr
           = (λ a, subBalance (Z.min (balance a) slashAmount) a)
               <$> accountOf (accounts st) addr
         ∧ (∀ ref, accountsGet (accounts st) addr ≠ Some ref →
                   objects (accounts st') !! ref = objects (accounts st) !! ref)
         ∧ chain st' = chain st
         ∧ proposedBlock st' = proposedBlock st).
Proof.
  destruct (verifyOpt_parses _ _ _ Hsig) as [addr Haddr].
  destruct (checkEquivocation_detects st b1 b2 h1 proposals Hheld Hstored Hleader Hhash)
    as (evidence & Hce & Hb2 & Hl & He & Hl1).
  exists addr, evidence.
  assert (Hderived : ∃ der, spkiDer (b_leaderPubKey b2) = Some der
                            ∧ addr = substring 0 40 (hexOfBytes (sha256 der))).
  { unfold addressOfKey in Haddr.
    destruct (spkiDer (b_leaderPubKey b2)) as [der|]; [|done].
    injection Haddr as <-. by exists der. }
  split; [done |]. split; [exact Hderived |]. split.
  { destruct Hderived as (der & _ & ->). apply length_prefix.
    rewrite length_hexOfBytes, sha256_length. lia. }
  unfold handleBlockProposal. rewrite Hce. cbn.
  split_and!; try done.
  - intros Hin. by apply slashNode_already_slashed with addr.
  - intros Hnotin. by apply slashNode_first_time.
Qed.

(** C3 (the code departs from it).  A proposal that extends the local head,
    lists no receipt and carries some hash, for an epoch in which nothing
    was proposed before, is stored and voted for although its leader is not
    the elected one, and whatever its hash, signature and transactions are:
    [handleBlockProposal] never calls [validateBlock], which rejects this
    very block. *)
Theorem proposal_by_wrong_leader_is_voted (st : NodeState Eff) (block : Block Eff)
    (h : string)
    (Hfirst : seenProposals st !! b_epoch block = None)
    (Hreceipts : b_receipts block = [])
    (Hprev : b_previousHash block = lastHash st)
    (Hhash : b_hash block = Some h)
    (Hleader : Some (b_leader block) ≠ electLeader me st (b_epoch block)) :
  validateBlock me st block = false
  ∧ (handleBlockProposal me st block).2
    = ProposalVote {| v_epoch := b_epoch block; v_blockHash := Some h;
                      v_voter := NODE_NAME me;
                      v_voterPubKey := id_publicKeyPem me;
                      v_signature := Some (sign h) |}
  ∧ proposedBlock (handleBlockProposal me st block).1 = Some block.
Proof.
  split.
  { unfold validateBlock. rewrite decide_False by (by intros []).
    by rewrite decide_True. }
  unfold handleBlockProposal.
  pose proof (checkEquivocation_frame st block) as Hframe.
  pose proof (checkEquivocation_first_sight st block Hfirst) as Hnone.
  destruct (checkEquivocation st block) as [st1 result]. cbn in Hframe, Hnone.
  subst result. unfold verifyBlockReceipts. rewrite Hreceipts. cbn [verifyReceipts].
  assert (Hlast : lastHash st1 = lastHash st) by (rewrite Hframe; reflexivity).
  rewrite Hlast, decide_False by (by intros []).
  by rewrite Hhash.
Qed.

(** C2 (the code departs from it).  On a node with three peers the quorum
    is [⌈4 · 0.67⌉ = 3] votes, yet a committed block that is new, correctly
    hashed and signed, and carries only two votes is appended:
    [handleCommittedBlock] compares the vote count with the constant 2. *)
Theorem committed_block_with_two_votes_is_appended (st : NodeState Eff)
    (block : Block Eff) (blockVotes : gmap string string)
    (Hpeers : size (peers st) = 3%nat)
    (Hnew : ∀ b, b ∈ chain st → b_hash b ≠ b_hash block)
    (Hvotes : b_votes block = Some blockVotes)
    (Hcount : size blockVotes = 2%nat)
    (Hhash : b_hash block = Some (hashBlock (blockData block)))
    (Hsig : verifyOpt (b_hash block) (b_leaderSignature block)
              (b_leaderPubKey block) = true) :
  (size blockVotes < votesNeeded (size (peers st) + 1))%nat
  ∧ handleCommittedBlock me st block = commitBlock me st block
  ∧ chain (handleCommittedBlock me st block) = chain st ++ [block]
  ∧ accounts (handleCommittedBlock me st block)
    = fold_left applyTransaction (b_transactions block)
        (fold_left applyReward (b_rewards block) (accounts st)).
Proof.
  assert (Happend : handleCommittedBlock me st block = commitBlock me st block).
  { unfold handleCommittedBlock.
    destruct (existsb _ (chain st)) eqn:Hex.
    - apply existsb_exists in Hex as (b & Hin & Hb).
      apply bool_decide_eq_true in Hb. apply list_elem_of_In in Hin.
      by destruct (Hnew b Hin).
    - rewrite Hvotes. unfold default, from_option, id. rewrite Hcount.
      rewrite decide_False by lia. rewrite decide_False by (by intros []).
      by rewrite Hsig. }
  split; [rewrite Hpeers, Hcount; vm_compute; lia |].
  split; [exact Happend |].
  rewrite Happend. split; [apply commitBlock_chain | apply commitBlock_accounts].
Qed.

Lemma handleViewChange_signature_blind (st : NodeState Eff) (vc1 vc2 : ViewChange) :
  vc_epoch vc1 = vc_epoch vc2 → vc_newView vc1 = vc_newView vc2 →
  vc_from vc1 = vc_from vc2 →
  handleViewChange st vc1 = handleViewChange st vc2.
Proof.
  intros Hepoch Hview Hfrom. unfold handleViewChange, viewChangeKey.
  by rewrite Hepoch, Hview, Hfrom.
Qed.

(** C10.  Two view-change messages with the same epoch, new view and sender
    are handled identically whatever their signatures are.  When the message
    is for the current epoch and a higher view, the sender string joins the
    tally kept under the key ["<epoch>-<newView>"], a key that no other
    pair of epoch and view has and whose tally no other pair's message
    touches; as soon as the tally holds at least [Math.ceil(N * 0.67)]
    distinct strings the node moves to the new view, and below that it
    stays: no signature is looked at. *)
Theorem view_change_needs_no_signature (st : NodeState Eff) (vc1 vc2 : ViewChange)
    (Hepoch : vc_epoch vc1 = vc_epoch vc2)
    (Hview : vc_newView vc1 = vc_newView vc2)
    (Hfrom : vc_from vc1 = vc_from vc2) :
  handleViewChange st vc1 = handleViewChange st vc2
  ∧ (vc_epoch vc1 = currentEpoch st → currentView st < vc_newView vc1 →
     let key := pretty (vc_epoch vc1) +:+ "-" +:+ pretty (vc_newView vc1) in
     let tally := {[vc_from vc1]} ∪ default ∅ (viewChangeVotes st !! key) in
     viewChangeVotes (handleViewChange st vc2) !! key = Some tally
     ∧ (∀ epoch newView,
          (epoch, newView) ≠ (vc_epoch vc1, vc_newView vc1) →
          viewChangeVotes (handleViewChange st vc2)
            !! (pretty epoch +:+ "-" +:+ pretty newView)
          = viewChangeVotes st !! (pretty epoch +:+ "-" +:+ pretty newView))
     ∧ ((votesNeeded (size (peers st) + 1) ≤ size tally)%nat →
        currentView (handleViewChange st vc2) = vc_newView vc1
        ∧ viewChanges (stats (handleViewChange st vc2))
          = viewChanges (stats st) + 1)
     ∧ ((size tally < votesNeeded (size (peers st) + 1))%nat →
        currentView (handleViewChange st vc2) = currentView st)).
Proof.
  split; [by apply handleViewChange_signature_blind |].
  intros Hcur Hhigher. cbn zeta.
  rewrite <- (handleViewChange_signature_blind st vc1 vc2) by done.
  unfold handleViewChange.
  rewrite decide_False by (by intros []). rewrite decide_False by lia.
  change (viewChangeKey vc1)
    with (pretty (vc_epoch vc1) +:+ "-" +:+ pretty (vc_newView vc1)).
  set (key := pretty (vc_epoch vc1) +:+ "-" +:+ pretty (vc_newView vc1)).
  assert (Htally :
    default ∅
      (viewChangeVotes
         match viewChangeVotes st !! key with
         | Some _ => st
         | None => set_viewChangeVotes st (<[key := ∅]> (viewChangeVotes st))
         end !! key)
    = default ∅ (viewChangeVotes st !! key)).
  { destruct (viewChangeVotes st !! key) eqn:Hk; cbn; [by rewrite Hk |].
    by rewrite lookup_insert_eq. }
  assert (Hpeers :
    peers match viewChangeVotes st !! key with
          | Some _ => st
          | None => set_viewChangeVotes st (<[key := ∅]> (viewChangeVotes st))
          end = peers st) by (by destruct (viewChangeVotes st !! key)).
  assert (Hother : ∀ other, other ≠ key →
    viewChangeVotes
      match viewChangeVotes st !! key with
      | Some _ => st
      | None => set_viewChangeVotes st (<[key := ∅]> (viewChangeVotes st))
      end !! other
    = viewChangeVotes st !! other).
  { intros other Hne. destruct (viewChangeVotes st !! key); cbn; [done |].
    by rewrite lookup_insert_ne. }
  cbn [peers set_viewChangeVotes]. rewrite Htally, Hpeers.
  split_and!.
  - case_decide; cbn; by rewrite lookup_insert_eq.
  - intros epoch newView Hpair.
    assert (Hne : pretty epoch +:+ "-" +:+ pretty newView ≠ key).
    { intros Heq. apply viewChange_key_inj in Heq as [-> ->]. by apply Hpair. }
    case_decide; cbn; rewrite lookup_insert_ne by done; by apply Hother.
  - intros Hquorum. rewrite decide_True by done. cbn.
    split; [done |]. by destruct (viewChangeVotes st !! key).
  - intros Hshort. rewrite decide_False by lia. cbn.
    by destruct (viewChangeVotes st !! key).
Qed.
End ConsensusFacts.

Module ConsensusExamples.
Import Toy Examples.

Lemma equivocation_refused_and_slashed_once_witness :
  (handleBlockProposal node1 observer blockA).2
  = ProposalVote {| v_epoch := 1; v_blockHash := b_hash blockA; v_voter := "n1";
                    v_voterPubKey := "pem-n1";
                    v_signature := Some (sign (default "" (b_hash blockA))) |}
  ∧ ∃ addr evidence,
      addressOfKey (b_leaderPubKey blockB) = Some addr
      ∧ (handleBlockProposal node1 observerHoldingA blockB).2
        = ProposalRefused "Equivocation detected" (Some evidence)
      ∧ accountOf (accounts (handleBlockProposal node1 observerHoldingA blockB).1) addr
        = Some {| balance := 300; nonce := 3 |}
      ∧ slashEvents (stats (handleBlockProposal node1 observerHoldingA blockB).1) = 1.
Proof.
  split; [vm_compute; reflexivity |].
  destruct (equivocation_refused_and_slashed_once node1 observerHoldingA
              blockA blockB (b_hash blockA) [(b_hash blockA, blockA)])
    as (addr & evidence & Haddr & _ & _ & Hresp & _ & _ & _ & _ & _ & Hslash).
  - vm_compute. reflexivity.
  - apply list_elem_of_here.
  - reflexivity.
  - vm_compute. discriminate.
  - vm_compute. reflexivity.
  - exists addr, evidence. split; [exact Haddr |]. split; [exact Hresp |].
    assert (Hval : addr = leaderAddress).
    { unfold leaderAddress. change (b_leaderPubKey blockB) with "pem-n2" in Haddr.
      by rewrite Haddr. }
    assert (Hfresh : addr ∉ slashedNodes observerHoldingA).
    { change (slashedNodes observerHoldingA) with (∅ : gset string).
      apply not_elem_of_empty. }
    destruct (Hslash Hfresh) as (_ & Hev & _ & Hacc & _).
    rewrite Hacc, Hev, Hval. split; vm_compute; reflexivity.
Defined.

Lemma proposal_by_wrong_leader_is_voted_witness :
  electLeader node1 (freshState threePeers) 1 = Some "n3"
  ∧ validateBlock node1 (freshState threePeers) forgedBlock = false
  ∧ (handleBlockProposal node1 (freshState threePeers) forgedBlock).2
    = ProposalVote {| v_epoch := 1; v_blockHash := Some "not-a-hash";
                      v_voter := "n1"; v_voterPubKey := "pem-n1";
                      v_signature := Some (sign "not-a-hash") |}
  ∧ proposedBlock (handleBlockProposal node1 (freshState threePeers) forgedBlock).1
    = Some forgedBlock.
Proof.
  split; [vm_compute; reflexivity |].
  apply (proposal_by_wrong_leader_is_voted node1 (freshState threePeers)
           forgedBlock "not-a-hash").
  - reflexivity.
  - reflexivity.
  - reflexivity.
  - reflexivity.
  - vm_compute. discriminate.
Defined.

Lemma committed_block_with_two_votes_is_appended_witness :
  votesNeeded 4 = 3%nat
  ∧ chain (handleCommittedBlock node1 (freshState threePeers) underVotedBlock)
    = [underVotedBlock].
Proof.
  split; [reflexivity |].
  refine (proj1 (proj2 (proj2
    (committed_block_with_two_votes_is_appended node1 (freshState threePeers)
       underVotedBlock (<["n1" := "sig-n1"]> (<["n2" := "sig-n2"]> ∅))
       _ _ _ _ _ _)))).
  - vm_compute. reflexivity.
  - intros b Hb. by apply elem_of_nil in Hb.
  - reflexivity.
  - vm_compute. reflexivity.
  - vm_compute. reflexivity.
  - vm_compute. reflexivity.
Defined.

Lemma view_change_needs_no_signature_witness :
  handleViewChange (freshState ∅) unsignedViewChange
  = handleViewChange (freshState ∅) bogusViewChange
  ∧ currentView (handleViewChange (freshState ∅) bogusViewChange) = 1.
Proof.
  destruct (view_change_needs_no_signature (freshState ∅)
              unsignedViewChange bogusViewChange eq_refl eq_refl eq_refl)
    as [Hsame Hquorum].
  split; [exact Hsame |].
  destruct Hquorum as (_ & _ & Hmove & _); [reflexivity | reflexivity |].
  apply Hmove. vm_compute. lia.
Defined.
End ConsensusExamples.

(* ================================================================== *)
(** ** Properties: the effectiveness engine *)
(* ================================================================== *)

Module EffectivenessFacts.
Import Stdlib.Reals.Reals Stdlib.micromega.Lra.
Import Effectiveness.

Lemma clamp_unit (x : R) : (0 <= x <= 1)%R → clamp x = x.
Proof.
  intros Hx. unfold clamp, Rmax, Rmin.
  repeat destruct (Rle_dec _ _); lra.
Qed.

Lemma clamp_bounds (x : R) : (0 <= clamp x <= 1)%R.
Proof.
  unfold clamp, Rmax, Rmin. repeat destruct (Rle_dec _ _); lra.
Qed.

Lemma exp_negative (x : R) : (x < 0)%R → (0 < exp x < 1)%R.
Proof.
  intros Hx. split; [apply exp_pos |].
  rewrite <- exp_0. by apply exp_increasing.
Qed.

(** Whatever the state and the receipts, every value the engine stores lies
    in the unit interval. *)
Lemma updates_in_unit_interval (me : Identity) (st : NodeState R)
    (receipts : list Receipt) (addr : string) (v : R) :
  calculateEffectivenessUpdates me st receipts !! addr = Some v →
  (0 <= v <= 1)%R.
Proof.
  unfold calculateEffectivenessUpdates.
  assert (Hinv : ∀ nodes (updates : gmap string R),
            (∀ a w, updates !! a = Some w → (0 <= w <= 1)%R) →
            ∀ a w, fold_left (updateNode me st receipts) nodes updates !! a = Some w →
                   (0 <= w <= 1)%R).
  { induction nodes as [|n rest IH]; intros updates Hupd; [exact Hupd |].
    cbn [fold_left]. apply IH. intros a w. unfold updateNode.
    destruct (nodeAddresses me st !! n) as [ad|]; [|apply Hupd].
    case_decide; [apply Hupd |].
    destruct (decide (ad = a)) as [->|Hne].
    - rewrite lookup_insert_eq. intros [= <-]. apply clamp_bounds.
    - rewrite lookup_insert_ne by done. apply Hupd. }
  apply Hinv. intros a w. by rewrite lookup_empty.
Qed.

(** C8 (the code departs from it).  For a node that answered a challenge
    in the epoch, starting from effectiveness 0, the engine stores
    [1 - exp(-(1/144)/40)]: the elapsed time is the constant [1/144] of a
    day.  The specified value, with [Δd = 10/86400] of a day for 10-second
    epochs, is [1 - exp(-(10/86400)/40)], a different number.  The same
    constant [1/144] is used in the decay branch. *)
Theorem effectiveness_step_assumes_144_epochs_per_day :
  calculateEffectivenessUpdates Toy.node1 soloState [ownReceipt] !! "addr-n1"
  = Some (1 - exp (- (1 / 144) / 40))%R
  ∧ specUpdate true 0 = (1 - exp (- (10 / 86400) / 40))%R
  ∧ (1 - exp (- (1 / 144) / 40))%R ≠ specUpdate true 0
  ∧ (∀ e, rampDecay false e = e * exp (- (1 / 144) / 7))%R.
Proof.
  assert (Hcode : (0 < exp (- (1 / 144) / 40) < 1)%R) by (apply exp_negative; lra).
  assert (Hspec : (0 < exp (- (10 / 86400) / 40) < 1)%R) by (apply exp_negative; lra).
  assert (Hspec_val : specUpdate true 0 = (1 - exp (- (10 / 86400) / 40))%R).
  { unfold specUpdate, deltaDays, epochDurationSeconds.
    fold (clamp (1 - (1 - 0) * exp (- (10 / 86400) / 40))%R).
    rewrite clamp_unit; lra. }
  split_and!.
  - unfold calculateEffectivenessUpdates, allNodeIds, soloState. cbn [peers].
    rewrite map_to_list_empty. cbn [fmap list_fmap fold_left].
    unfold updateNode, nodeAddresses. cbn [peers].
    rewrite map_to_list_empty. cbn [fold_left Toy.node1 NODE_NAME id_publicKeyHash].
    rewrite lookup_insert_eq. rewrite decide_False by discriminate.
    rewrite lookup_insert_eq. f_equal.
    unfold currentEffectiveness. cbn [peers NODE_NAME effectiveness].
    rewrite lookup_empty. rewrite decide_True by reflexivity.
    assert (Honline : wasOnline [ownReceipt] "n1" = true) by reflexivity.
    rewrite Honline. unfold rampDecay, days, rampConstant.
    rewrite clamp_unit; lra.
  - exact Hspec_val.
  - rewrite Hspec_val. intros Heq.
    assert (Hlt : (exp (- (1 / 144) / 40) < exp (- (10 / 86400) / 40))%R)
      by (apply exp_increasing; lra).
    lra.
  - intros e. reflexivity.
Qed.
End EffectivenessFacts.

(* ================================================================== *)
(** ** Properties: Merkle proofs for light wallets *)
(* ================================================================== *)

Section MerkleProofFacts.
Context `{Crypto} {Eff : Type} `{Json Eff}.

Lemma half_succ_succ (i : nat) : (S (S i) / 2 = S (i / 2))%nat.
Proof.
  replace (S (S i)) with (i + 1 * 2)%nat by lia.
  rewrite Nat.div_add by lia. lia.
Qed.

Lemma siblingAt_shift (a b : string) (rest : list string) (i : nat) :
  is_Some (rest !! i) →
  siblingAt (a :: b :: rest) (S (S i)) = siblingAt rest i.
Proof.
  intros Hi. unfold siblingAt. change (Nat.even (S (S i))) with (Nat.even i).
  destruct (Nat.even i) eqn:Heven; [reflexivity |].
  destruct i as [|j]; [discriminate Heven |].
  cbn. by rewrite Nat.sub_0_r.
Qed.

(** The parent of a leaf sits at half its index, and is what one step of
    [verifyMerkleProof] computes from the leaf and its recorded sibling. *)
Lemma nextLevel_parent (level : list string) (idx : nat) (leaf : string) :
  Forall (λ d, d ≠ "") level → level !! idx = Some leaf →
  nextLevel level !! (idx / 2)%nat
  = Some (if Nat.odd idx then hash (strOf (siblingAt level idx) +:+ leaf)
          else hash (leaf +:+ strOf (siblingAt level idx))).
Proof.
  revert idx. induction level as [level IH] using (induction_ltof1 _ (@length string)).
  intros idx Hne Hleaf. destruct level as [|a [|b rest]]; [done | |].
  - destruct idx as [|idx]; [|done]. by injection Hleaf as ->.
  - inversion Hne as [|? ? Ha Hne']; subst. inversion Hne' as [|? ? Hb Hrest]; subst.
    destruct idx as [|[|i]].
    + injection Hleaf as ->. cbn [nextLevel]. rewrite decide_False by done.
      change (0 / 2)%nat with 0%nat. cbn [lookup list_lookup Nat.odd].
      unfold siblingAt. cbn [Nat.even lookup list_lookup truthy].
      by rewrite bool_decide_eq_true_2.
    + injection Hleaf as ->. cbn [nextLevel]. rewrite decide_False by done.
      reflexivity.
    + cbn in Hleaf. rewrite half_succ_succ. cbn [nextLevel].
      rewrite siblingAt_shift by eauto.
      change (Nat.odd (S (S i))) with (Nat.odd i).
      change ((?x :: ?l) !! S ?n) with (l !! n).
      apply IH; [unfold ltof; simpl; lia | done | done].
Qed.

Lemma merkleProof_folds_to_root (level : list string) (idx : nat) (leaf : string) :
  Forall (λ d, d ≠ "") level → level !! idx = Some leaf →
  fold_left
    (λ current step,
       if ps_isLeft step then hash (strOf (ps_hash step) +:+ current)
       else hash (current +:+ strOf (ps_hash step)))
    (merkleProofFrom level idx) leaf
  = calculateMerkleRoot level.
Proof.
  revert idx leaf.
  induction level as [level IH] using (induction_ltof1 _ (@length string)).
  intros idx leaf Hne Hleaf. destruct level as [|a [|b rest]]; [done | |].
  - destruct idx; [|done]. injection Hleaf as ->.
    by simp merkleProofFrom calculateMerkleRoot.
  - simp merkleProofFrom calculateMerkleRoot. cbn [fold_left ps_isLeft ps_hash].
    pose proof (nextLevel_parent _ _ _ Hne Hleaf) as Hparent.
    apply IH; [| apply nextLevel_nonempty | exact Hparent].
    unfold ltof.
    assert (Hle : ∀ l : list string, (length (nextLevel l) ≤ length l)%nat).
    { clear. intros l.
      induction l as [l IHl] using (induction_ltof1 _ (@length string)).
      destruct l as [|x [|y l']]; simpl; [lia | lia |].
      assert (length (nextLevel l') ≤ length l')%nat
        by (apply IHl; unfold ltof; simpl; lia).
      lia. }
    specialize (Hle rest). simpl. lia.
Qed.

Lemma indexOf_Some (x : string) (l : list string) (i : nat) :
  indexOf x l = Some i → l !! i = Some x.
Proof.
  revert i. induction l as [|y rest IH]; intros i; [done |]. cbn.
  case_decide as Hy; [by intros [= <-]; subst |].
  destruct (indexOf x rest) as [j|]; [|done]. intros [= <-]. by apply IH.
Qed.

Lemma indexOf_None (x : string) (l : list string) :
  indexOf x l = None ↔ x ∉ l.
Proof.
  induction l as [|y rest IH]; cbn.
  - split; [intros _; apply not_elem_of_nil | done].
  - case_decide as Hy.
    + subst. split; [done | intros Hn; destruct Hn; apply list_elem_of_here].
    + rewrite not_elem_of_cons. destruct (indexOf x rest) as [j|]; cbn.
      * split; [done |]. intros [_ Hn]. by apply IH in Hn.
      * split; [|done]. intros _. split; [done | by apply IH].
Qed.

Lemma hashes_nonempty (txs : list Transaction) :
  Forall (λ d, d ≠ "") (hashTx <$> txs).
Proof. apply Forall_fmap, Forall_forall. intros tx _. apply hash_nonempty. Qed.

Lemma getMerkleProof_sound (block : Block Eff) (txHash : string)
    (proof : list ProofStep) :
  getMerkleProof block txHash = Some proof →
  verifyMerkleProof txHash proof
    (calculateMerkleRoot (hashTx <$> b_transactions block)) = true.
Proof.
  unfold getMerkleProof, verifyMerkleProof.
  destruct (indexOf txHash _) as [i|] eqn:Hi; [|done]. intros [= <-].
  apply bool_decide_eq_true. apply merkleProof_folds_to_root.
  - apply hashes_nonempty.
  - by apply indexOf_Some.
Qed.

Lemma getMerkleProof_None (block : Block Eff) (txHash : string) :
  getMerkleProof block txHash = None ↔ txHash ∉ hashTx <$> b_transactions block.
Proof.
  rewrite <- indexOf_None. unfold getMerkleProof. by destruct (indexOf txHash _).
Qed.

(** X1.  Every proof [getMerkleProof] returns for a block verifies against the
    Merkle root of the block's transaction hashes, every transaction of the
    block has such a proof, and [null] is returned exactly for a hash that
    no transaction of the block has. *)
Theorem getMerkleProof_verifies (block : Block Eff) :
  let root := calculateMerkleRoot (hashTx <$> b_transactions block) in
  (∀ txHash proof,
     getMerkleProof block txHash = Some proof →
     verifyMerkleProof txHash proof root = true)
  ∧ (∀ tx, tx ∈ b_transactions block →
       ∃ proof, getMerkleProof block (hashTx tx) = Some proof
                ∧ verifyMerkleProof (hashTx tx) proof root = true)
  ∧ (∀ txHash, getMerkleProof block txHash = None
               ↔ txHash ∉ hashTx <$> b_transactions block).
Proof.
  cbn zeta. split_and!;
    [apply getMerkleProof_sound | | apply getMerkleProof_None].
  intros tx Htx.
  destruct (getMerkleProof block (hashTx tx)) as [proof|] eqn:Hproof.
  - exists proof. split; [done | by apply getMerkleProof_sound].
  - apply getMerkleProof_None in Hproof. destruct Hproof.
    by apply list_elem_of_fmap_2.
Qed.

Lemma nextLevel_length (level : list string) :
  length (nextLevel level) = ((length level + 1) / 2)%nat.
Proof.
  induction level as [level IH] using (induction_ltof1 _ (@length string)).
  destruct level as [|a [|b rest]]; [done | done |].
  cbn [nextLevel length]. rewrite IH by (unfold ltof; simpl; lia).
  replace (S (S (length rest)) + 1)%nat with (length rest + 1 + 1 * 2)%nat by lia.
  rewrite Nat.div_add by lia. lia.
Qed.

(** X2.  A proof has one entry per level: for [n ≥ 1] leaves its length is the
    least [k] with [n ≤ 2^k]. *)
Theorem merkleProof_length_logarithmic (level : list string) (idx : nat)
    (Hleaves : (0 < length level)%nat) :
  let k := length (merkleProofFrom level idx) in
  (length level ≤ 2 ^ k)%nat ∧ (2 ^ k < 2 * length level)%nat.
Proof.
  cbn zeta. revert idx Hleaves.
  induction level as [level IH] using (induction_ltof1 _ (@length string)).
  intros idx Hleaves. destruct level as [|a [|b rest]]; [simpl in Hleaves; lia | |].
  - simp merkleProofFrom. simpl. lia.
  - simp merkleProofFrom. cbn [length].
    pose proof (nextLevel_length (a :: b :: rest)) as Hlen.
    cbn [length] in Hlen.
    assert (Hhalf : (S (S (length rest)) + 1 = length rest + 1 + 1 * 2)%nat) by lia.
    rewrite Hhalf, Nat.div_add in Hlen by lia.
    pose proof (Nat.div_mod_eq (length rest + 1) 2) as Hdm.
    pose proof (Nat.mod_upper_bound (length rest + 1) 2 ltac:(lia)) as Hmod.
    set (q := ((length rest + 1) / 2)%nat) in *.
    set (r := ((length rest + 1) mod 2)%nat) in *.
    assert (Hshorter : ltof _ (@length string) (nextLevel (a :: b :: rest))
                         (a :: b :: rest))
      by (unfold ltof; rewrite Hlen; simpl; lia).
    assert (Hpos : (0 < length (nextLevel (a :: b :: rest)))%nat)
      by (rewrite Hlen; lia).
    destruct (IH _ Hshorter (idx / 2)%nat Hpos) as [Hlo Hhi].
    rewrite Hlen in Hlo, Hhi. rewrite Nat.pow_succ_r'.
    destruct (length (merkleProofFrom _ _)) as [|k'].
    + rewrite Nat.pow_0_r in *. lia.
    + rewrite Nat.pow_succ_r' in *. lia.
Qed.

(** X3.  The answer of [/proof/<txHash>] on a chain whose blocks carry the
    Merkle root of their transactions: it holds a proof (never [null]),
    and the proof verifies the requested hash against the [txRoot] sent
    with it; epoch and hash are those of a block of the chain holding a
    transaction with that hash. *)
Theorem proofFor_verifies (blocks : list (Block Eff)) (txHash : string)
    (response : ProofResponse)
    (Hroots : Forall (λ b, b_txRoot b
                           = calculateMerkleRoot (hashTx <$> b_transactions b)) blocks)
    (Hfound : proofFor blocks txHash = Some response) :
  (∃ proof, pr_proof response = Some proof
            ∧ verifyMerkleProof txHash proof (pr_txRoot response) = true)
  ∧ ∃ block, block ∈ blocks ∧ pr_blockHash response = b_hash block
             ∧ pr_blockEpoch response = b_epoch block
             ∧ txHash ∈ hashTx <$> b_transactions block.
Proof.
  induction blocks as [|b rest IH]; [done |].
  inversion Hroots as [|? ? Hb Hrest]; subst. cbn [proofFor] in Hfound.
  destruct (existsb _ (b_transactions b)) eqn:Hex.
  - injection Hfound as <-. cbn.
    apply existsb_exists in Hex as (tx & Htx & Heq).
    apply bool_decide_eq_true in Heq. apply list_elem_of_In in Htx.
    assert (Hmem : txHash ∈ hashTx <$> b_transactions b)
      by (subst txHash; by apply list_elem_of_fmap_2).
    destruct (getMerkleProof b txHash) as [proof|] eqn:Hproof.
    + split.
      * exists proof. split; [done |]. rewrite Hb. by apply getMerkleProof_sound.
      * exists b. split_and!; try done. apply list_elem_of_here.
    + apply getMerkleProof_None in Hproof. by destruct Hproof.
  - destruct (IH Hrest Hfound) as (Hv & blk & Hin & Hrestb).
    split; [done |]. exists blk. split; [by apply list_elem_of_further | done].
Qed.
End MerkleProofFacts.

(* ================================================================== *)
(** ** Properties: the object heap against account maps *)
(* ================================================================== *)

Section LedgerViewFacts.

Lemma accountsView_lookup (s : AccountStore) (addr : string) :
  accountsView s !! addr = accountOf s addr.
Proof. unfold accountsView, accountOf. by rewrite lookup_omap. Qed.

(** The store [applyTransaction] returns, with the two references and the
    heap written out. *)
Lemma applyTransaction_store (s : AccountStore) (tx : Transaction) :
  let objs1 :=
    match entries s !! tx_from tx with
    | Some _ => objects s
    | None => objects s ++ [newAccount]
    end in
  let fromRef := default (length (objects s)) (entries s !! tx_from tx) in
  let objs2 :=
    match entries s !! tx_to tx with
    | Some _ => objs1
    | None => objs1 ++ [newAccount]
    end in
  let toRef := default (length objs1) (entries s !! tx_to tx) in
  applyTransaction s tx
  = {| objects := alter (addBalance (tx_amount tx)) toRef
                    (alter (setNonce (tx_nonce tx)) fromRef
                       (alter (subBalance (tx_amount tx)) fromRef objs2));
       entries := <[tx_to tx := toRef]> (<[tx_from tx := fromRef]> (entries s)) |}.
Proof.
  cbn zeta. unfold applyTransaction, getOrNew, accountsGet.
  destruct (entries s !! tx_from tx) as [rf|] eqn:Hf; cbn;
    destruct (entries s !! tx_to tx) as [rt|] eqn:Ht; cbn; reflexivity.
Qed.

Lemma refs_insert_bound (m : gmap string nat) (k : string) (r n : nat) :
  (∀ a r', m !! a = Some r' → (r' < n)%nat) → (r < n)%nat →
  ∀ a r', <[k := r]> m !! a = Some r' → (r' < n)%nat.
Proof.
  intros Hm Hr a r'. destruct (decide (a = k)) as [->|Hne].
  - rewrite lookup_insert_eq. by intros [= <-].
  - rewrite lookup_insert_ne by done. apply Hm.
Qed.

Lemma refs_insert_fresh (m : gmap string nat) (k : string) (r : nat) :
  (∀ a r', m !! a = Some r' → r' ≠ r) →
  (∀ a1 a2 r', m !! a1 = Some r' → m !! a2 = Some r' → a1 = a2) →
  ∀ a1 a2 r', <[k := r]> m !! a1 = Some r' → <[k := r]> m !! a2 = Some r' → a1 = a2.
Proof.
  intros Hfresh Hinj a1 a2 r'.
  destruct (decide (a1 = k)) as [->|H1]; destruct (decide (a2 = k)) as [->|H2];
    rewrite ?lookup_insert_eq, ?lookup_insert_ne by done; try done.
  - intros [= <-] Ha. by destruct (Hfresh _ _ Ha).
  - intros Ha [= <-]. by destruct (Hfresh _ _ Ha).
  - apply Hinj.
Qed.

(** [applyTransaction] keeps the heap well formed. *)
Lemma storeOk_applyTransaction (s : AccountStore) (tx : Transaction) :
  storeOk s → storeOk (applyTransaction s tx).
Proof.
  intros [Hbound Hinj]. rewrite applyTransaction_store. cbn zeta.
  split; cbn [entries objects].
  - rewrite !length_alter.
    destruct (entries s !! tx_from tx) as [rf|] eqn:Hf;
      destruct (entries s !! tx_to tx) as [rt|] eqn:Ht;
      cbn [default from_option id];
      try (pose proof (Hbound _ _ Hf)); try (pose proof (Hbound _ _ Ht));
      rewrite ?length_app; cbn [length];
      (apply refs_insert_bound; [apply refs_insert_bound |]; try lia);
      intros a r Ha; pose proof (Hbound _ _ Ha); lia.
  - destruct (entries s !! tx_from tx) as [rf|] eqn:Hf;
      destruct (entries s !! tx_to tx) as [rt|] eqn:Ht;
      cbn [default from_option id].
    + by rewrite (insert_id _ _ _ Hf), (insert_id _ _ _ Ht).
    + rewrite (insert_id _ _ _ Hf). apply refs_insert_fresh; [|done].
      intros a r Ha. pose proof (Hbound _ _ Ha). lia.
    + rewrite (insert_id (<[tx_from tx := _]> _) (tx_to tx) rt)
        by (rewrite lookup_insert_ne by congruence; done).
      apply refs_insert_fresh; [|done].
      intros a r Ha. pose proof (Hbound _ _ Ha). lia.
    + rewrite length_app. cbn [length].
      apply refs_insert_fresh; [|apply refs_insert_fresh; [|done]].
      * intros a r Ha.
        assert (r < length (objects s) + 1)%nat; [|lia].
        revert a r Ha. apply refs_insert_bound; [|lia].
        intros a r Ha. pose proof (Hbound _ _ Ha). lia.
      * intros a r Ha. pose proof (Hbound _ _ Ha). lia.
Qed.

(** [applyTransaction] on the heap is [transferView] on the account map. *)
Lemma applyTransaction_view (s : AccountStore) (tx : Transaction) :
  storeOk s →
  accountsView (applyTransaction s tx) = transferView (accountsView s) tx.
Proof.
  intros [Hbound Hinj]. rewrite applyTransaction_store. cbn zeta.
  unfold transferView, creditView. rewrite !accountsView_lookup. unfold accountOf.
  destruct (entries s !! tx_from tx) as [rf|] eqn:Hf;
    destruct (entries s !! tx_to tx) as [rt|] eqn:Ht;
    try (pose proof (Hbound _ _ Hf) as Hrf);
    try (pose proof (Hbound _ _ Ht) as Hrt);
    try (destruct (lookup_lt_is_Some_2 _ _ Hrf) as [objf Hobjf]);
    try (destruct (lookup_lt_is_Some_2 _ _ Hrt) as [objt Hobjt]);
    cbn [default from_option id mbind option_bind].
  - (* both accounts exist *)
    rewrite Hobjf. cbn [mbind option_bind].
    rewrite decide_False by (intros [_ ?]; done).
    apply map_eq. intros a. rewrite accountsView_lookup. unfold accountOf.
    cbn [entries objects].
    destruct (decide (a = tx_to tx)) as [->|Hato].
    * rewrite !lookup_insert_eq. cbn [mbind option_bind].
      rewrite list_lookup_alter_eq.
      destruct (decide (tx_from tx = tx_to tx)) as [Heq|Hne].
      -- rewrite Heq in Hf. assert (rf = rt) by congruence. subst rt.
         rewrite Heq, lookup_insert_eq, !list_lookup_alter_eq, Hobjf. done.
      -- assert (rf ≠ rt) by (intros ->; apply Hne; by eapply Hinj).
         rewrite lookup_insert_ne by done. rewrite accountsView_lookup.
         unfold accountOf. rewrite Ht. cbn [mbind option_bind].
         rewrite !list_lookup_alter_ne by done. by rewrite Hobjt.
    * rewrite (lookup_insert_ne _ (tx_to tx)) by done.
      rewrite (lookup_insert_ne _ (tx_to tx)) by done.
      destruct (decide (a = tx_from tx)) as [->|Hafrom].
      -- rewrite !lookup_insert_eq. cbn [mbind option_bind].
         assert (rf ≠ rt) by (intros ->; apply Hato; by eapply Hinj).
         rewrite list_lookup_alter_ne by done.
         by rewrite !list_lookup_alter_eq, Hobjf.
      -- rewrite !lookup_insert_ne by done. rewrite accountsView_lookup.
         unfold accountOf. destruct (entries s !! a) as [r|] eqn:Ha; [|done].
         cbn [mbind option_bind].
         assert (r ≠ rf) by (intros ->; apply Hafrom; by eapply Hinj).
         assert (r ≠ rt) by (intros ->; apply Hato; by eapply Hinj).
         by rewrite !list_lookup_alter_ne by done.
  - (* the recipient is new *)
    rewrite Hobjf. cbn [mbind option_bind].
    assert (Hne : tx_from tx ≠ tx_to tx) by congruence.
    rewrite decide_False by (intros [? _]; done).
    apply map_eq. intros a. rewrite accountsView_lookup. unfold accountOf.
    cbn [entries objects].
    destruct (decide (a = tx_to tx)) as [->|Hato].
    * rewrite !lookup_insert_eq. cbn [mbind option_bind].
      rewrite list_lookup_alter_eq.
      rewrite !list_lookup_alter_ne by lia.
      rewrite lookup_app_r, Nat.sub_diag by lia. cbn.
      rewrite lookup_insert_ne by done. rewrite accountsView_lookup.
      unfold accountOf. by rewrite Ht.
    * rewrite (lookup_insert_ne _ (tx_to tx)) by done.
      rewrite (lookup_insert_ne _ (tx_to tx)) by done.
      destruct (decide (a = tx_from tx)) as [->|Hafrom].
      -- rewrite !lookup_insert_eq. cbn [mbind option_bind].
         rewrite list_lookup_alter_ne by lia.
         rewrite !list_lookup_alter_eq.
         by rewrite lookup_app_l, Hobjf by lia.
      -- rewrite !lookup_insert_ne by done. rewrite accountsView_lookup.
         unfold accountOf. destruct (entries s !! a) as [r|] eqn:Ha; [|done].
         cbn [mbind option_bind]. pose proof (Hbound _ _ Ha).
         assert (r ≠ rf) by (intros ->; apply Hafrom; by eapply Hinj).
         rewrite !list_lookup_alter_ne by first [lia | done].
         by rewrite lookup_app_l by lia.
  - (* the sender is new *)
    assert (Hne : tx_from tx ≠ tx_to tx) by congruence.
    rewrite decide_False by (intros [? _]; done).
    apply map_eq. intros a. rewrite accountsView_lookup. unfold accountOf.
    cbn [entries objects].
    destruct (decide (a = tx_to tx)) as [->|Hato].
    * rewrite !lookup_insert_eq. cbn [mbind option_bind].
      rewrite list_lookup_alter_eq.
      rewrite !list_lookup_alter_ne by lia.
      rewrite lookup_app_l, Hobjt by lia. cbn.
      rewrite lookup_insert_ne by done. rewrite accountsView_lookup.
      unfold accountOf. rewrite Ht. cbn. by rewrite Hobjt.
    * rewrite (lookup_insert_ne _ (tx_to tx)) by done.
      rewrite (lookup_insert_ne _ (tx_to tx)) by done.
      destruct (decide (a = tx_from tx)) as [->|Hafrom].
      -- rewrite !lookup_insert_eq. cbn [mbind option_bind].
         rewrite list_lookup_alter_ne by lia.
         rewrite !list_lookup_alter_eq.
         by rewrite lookup_app_r, Nat.sub_diag by lia.
      -- rewrite !lookup_insert_ne by done. rewrite accountsView_lookup.
         unfold accountOf. destruct (entries s !! a) as [r|] eqn:Ha; [|done].
         cbn [mbind option_bind]. pose proof (Hbound _ _ Ha).
         assert (r ≠ rt) by (intros ->; apply Hato; by eapply Hinj).
         rewrite !list_lookup_alter_ne by first [lia | done].
         by rewrite lookup_app_l by lia.
  - (* both are new *)
    destruct (decide (tx_from tx = tx_to tx)) as [Heq|Hne].
    + rewrite decide_True by done. rewrite <- Heq.
      apply map_eq. intros a. rewrite accountsView_lookup. unfold accountOf.
      cbn [entries objects]. rewrite insert_insert_eq.
      destruct (decide (a = tx_from tx)) as [->|Hafrom].
      -- rewrite !lookup_insert_eq. cbn [mbind option_bind].
         rewrite length_app. cbn [length].
         rewrite list_lookup_alter_eq.
         rewrite !list_lookup_alter_ne by lia.
         by rewrite list_lookup_middle by (rewrite length_app; cbn; lia).
      -- rewrite !lookup_insert_ne by done. rewrite accountsView_lookup.
         unfold accountOf. destruct (entries s !! a) as [r|] eqn:Ha; [|done].
         cbn [mbind option_bind]. pose proof (Hbound _ _ Ha).
         rewrite length_app. cbn [length].
         rewrite !list_lookup_alter_ne by lia.
         by rewrite !lookup_app_l by (rewrite ?length_app; cbn; lia).
    + rewrite decide_False by (intros [? _]; done).
      apply map_eq. intros a. rewrite accountsView_lookup. unfold accountOf.
      cbn [entries objects]. rewrite length_app. cbn [length].
      destruct (decide (a = tx_to tx)) as [->|Hato].
      -- rewrite !lookup_insert_eq. cbn [mbind option_bind].
         rewrite list_lookup_alter_eq.
         rewrite !list_lookup_alter_ne by lia.
         rewrite list_lookup_middle by (rewrite length_app; cbn; lia).
         cbn. rewrite lookup_insert_ne by done. rewrite accountsView_lookup.
         unfold accountOf. by rewrite Ht.
      -- rewrite (lookup_insert_ne _ (tx_to tx)) by done.
         rewrite (lookup_insert_ne _ (tx_to tx)) by done.
         destruct (decide (a = tx_from tx)) as [->|Hafrom].
         ++ rewrite !lookup_insert_eq. cbn [mbind option_bind].
            rewrite list_lookup_alter_ne by lia.
            rewrite !list_lookup_alter_eq.
            rewrite lookup_app_l by (rewrite length_app; cbn; lia).
            by rewrite lookup_app_r, Nat.sub_diag by lia.
         ++ rewrite !lookup_insert_ne by done. rewrite accountsView_lookup.
            unfold accountOf. destruct (entries s !! a) as [r|] eqn:Ha; [|done].
            cbn [mbind option_bind]. pose proof (Hbound _ _ Ha).
            rewrite !list_lookup_alter_ne by lia.
            by rewrite !lookup_app_l by (rewrite ?length_app; cbn; lia).
Qed.

Lemma storeOk_empty (s : AccountStore) : storeOk (accountsClear s).
Proof. split; intros ? ?; cbn; by rewrite ?lookup_empty. Qed.

Lemma accountsView_clear (s : AccountStore) : accountsView (accountsClear s) = ∅.
Proof. unfold accountsView. cbn. apply omap_empty. Qed.

Ltac store_simpl :=
  cbn [entries objects mutate accountsSet allocAccount mbind option_bind
       default from_option id fst snd fmap option_fmap option_map].

Lemma applyReward_view (s : AccountStore) (entry : string * Z) :
  storeOk s →
  accountsView (applyReward s entry) = creditView (accountsView s) entry.1 entry.2
  ∧ storeOk (applyReward s entry).
Proof.
  intros [Hbound Hinj]. destruct entry as [addr reward]. cbn [fst snd].
  unfold applyReward, accountsGet, creditView. rewrite accountsView_lookup.
  unfold accountOf.
  destruct (entries s !! addr) as [r|] eqn:Ha; store_simpl.
  - rewrite Ha. pose proof (Hbound _ _ Ha) as Hr.
    destruct (lookup_lt_is_Some_2 _ _ Hr) as [obj Hobj]. rewrite Hobj. store_simpl.
    split; [|split; store_simpl; [intros a r'; rewrite length_alter; apply Hbound | done]].
    apply map_eq. intros a. rewrite accountsView_lookup. unfold accountOf. store_simpl.
    destruct (decide (a = addr)) as [->|Hne].
    + rewrite lookup_insert_eq, Ha. store_simpl. by rewrite list_lookup_alter_eq, Hobj.
    + rewrite lookup_insert_ne by done. rewrite accountsView_lookup. unfold accountOf.
      destruct (entries s !! a) as [r'|] eqn:Ha'; [|done]. store_simpl.
      apply list_lookup_alter_ne. intros ->. apply Hne. by eapply Hinj.
  - rewrite lookup_insert_eq. store_simpl. split.
    + apply map_eq. intros a. rewrite accountsView_lookup. unfold accountOf. store_simpl.
      destruct (decide (a = addr)) as [->|Hne].
      * rewrite !lookup_insert_eq. store_simpl. rewrite list_lookup_alter_eq.
        by rewrite list_lookup_middle.
      * rewrite !lookup_insert_ne by done. rewrite accountsView_lookup.
        unfold accountOf. destruct (entries s !! a) as [r'|] eqn:Ha'; [|done].
        store_simpl.
        pose proof (Hbound _ _ Ha'). rewrite list_lookup_alter_ne by lia.
        by rewrite lookup_app_l.
    + split; store_simpl.
      * rewrite length_alter, length_app. cbn [length].
        apply refs_insert_bound; [|lia].
        intros a r Ha'. pose proof (Hbound _ _ Ha'). lia.
      * apply refs_insert_fresh; [|done].
        intros a r Ha'. pose proof (Hbound _ _ Ha'). lia.
Qed.

Lemma storeOk_replay_coinbase (s : AccountStore) (tx : Transaction) :
  storeOk s → tx_from tx = "coinbase" → storeOk (replayTransaction s tx).
Proof.
  intros [Hbound Hinj] Hcb. unfold replayTransaction. rewrite decide_True by done.
  unfold getOrNew, accountsGet.
  destruct (entries s !! tx_to tx) as [r|] eqn:Ht; store_simpl.
  - split; store_simpl.
    + intros a r'. rewrite length_alter, (insert_id _ _ _ Ht). apply Hbound.
    + by rewrite (insert_id _ _ _ Ht).
  - split; store_simpl.
    + rewrite length_alter, length_app. cbn [length].
      apply refs_insert_bound; [|lia].
      intros a r Ha'. pose proof (Hbound _ _ Ha'). lia.
    + apply refs_insert_fresh; [|done].
      intros a r Ha'. pose proof (Hbound _ _ Ha'). lia.
Qed.

Lemma replayTransaction_view (s : AccountStore) (tx : Transaction) :
  storeOk s →
  accountsView (replayTransaction s tx) = replayTransactionView (accountsView s) tx
  ∧ storeOk (replayTransaction s tx).
Proof.
  intros Hok. unfold replayTransactionView.
  destruct (decide (tx_from tx = "coinbase")) as [Hcb|Hcb].
  - split; [|by apply storeOk_replay_coinbase].
    rewrite replayTransaction_coinbase_credits_only by done.
    unfold creditView, accountOrZero. by rewrite accountsView_lookup.
  - rewrite replayTransaction_transfer by done.
    split; [by apply applyTransaction_view | by apply storeOk_applyTransaction].
Qed.

Lemma fold_view {X} (op : AccountStore → X → AccountStore)
    (opView : gmap string Account → X → gmap string Account) :
  (∀ s x, storeOk s → accountsView (op s x) = opView (accountsView s) x
                      ∧ storeOk (op s x)) →
  ∀ xs s, storeOk s →
    accountsView (fold_left op xs s) = fold_left opView xs (accountsView s)
    ∧ storeOk (fold_left op xs s).
Proof.
  intros Hstep xs. induction xs as [|x rest IH]; intros s Hok; [done |].
  cbn [fold_left]. destruct (Hstep s x Hok) as [Hv Hok']. rewrite <- Hv. by apply IH.
Qed.

Lemma replayBlock_view {Eff} (s : AccountStore) (block : Block Eff) :
  storeOk s →
  accountsView (replayBlock s block) = replayBlockView (accountsView s) block
  ∧ storeOk (replayBlock s block).
Proof.
  intros Hok. unfold replayBlock, replayBlockView.
  destruct (fold_view applyReward (λ v entry, creditView v entry.1 entry.2)
              applyReward_view (b_rewards block) s Hok) as [Hv1 Hok1].
  rewrite <- Hv1. by apply (fold_view replayTransaction replayTransactionView
                              replayTransaction_view).
Qed.
End LedgerViewFacts.

Section LedgerTheorems.
Context `{Crypto} {Eff : Type} `{Json Eff}.
Variable me : Identity.

(** X4.  How [applyTransaction] acts on the account map.  Between two different
    addresses the sender is debited and takes the nonce of the transaction,
    the recipient is credited, missing accounts are created and no other
    account changes.  In a transfer of an address to itself the one account
    object is debited and then credited, [(balance - amount) + amount],
    and takes the nonce; when there is no account, the object stored last
    is the credited one, with balance [0 + amount] and nonce 0. *)
Theorem applyTransaction_on_account_map (s : AccountStore) (tx : Transaction)
    (Hok : storeOk s) :
  let v := accountsView s in
  let v' := accountsView (applyTransaction s tx) in
  let sender := default newAccount (v !! tx_from tx) in
  let recipient := default newAccount (v !! tx_to tx) in
  storeOk (applyTransaction s tx)
  ∧ (tx_from tx ≠ tx_to tx →
     v' !! tx_from tx
     = Some {| balance := balance sender - tx_amount tx; nonce := tx_nonce tx |}
     ∧ v' !! tx_to tx
       = Some {| balance := balance recipient + tx_amount tx;
                 nonce := nonce recipient |}
     ∧ ∀ a, a ≠ tx_from tx → a ≠ tx_to tx → v' !! a = v !! a)
  ∧ (tx_from tx = tx_to tx →
     v' = <[tx_from tx :=
              match v !! tx_from tx with
              | Some account =>
                  {| balance := balance account - tx_amount tx + tx_amount tx;
                     nonce := tx_nonce tx |}
              | None => {| balance := 0 + tx_amount tx; nonce := 0 |}
              end]> v).
Proof.
  cbn zeta. split; [by apply storeOk_applyTransaction |].
  rewrite applyTransaction_view by done. unfold transferView, creditView.
  split.
  - intros Hne. rewrite decide_False by (intros [? _]; done).
    split_and!.
    + rewrite lookup_insert_ne by done. by rewrite lookup_insert_eq.
    + rewrite lookup_insert_eq. by rewrite lookup_insert_ne by done.
    + intros a Hf Ht. by rewrite !lookup_insert_ne.
  - intros Heq. rewrite <- Heq.
    destruct (accountsView s !! tx_from tx) as [account|] eqn:Hacc.
    + rewrite decide_False by (intros [_ ?]; done).
      by rewrite lookup_insert_eq, insert_insert_eq.
    + rewrite decide_True by done. f_equal.
Qed.


Lemma rebuildStateFromChain_chain (st : NodeState Eff) :
  chain (rebuildStateFromChain me st) = chain st.
Proof.
  unfold rebuildStateFromChain.
  assert (Heff : ∀ (st' : NodeState Eff) block,
            chain (replayEffectiveness me st' block) = chain st').
  { intros st' block. unfold replayEffectiveness.
    generalize (b_effectivenessUpdates block). intros updates. revert st'.
    induction updates as [|[nodeId eff] rest IH]; intros st'; [done |].
    cbn [fold_left]. rewrite IH. by case_decide. }
  assert (Hloop : ∀ blocks (st' : NodeState Eff),
            chain (fold_left
                     (λ st0 block,
                        replayEffectiveness me
                          (set_accounts st0 (replayBlock (accounts st0) block)) block)
                     blocks st')
            = chain st').
  { induction blocks as [|b rest IH]; intros st'; [done |].
    cbn [fold_left]. by rewrite IH, Heff. }
  by rewrite Hloop.
Qed.

Lemma rebuildStateFromChain_view (st : NodeState Eff) :
  accountsView (accounts (rebuildStateFromChain me st)) = ledgerOfChain (chain st).
Proof.
  rewrite rebuildStateFromChain_accounts. unfold ledgerOfChain.
  destruct (fold_view replayBlock replayBlockView replayBlock_view (chain st)
              (accountsClear (accounts st)) (storeOk_empty _)) as [-> _].
  by rewrite accountsView_clear.
Qed.

Lemma commitBlock_view (st : NodeState Eff) (block : Block Eff) :
  storeOk (accounts st) →
  Forall (λ tx, tx_from tx ≠ "coinbase") (b_transactions block) →
  accountsView (accounts (commitBlock me st block))
  = replayBlockView (accountsView (accounts st)) block
  ∧ storeOk (accounts (commitBlock me st block)).
Proof.
  intros Hok Hplain. rewrite commitBlock_accounts.
  rewrite <- replayBlock_transfers by done. by apply replayBlock_view.
Qed.

End LedgerTheorems.

Section ReplayTheorems.
Context `{Crypto} {Eff : Type} `{Json Eff}.

(** X7.  The account map [rebuildStateFromChain] produces is a function of the
    chain alone: neither the account map held before nor the identity of
    the node matters, and rebuilding twice gives what rebuilding once
    gave. *)
Theorem rebuild_depends_only_on_chain (me1 me2 : Identity) (st1 st2 : NodeState Eff)
    (Hchain : chain st1 = chain st2) :
  accountsView (accounts (rebuildStateFromChain me1 st1))
  = accountsView (accounts (rebuildStateFromChain me2 st2))
  ∧ accountsView (accounts (rebuildStateFromChain me1 (rebuildStateFromChain me1 st1)))
    = accountsView (accounts (rebuildStateFromChain me1 st1))
  ∧ chain (rebuildStateFromChain me1 st1) = chain st1.
Proof.
  rewrite !rebuildStateFromChain_view, rebuildStateFromChain_chain.
  by rewrite Hchain.
Qed.

(** X8.  Agreement of the account map with a replay of the chain is kept by
    [commitBlock] on every block without coinbase transactions. *)
Theorem commitBlock_keeps_replay_agreement (me : Identity) (st : NodeState Eff)
    (block : Block Eff)
    (Hok : storeOk (accounts st))
    (Hagree : accountsView (accounts st)
              = accountsView (accounts (rebuildStateFromChain me st)))
    (Hplain : Forall (λ tx, tx_from tx ≠ "coinbase") (b_transactions block)) :
  accountsView (accounts (commitBlock me st block))
  = accountsView (accounts (rebuildStateFromChain me (commitBlock me st block)))
  ∧ storeOk (accounts (commitBlock me st block)).
Proof.
  destruct (commitBlock_view me st block Hok Hplain) as [Hview Hok'].
  split; [|done].
  rewrite Hview, rebuildStateFromChain_view, commitBlock_chain.
  rewrite Hagree, rebuildStateFromChain_view.
  unfold ledgerOfChain. by rewrite fold_left_app.
Qed.

(** X9.  [commitBlock] appends exactly the block, counts it, and filters the
    pending pools: a pending transaction stays exactly when its hash is not
    the hash of a transaction of the block, a pending receipt exactly when
    its [challengeId] is not that of a receipt of the block. *)
Theorem commitBlock_clears_included (me : Identity) (st : NodeState Eff)
    (block : Block Eff) :
  let st' := commitBlock me st block in
  chain st' = chain st ++ [block]
  ∧ blocksCommitted (stats st') = blocksCommitted (stats st) + 1
  ∧ pendingTransactions st'
    = filter (λ t, hashTx t ∉ hashTx <$> b_transactions block) (pendingTransactions st)
  ∧ pendingReceipts st'
    = filter (λ r, r_challengeId r ∉ r_challengeId <$> b_receipts block)
        (pendingReceipts st)
  ∧ (∀ t, t ∈ b_transactions block → t ∈ pendingTransactions st' → False).
Proof.
  cbn zeta.
  assert (Hpending : pendingTransactions (commitBlock me st block)
            = filter (λ t, hashTx t ∉ hashTx <$> b_transactions block)
                (pendingTransactions st)).
  { unfold commitBlock. cbn.
    by destruct (applyEffectiveness_frame me (b_effectivenessUpdates block)
                   (set_chain st (chain st ++ [block]))) as (_ & _ & _ & -> & _). }
  split_and!.
  - apply commitBlock_chain.
  - unfold commitBlock. cbn.
    by destruct (applyEffectiveness_frame me (b_effectivenessUpdates block)
                   (set_chain st (chain st ++ [block]))) as (_ & _ & _ & _ & ->).
  - exact Hpending.
  - unfold commitBlock. cbn.
    by destruct (applyEffectiveness_frame me (b_effectivenessUpdates block)
                   (set_chain st (chain st ++ [block]))) as (_ & _ & -> & _ & _).
  - intros t Hin. rewrite Hpending. rewrite list_elem_of_filter.
    intros [Hnot _]. apply Hnot. by apply list_elem_of_fmap_2.
Qed.
End ReplayTheorems.


Section ConsensusTheorems.
Context `{Crypto} {Eff : Type} `{Json Eff}.
Variable me : Identity.

(** X10.  A committed block delivered again is ignored: handling it twice leaves
    the state that handling it once produced. *)
Theorem handleCommittedBlock_idempotent (st : NodeState Eff) (block : Block Eff) :
  handleCommittedBlock me (handleCommittedBlock me st block) block
  = handleCommittedBlock me st block.
Proof.
  assert (Hseen : ∀ st' : NodeState Eff,
            existsb (λ b, bool_decide (b_hash b = b_hash block)) (chain st') = true →
            handleCommittedBlock me st' block = st').
  { intros st' Hex. unfold handleCommittedBlock. by rewrite Hex. }
  assert (Hcases : handleCommittedBlock me st block = st
                   ∨ handleCommittedBlock me st block = commitBlock me st block).
  { unfold handleCommittedBlock.
    destruct (existsb _ (chain st)); [by left |].
    repeat (case_decide; [by left |]).
    destruct (verifyOpt _ _ _); cbn [negb]; [by right | by left]. }
  destruct Hcases as [Hsame|Hcommit].
  - by rewrite !Hsame.
  - rewrite !Hcommit. apply Hseen. rewrite commitBlock_chain, existsb_app. cbn.
    rewrite bool_decide_eq_true_2 by done. by rewrite orb_true_r.
Qed.

(** X11.  [handleCommittedBlock] either ignores the block or commits it, and it
    commits only a block whose hash is not in the chain yet, that carries
    at least two votes, whose hash is the hash of its content and whose
    leader signature verifies over that hash under the key it names. *)
Theorem handleCommittedBlock_commits_only_signed (st : NodeState Eff)
    (block : Block Eff) :
  handleCommittedBlock me st block = st
  ∨ (handleCommittedBlock me st block = commitBlock me st block
     ∧ (2 ≤ size (default ∅ (b_votes block)))%nat
     ∧ b_hash block = Some (hashBlock (blockData block))
     ∧ verify (hashBlock (blockData block)) (default "" (b_leaderSignature block))
         (b_leaderPubKey block) = true
     ∧ is_Some (b_leaderSignature block)
     ∧ Forall (λ b, b_hash b ≠ b_hash block) (chain st)).
Proof.
  unfold handleCommittedBlock.
  destruct (existsb _ (chain st)) eqn:Hex; [by left |].
  case_decide as Hvotes; [by left |].
  case_decide as Hhash; [by left |].
  destruct (verifyOpt _ _ _) eqn:Hsig; cbn [negb]; [|by left].
  right.
  unfold verifyOpt in Hsig. rewrite Hhash in Hsig.
  destruct (b_leaderSignature block) as [sig|]; [|done].
  split_and!; try done; [lia |].
  apply Forall_forall. intros b Hb Heq.
  assert (existsb (λ b, bool_decide (b_hash b = b_hash block)) (chain st) = true);
    [|congruence].
  apply existsb_exists. exists b. split; [by apply list_elem_of_In |].
  by apply bool_decide_eq_true.
Qed.

(** X12.  [handleVote] appends a block only at quorum: either the chain is left
    as it is, or the vote verifies under the key it carries, is for the hash
    of the active proposal, and the proposal is appended with the tally
    (the earlier votes and this one) attached, the tally holding at least
    [⌈N · 0.67⌉] voters; the proposal and the tally are then cleared.  A
    vote whose signature does not verify changes nothing at all. *)
Theorem handleVote_commits_only_at_quorum (st : NodeState Eff) (vote : Vote) :
  (verifyOpt (v_blockHash vote) (v_signature vote) (v_voterPubKey vote) = false →
   handleVote me st vote = st)
  ∧ (chain (handleVote me st vote) = chain st
     ∨ ∃ proposed sig,
         proposedBlock st = Some proposed
         ∧ b_hash proposed = v_blockHash vote
         ∧ v_signature vote = Some sig
         ∧ verifyOpt (v_blockHash vote) (v_signature vote) (v_voterPubKey vote) = true
         ∧ let tally := <[v_voter vote := sig]> (votes st) in
           chain (handleVote me st vote) = chain st ++ [withVotes proposed tally]
           ∧ (votesNeeded (size (peers st) + 1) ≤ size tally)%nat
           ∧ proposedBlock (handleVote me st vote) = None
           ∧ votes (handleVote me st vote) = ∅).
Proof.
  split; [intros Hbad; unfold handleVote; by rewrite Hbad |].
  unfold handleVote.
  destruct (verifyOpt _ _ _) eqn:Hver; cbn [negb]; [|by left].
  destruct (proposedBlock st) as [proposed|] eqn:Hprop; [|by left].
  destruct (decide (b_hash proposed ≠ v_blockHash vote)) as [Hne|Heq]; [by left |].
  destruct (v_signature vote) as [sig|] eqn:Hsig; [|by left].
  cbn [votes set_votes peers].
  destruct (decide (votesNeeded (size (peers st) + 1)
                    ≤ size (<[v_voter vote := sig]> (votes st)))%nat); [|by left].
  right. exists proposed, sig. split_and!; try done.
  - by destruct (decide (b_hash proposed = v_blockHash vote)); [|destruct Heq].
  - cbn [chain set_votes set_proposedBlock]. by rewrite commitBlock_chain.
Qed.
End ConsensusTheorems.

(* ================================================================== *)
(** ** Properties: the block builder against the ledger *)
(* ================================================================== *)

Section BuilderFacts.
Context {Eff : Type}.
Variable accts : AccountStore.

(** The overlays [ov] stand for the account map [v]. *)
Local Abbreviation tracks ov v :=
  (∀ a : string,
     overlayBalance accts ov a = balance (default newAccount (v !! a))
     ∧ overlayNonce accts ov a = nonce (default newAccount (v !! a))).

Lemma overlay_tracks_ledger : tracks emptyOverlay (accountsView accts).
Proof.
  intros a. unfold overlayBalance, overlayNonce, accountOrZero. cbn.
  by rewrite !lookup_empty, accountsView_lookup.
Qed.

Lemma filterTransaction_accepts (ov : Overlay) (v : gmap string Account)
    (tx : Transaction) :
  tracks ov v → tx_from tx ≠ "coinbase" →
  (filterTransaction accts ov tx).1 = true →
  tx_amount tx ≤ balance (default newAccount (v !! tx_from tx))
  ∧ tx_nonce tx = nonce (default newAccount (v !! tx_from tx)) + 1.
Proof.
  intros Hinv Hcb. destruct (Hinv (tx_from tx)) as [Hb Hn].
  unfold filterTransaction. rewrite decide_False by done.
  repeat case_decide; cbn [fst]; try done. intros _. lia.
Qed.

Lemma overlayBalance_credit (ov : Overlay) (addr a : string) (amount : Z) :
  overlayBalance accts (creditOverlay accts ov addr amount) a
  = if decide (addr = a) then overlayBalance accts ov addr + amount
    else overlayBalance accts ov a.
Proof.
  unfold overlayBalance at 1. unfold creditOverlay. cbn [tempBalances].
  case_decide as Ha; [subst; by rewrite lookup_insert_eq |].
  by rewrite lookup_insert_ne.
Qed.

Lemma overlayBalance_debit (ov : Overlay) (addr a : string) (amount n : Z) :
  overlayBalance accts (debitOverlay accts ov addr amount n) a
  = if decide (addr = a) then overlayBalance accts ov addr - amount
    else overlayBalance accts ov a.
Proof.
  unfold overlayBalance at 1. unfold debitOverlay. cbn [tempBalances].
  case_decide as Ha; [subst; by rewrite lookup_insert_eq |].
  by rewrite lookup_insert_ne.
Qed.

Lemma overlayNonce_debit (ov : Overlay) (addr a : string) (amount n : Z) :
  overlayNonce accts (debitOverlay accts ov addr amount n) a
  = if decide (addr = a) then n else overlayNonce accts ov a.
Proof.
  unfold overlayNonce at 1. unfold debitOverlay. cbn [tempNonces].
  case_decide as Ha; [subst; by rewrite lookup_insert_eq |].
  by rewrite lookup_insert_ne.
Qed.

Lemma account_after_insert (v : gmap string Account) (k a : string) (x : Account) :
  default newAccount (<[k := x]> v !! a)
  = if decide (k = a) then x else default newAccount (v !! a).
Proof.
  case_decide as Ha; [subst; by rewrite lookup_insert_eq |].
  by rewrite lookup_insert_ne.
Qed.

Lemma filterTransaction_tracks (ov : Overlay) (v : gmap string Account)
    (tx : Transaction) :
  tracks ov v → tx_from tx ≠ "coinbase" → 0 < tx_amount tx →
  (filterTransaction accts ov tx).1 = true →
  tracks (filterTransaction accts ov tx).2 (transferView v tx).
Proof.
  intros Hinv Hcb Hpos Hkeep.
  destruct (filterTransaction_accepts ov v tx Hinv Hcb Hkeep) as [Hfunds _].
  revert Hkeep. unfold filterTransaction. rewrite decide_False by done.
  repeat case_decide; cbn [fst snd]; try done. intros _ a.
  unfold transferView, creditView.
  rewrite decide_False.
  2:{ intros [_ Hnone]. rewrite Hnone in Hfunds. cbn in Hfunds. lia. }
  rewrite overlayNonce_credit, overlayBalance_credit, !overlayBalance_debit,
    overlayNonce_debit, !account_after_insert.
  pose proof (Hinv a) as [Hba Hna].
  pose proof (Hinv (tx_from tx)) as [Hbf Hnf].
  pose proof (Hinv (tx_to tx)) as [Hbt Hnt].
  repeat case_decide; subst;
    cbn [addBalance setNonce subBalance balance nonce]; try done; split; lia.
Qed.

(** The transactions the loop keeps, one by one against the account map
    as the kept ones before it leave it. *)
Lemma filterTransactions_tracks (txs : list Transaction) :
  Forall (λ tx, tx_from tx ≠ "coinbase" ∧ 0 < tx_amount tx) txs →
  ∀ (ov : Overlay) (valid : list Transaction) (v : gmap string Account),
    tracks ov v →
    ∃ kept,
      (filterTransactions accts ov valid txs).1 = valid ++ kept
      ∧ tracks (filterTransactions accts ov valid txs).2 (fold_left transferView kept v)
      ∧ ∀ (n : nat) tx, kept !! n = Some tx →
          let before := fold_left transferView (take n kept) v in
          0 < tx_amount tx
          ∧ tx_amount tx ≤ balance (default newAccount (before !! tx_from tx))
          ∧ tx_nonce tx = nonce (default newAccount (before !! tx_from tx)) + 1.
Proof.
  induction 1 as [|tx rest [Hcb Hpos] Hrest IH]; intros ov valid v Hinv.
  - exists []. cbn. rewrite app_nil_r. split_and!; [done | done |].
    intros n tx Hn. by rewrite lookup_nil in Hn.
  - cbn [filterTransactions].
    destruct (filterTransaction accts ov tx) as [keep ov'] eqn:Hstep.
    destruct keep.
    + pose proof (filterTransaction_tracks ov v tx Hinv Hcb Hpos) as Hinv'.
      pose proof (filterTransaction_accepts ov v tx Hinv Hcb) as Hacc.
      rewrite Hstep in Hinv', Hacc. cbn [fst snd] in Hinv', Hacc.
      destruct (IH ov' (valid ++ [tx]) (transferView v tx) (Hinv' eq_refl))
        as (kept & Hkept & Hfinal & Hseq).
      exists (tx :: kept). rewrite Hkept, <- app_assoc. split_and!; [done | done |].
      intros [|n] t Hn; cbn in Hn |- *.
      * injection Hn as <-. split; [done | by apply Hacc].
      * by apply Hseq.
    + assert (ov' = ov) as ->.
      { revert Hstep. unfold filterTransaction. rewrite decide_False by done.
        repeat case_decide; congruence. }
      by apply IH.
Qed.
(** Rewards credited before the transactions only raise balances: [v']
    holds at least the balance [v] holds at every address, at the same
    nonce. *)
Local Abbreviation raised v v' :=
  (∀ a : string,
     balance (default newAccount (v !! a)) ≤ balance (default newAccount (v' !! a))
     ∧ nonce (default newAccount (v !! a)) = nonce (default newAccount (v' !! a))).

Lemma creditView_raises (v v' : gmap string Account) (addr : string) (reward : Z) :
  raised v v' → 0 ≤ reward → raised v (creditView v' addr reward).
Proof.
  intros Hdom Hpos a. unfold creditView. rewrite account_after_insert.
  pose proof (Hdom a) as [? ?]. pose proof (Hdom addr) as [? ?].
  case_decide; subst; cbn [addBalance balance nonce]; split; lia.
Qed.

Lemma rewards_raise (rewards : list (string * Z)) (v v' : gmap string Account) :
  Forall (λ entry, 0 ≤ entry.2) rewards → raised v v' →
  raised v (fold_left (λ v entry, creditView v entry.1 entry.2) rewards v').
Proof.
  intros Hpos. revert v'. induction Hpos as [|entry rest Hentry _ IH]; intros v' Hdom;
    [done |].
  cbn [fold_left]. apply IH. by apply creditView_raises.
Qed.

Lemma transferView_raised (v v' : gmap string Account) (tx : Transaction) :
  raised v v' → 0 < tx_amount tx →
  tx_amount tx ≤ balance (default newAccount (v !! tx_from tx)) →
  raised (transferView v tx) (transferView v' tx).
Proof.
  intros Hdom Hpos Hfunds a. unfold transferView, creditView.
  pose proof (Hdom (tx_from tx)) as [Hbf Hnf].
  rewrite !decide_False.
  2:{ intros [_ Hnone]. rewrite Hnone in Hbf. cbn in Hbf. lia. }
  2:{ intros [_ Hnone]. rewrite Hnone in Hfunds. cbn in Hfunds. lia. }
  rewrite !account_after_insert.
  pose proof (Hdom a) as [? ?]. pose proof (Hdom (tx_to tx)) as [? ?].
  repeat case_decide; subst;
    cbn [addBalance setNonce subBalance balance nonce]; split; lia.
Qed.

Lemma valid_sequence_raised (kept : list Transaction) (v v' : gmap string Account) :
  raised v v' →
  (∀ (n : nat) tx, kept !! n = Some tx →
     let before := fold_left transferView (take n kept) v in
     0 < tx_amount tx
     ∧ tx_amount tx ≤ balance (default newAccount (before !! tx_from tx))
     ∧ tx_nonce tx = nonce (default newAccount (before !! tx_from tx)) + 1) →
  ∀ (n : nat) tx, kept !! n = Some tx →
    let before := fold_left transferView (take n kept) v' in
    tx_amount tx ≤ balance (default newAccount (before !! tx_from tx))
    ∧ tx_nonce tx = nonce (default newAccount (before !! tx_from tx)) + 1.
Proof.
  revert v v'. induction kept as [|t rest IH]; intros v v' Hdom Hseq n tx Hn;
    [by rewrite lookup_nil in Hn |].
  destruct (Hseq 0%nat t eq_refl) as (Hpos & Hfunds & Hnonce). cbn in Hfunds, Hnonce.
  destruct n as [|n]; cbn in Hn |- *.
  - injection Hn as <-. pose proof (Hdom (tx_from t)) as [? ?]. lia.
  - apply (IH (transferView v t) (transferView v' t)); [| |done].
    + by apply transferView_raised.
    + intros m tx' Hm. apply (Hseq (S m) tx' Hm).
Qed.
End BuilderFacts.

Section BuilderTheorems.
Context `{Crypto} {Eff : Type} `{Json Eff}.

Lemma applyTransactions_view (txs : list Transaction) (s : AccountStore) :
  storeOk s →
  accountsView (fold_left applyTransaction txs s)
  = fold_left transferView txs (accountsView s)
  ∧ storeOk (fold_left applyTransaction txs s).
Proof.
  apply (fold_view applyTransaction transferView).
  intros s' tx Hok. split; [by apply applyTransaction_view | by apply storeOk_applyTransaction].
Qed.

(** X13.  The overlays [createBlock] ends its filter with, from which it takes
    the state root, are the ledger with the kept transactions applied by
    [applyTransaction] (the rewards of the block are not part of them): for
    every address the overlay balance and nonce are those of the account
    after the transactions (0 and 0 when there is no account).  This holds
    when no input transaction is a coinbase one and all amounts are
    positive. *)
Theorem createBlock_overlay_is_ledger_after_commit (accts : AccountStore)
    (txs : list Transaction)
    (Hok : storeOk accts)
    (Hplain : Forall (λ tx, tx_from tx ≠ "coinbase" ∧ 0 < tx_amount tx) txs) :
  let built := filterTransactions accts emptyOverlay [] txs in
  let after := fold_left applyTransaction built.1 accts in
  ∀ addr,
    overlayBalance accts built.2 addr = balance (accountOrZero after addr)
    ∧ overlayNonce accts built.2 addr = nonce (accountOrZero after addr).
Proof.
  cbn zeta. intros addr.
  destruct (filterTransactions_tracks accts txs Hplain emptyOverlay []
              (accountsView accts) (overlay_tracks_ledger accts))
    as (kept & Hkept & Hfinal & _).
  rewrite Hkept. cbn [app].
  destruct (applyTransactions_view kept accts Hok) as [Hview _].
  unfold accountOrZero. rewrite <- accountsView_lookup, Hview. apply Hfinal.
Qed.

(** X14.  Every transaction of a block built by [createBlock] is valid, in the
    sense of [validateTransaction], against the ledger as [commitBlock] has
    it when it reaches that transaction, the rewards of the block credited
    and the transactions before it applied: the sender covers the amount
    and the nonce is the sender's plus one.  The input holds no coinbase
    transaction, amounts are positive and rewards are not negative. *)
Theorem createBlock_keeps_valid_sequence (me : Identity) (st : NodeState Eff) (now : Z)
    (effectivenessUpdates : list (string * Eff)) (rewards : list (string * Z))
    (epoch : Z) (receipts : list Receipt) (txs : list Transaction)
    (Hok : storeOk (accounts st))
    (Hplain : Forall (λ tx, tx_from tx ≠ "coinbase" ∧ 0 < tx_amount tx) txs)
    (Hrewards : Forall (λ entry, 0 ≤ entry.2) rewards) :
  let block := createBlock me st now effectivenessUpdates rewards epoch receipts txs in
  let rewarded := fold_left applyReward (b_rewards block) (accounts st) in
  ∀ (n : nat) tx, b_transactions block !! n = Some tx →
    validateTransaction
      (set_accounts st
         (fold_left applyTransaction (take n (b_transactions block)) rewarded)) tx
    = true.
Proof.
  cbn zeta. intros n tx. unfold createBlock.
  destruct (filterTransactions_tracks (accounts st) txs Hplain emptyOverlay []
              (accountsView (accounts st)) (overlay_tracks_ledger (accounts st)))
    as (kept & Hkept & _ & Hseq).
  destruct (filterTransactions (accounts st) emptyOverlay [] txs) as [validTxs ov].
  cbn [fst app] in Hkept. subst validTxs. cbn [b_transactions b_rewards]. intros Hn.
  destruct (fold_view applyReward (λ v entry, creditView v entry.1 entry.2)
              applyReward_view rewards (accounts st) Hok) as [Hrewarded Hok'].
  destruct (applyTransactions_view (take n kept) _ Hok') as [Hview _].
  assert (Hraised : ∀ a : string,
            balance (default newAccount (accountsView (accounts st) !! a))
            ≤ balance (default newAccount
                         (accountsView (fold_left applyReward rewards (accounts st)) !! a))
            ∧ nonce (default newAccount (accountsView (accounts st) !! a))
              = nonce (default newAccount
                         (accountsView (fold_left applyReward rewards (accounts st)) !! a))).
  { rewrite Hrewarded. by apply rewards_raise. }
  destruct (valid_sequence_raised kept _ _ Hraised Hseq n tx Hn) as [Hfunds Hnonce].
  unfold validateTransaction. cbn [accounts set_accounts].
  unfold accountOrZero. rewrite <- accountsView_lookup, Hview.
  rewrite decide_False by lia. by rewrite decide_False by lia.
Qed.
End BuilderTheorems.

(* ================================================================== *)
(** ** Properties: election, view changes and proposals *)
(* ================================================================== *)

Section ElectionTheorems.
Context `{Crypto} {Eff : Type}.

(** X15.  [electLeader] always elects a validator: the result is defined and is
    the node itself or the id of a known peer; a node without peers elects
    itself, so [amILeader] holds for every epoch. *)
Theorem electLeader_elects_a_validator (me : Identity) (st : NodeState Eff) (epoch : Z) :
  (∃ leader, electLeader me st epoch = Some leader
             ∧ (leader = NODE_NAME me ∨ is_Some (peers st !! leader)))
  ∧ (peers st = ∅ → amILeader me st epoch = true).
Proof.
  pose proof (electLeader_index me st epoch) as Hidx. cbn zeta in Hidx.
  pose proof (sorted_ids_nonempty me st) as Hne.
  pose proof (merge_sort_Permutation strLe (allNodeIds me st)) as Hperm.
  set (L := merge_sort strLe (allNodeIds me st)) in *.
  set (i := N.to_nat _) in Hidx.
  assert (Hlt : (i < length L)%nat).
  { subst i. pose proof (N.mod_lt
      (beValue (take 4 (sha256 ("epoch-" +:+ pretty epoch +:+ "-view-"
                                  +:+ pretty (currentView st)))))
      (N.of_nat (length L))) as Hm. lia. }
  destruct (lookup_lt_is_Some_2 L i Hlt) as [leader Hleader].
  split.
  - exists leader. split; [congruence |].
    apply list_elem_of_lookup_2 in Hleader. rewrite Hperm in Hleader.
    unfold allNodeIds in Hleader. apply elem_of_cons in Hleader as [->|Hin]; [by left |].
    right. apply list_elem_of_fmap in Hin as ([k p] & -> & Hin).
    apply elem_of_map_to_list in Hin. by eexists.
  - intros Hnone. unfold amILeader. apply bool_decide_eq_true.
    rewrite Hidx, Hleader. f_equal.
    apply list_elem_of_lookup_2 in Hleader. rewrite Hperm in Hleader.
    unfold allNodeIds in Hleader. rewrite Hnone, map_to_list_empty in Hleader.
    cbn in Hleader. by apply list_elem_of_singleton in Hleader.
Qed.
End ElectionTheorems.

Section ViewTheorems.
Context `{Crypto} {Eff : Type} `{Json Eff}.
Variable me : Identity.

(** X16.  [handleViewChange] moves the view forward only: either the view, the
    proposal and the votes stay as they are, or the message is for the
    current epoch and a higher view, the tally under its key has reached
    the quorum, the node is at the view of the message and its proposal and
    votes are dropped.  The epoch and the chain never change. *)
Theorem handleViewChange_moves_only_forward (st : NodeState Eff) (vc : ViewChange) :
  currentEpoch (handleViewChange st vc) = currentEpoch st
  ∧ chain (handleViewChange st vc) = chain st
  ∧ ((currentView (handleViewChange st vc) = currentView st
      ∧ proposedBlock (handleViewChange st vc) = proposedBlock st
      ∧ votes (handleViewChange st vc) = votes st)
     ∨ (vc_epoch vc = currentEpoch st
        ∧ currentView st < vc_newView vc
        ∧ currentView (handleViewChange st vc) = vc_newView vc
        ∧ proposedBlock (handleViewChange st vc) = None
        ∧ votes (handleViewChange st vc) = ∅
        ∧ (votesNeeded (size (peers st) + 1)
           ≤ size (default ∅ (viewChangeVotes (handleViewChange st vc)
                                !! viewChangeKey vc)))%nat)).
Proof.
  unfold handleViewChange.
  case_decide as Hepoch; [by split_and!; try left |].
  case_decide as Hview; [by split_and!; try left |].
  set (key := viewChangeKey vc).
  set (st1 := match viewChangeVotes st !! key with
              | Some _ => st
              | None => set_viewChangeVotes st (<[key := ∅]> (viewChangeVotes st))
              end).
  assert (Hframe : currentEpoch st1 = currentEpoch st ∧ chain st1 = chain st
                   ∧ currentView st1 = currentView st
                   ∧ proposedBlock st1 = proposedBlock st ∧ votes st1 = votes st
                   ∧ peers st1 = peers st)
    by (subst st1; by destruct (viewChangeVotes st !! key)).
  destruct Hframe as (He & Hc & Hv & Hp & Hvo & Hpe).
  cbn [peers set_viewChangeVotes]. rewrite Hpe.
  case_decide as Hquorum; cbn.
  - split_and!; try done. right. split_and!; try done.
    + lia.
    + by rewrite lookup_insert_eq.
  - split_and!; try done. by left.
Qed.

(** X17.  The message [checkViewChange] broadcasts is one its peers count: when
    the timer fires (no proposal held, more than 8000 ms into the epoch)
    the node moves up by exactly one view, and a peer at the same epoch
    and at the old view files the sender under the key of the message. *)
Theorem checkViewChange_message_is_counted (st st' peer : NodeState Eff) (now : Z)
    (msg : ViewChange)
    (Hfire : checkViewChange me st now = (true, st', Some msg))
    (Hepoch : currentEpoch peer = currentEpoch st)
    (Hview : currentView peer = currentView st) :
  proposedBlock st = None
  ∧ viewChangeTimeoutMs < now - epochStartTime st
  ∧ currentView st' = currentView st + 1
  ∧ viewChanges (stats st') = viewChanges (stats st) + 1
  ∧ vc_newView msg = currentView st'
  ∧ NODE_NAME me ∈ default ∅ (viewChangeVotes (handleViewChange peer msg)
                                !! viewChangeKey msg).
Proof.
  unfold checkViewChange in Hfire.
  case_decide as Hcond; [|done]. destruct Hcond as [Hnone Hlate].
  injection Hfire as <- <-. cbn.
  split_and!; try done; [lia |].
  unfold handleViewChange. cbn [vc_epoch vc_newView vc_from].
  rewrite decide_False by (intros Hne; by apply Hne).
  rewrite decide_False by lia.
  set (key := viewChangeKey _).
  set (st1 := match viewChangeVotes peer !! key with
              | Some _ => peer
              | None => set_viewChangeVotes peer (<[key := ∅]> (viewChangeVotes peer))
              end).
  case_decide; cbn; rewrite lookup_insert_eq; cbn; set_solver.
Qed.
End ViewTheorems.

Section ProposalFacts.
Context `{Crypto} {Eff : Type} `{Json Eff}.
Variable me : Identity.

Lemma minKey_elem (keys : list Z) (k : Z) : minKey keys = Some k → k ∈ keys.
Proof.
  destruct keys as [|k0 rest]; [done |]. cbn. intros [= <-].
  revert k0. induction rest as [|k1 rest IH]; intros k0; cbn; [set_solver |].
  pose proof (IH (Z.min k0 k1)) as Hin. apply elem_of_cons in Hin as [->|Hin]; [|set_solver].
  destruct (Z.min_spec k0 k1) as [[_ ->]|[_ ->]]; set_solver.
Qed.

(** The cleanup at the end of [checkEquivocation]. *)
Local Abbreviation cleanup m :=
  (if decide (lt 10%nat (size m)) then
     match minKey (map_to_list m).*1 with
     | Some oldestEpoch => delete oldestEpoch m
     | None => m
     end
   else m).

Lemma cleanup_bound (m : gmap Z (list (option string * Block Eff))) :
  (size m ≤ 11)%nat → (size (cleanup m) ≤ 10)%nat.
Proof.
  intros Hsize. case_decide as Hbig; [|lia].
  destruct (minKey (map_to_list m).*1) as [k|] eqn:Hmin.
  - apply minKey_elem in Hmin.
    apply list_elem_of_fmap in Hmin as ([k' ps] & -> & Hin).
    apply elem_of_map_to_list in Hin. cbn [fst].
    rewrite map_size_delete, Hin. lia.
  - destruct (map_to_list m) as [|[k ps] rest] eqn:Hl; [|done].
    apply map_to_list_empty_iff in Hl. subst m. rewrite map_size_empty in Hbig. lia.
Qed.

(** What [checkEquivocation] leaves in [seenProposals], and when it
    reports. *)
Lemma checkEquivocation_seen (st : NodeState Eff) (block : Block Eff) :
  let m := seenProposals st in
  let proposals := default [] (m !! b_epoch block) in
  match List.find (conflicting block) proposals with
  | Some _ =>
      seenProposals (checkEquivocation st block).1 = m
      ∧ is_Some (checkEquivocation st block).2
  | None =>
      seenProposals (checkEquivocation st block).1
      = cleanup (<[b_epoch block := assocSet (b_hash block) block proposals]> m)
      ∧ (checkEquivocation st block).2 = None
  end.
Proof.
  cbn zeta. unfold checkEquivocation.
  destruct (seenProposals st !! b_epoch block) as [ps|] eqn:Hps; cbn.
  - rewrite Hps. cbn. destruct (List.find _ ps) as [[? ?]|]; cbn; [by split |].
    split; [|done]. case_decide; [|done]. by destruct (minKey _).
  - rewrite lookup_insert_eq. cbn. rewrite insert_insert_eq.
    split; [|done]. case_decide; [|done]. by destruct (minKey _).
Qed.

Lemma checkEquivocation_bound (st : NodeState Eff) (block : Block Eff) :
  (size (seenProposals st) ≤ 10)%nat →
  (size (seenProposals (checkEquivocation st block).1) ≤ 10)%nat.
Proof.
  intros Hsize. pose proof (checkEquivocation_seen st block) as Hseen.
  cbn zeta in Hseen.
  destruct (List.find _ _); destruct Hseen as [-> _]; [done |].
  apply cleanup_bound. rewrite map_size_insert. case_match; unfold id; lia.
Qed.

Lemma find_assocSet (block : Block Eff) (proposals : list (option string * Block Eff)) :
  List.find (conflicting block) proposals = None →
  List.find (conflicting block) (assocSet (b_hash block) block proposals) = None.
Proof.
  assert (Hself : conflicting block (b_hash block, block) = false).
  { apply bool_decide_eq_false. cbn. by intros [_ ?]. }
  induction proposals as [|[h b] rest IH]; cbn; [by rewrite Hself |].
  destruct (conflicting block (h, b)) eqn:Hhb; [done |]. intros Hrest.
  case_decide; cbn; [by rewrite Hself | rewrite Hhb; by apply IH].
Qed.

Lemma assocSet_again {K V} `{EqDecision K} (k : K) (v : V) (m : list (K * V)) :
  assocSet k v (assocSet k v m) = assocSet k v m.
Proof.
  induction m as [|[k' v'] rest IH]; cbn; [by rewrite decide_True |].
  case_decide; cbn; [by rewrite decide_True |].
  rewrite decide_False by done. by rewrite IH.
Qed.

(** A state whose record already accounts for the block: handling the
    block leaves it alone and reports nothing. *)
Lemma checkEquivocation_settled (st : NodeState Eff) (block : Block Eff) :
  let proposals := default [] (seenProposals st !! b_epoch block) in
  List.find (conflicting block) proposals = None →
  cleanup (<[b_epoch block := assocSet (b_hash block) block proposals]>
             (seenProposals st))
  = seenProposals st →
  checkEquivocation st block = (st, None).
Proof.
  cbn zeta. intros Hfind Hsame.
  pose proof (checkEquivocation_seen st block) as Hseen. cbn zeta in Hseen.
  rewrite Hfind, Hsame in Hseen. destruct Hseen as [Hm Hnone].
  pose proof (checkEquivocation_frame st block) as Hframe.
  destruct (checkEquivocation st block) as [st1 result]. cbn in Hm, Hnone, Hframe.
  subst result. f_equal. rewrite Hframe, Hm. by destruct st.
Qed.

Lemma checkEquivocation_settles (st : NodeState Eff) (block : Block Eff) :
  (size (seenProposals st) ≤ 10)%nat →
  (checkEquivocation st block).2 = None →
  let m1 := seenProposals (checkEquivocation st block).1 in
  let proposals := default [] (m1 !! b_epoch block) in
  List.find (conflicting block) proposals = None
  ∧ cleanup (<[b_epoch block := assocSet (b_hash block) block proposals]> m1) = m1.
Proof.
  intros Hsize Hnone. cbn zeta.
  pose proof (checkEquivocation_seen st block) as Hseen. cbn zeta in Hseen.
  destruct (List.find (conflicting block) (default [] (seenProposals st !! b_epoch block)))
    eqn:Hfind.
  { destruct Hseen as [_ [? Hsome]]. congruence. }
  destruct Hseen as [-> _].
  set (m := seenProposals st) in *. set (e := b_epoch block) in *.
  set (ps := default [] (m !! e)) in *.
  set (ps' := assocSet (b_hash block) block ps).
  assert (Hps' : List.find (conflicting block) ps' = None) by by apply find_assocSet.
  assert (Hsize' : (size (<[e := ps']> m) ≤ 11)%nat).
  { rewrite map_size_insert. case_match; unfold id; lia. }
  destruct (decide (10 < size (<[e := ps']> m))%nat) as [Hbig|Hsmall].
  - destruct (minKey (map_to_list (<[e := ps']> m)).*1) as [k|] eqn:Hmin.
    2:{ destruct (map_to_list (<[e := ps']> m)) as [|[? ?] ?] eqn:Hl; [|done].
        apply map_to_list_empty_iff in Hl. rewrite Hl, map_size_empty in Hbig. lia. }
    pose proof Hmin as Hk. apply minKey_elem in Hk.
    apply list_elem_of_fmap in Hk as ([k' psk] & -> & Hin).
    apply elem_of_map_to_list in Hin. cbn [fst] in *.
    assert (Hfresh : m !! e = None).
    { destruct (m !! e) eqn:Hme; [|done].
      rewrite map_size_insert, Hme in Hbig. unfold id in Hbig. lia. }
    destruct (decide (k' = e)) as [->|Hne].
    + assert (Hback : delete e (<[e := ps']> m) = m).
      { rewrite delete_insert_eq. by apply delete_id. }
      rewrite Hback. fold ps. fold ps'.
      split; [subst ps; by rewrite Hfresh |].
      rewrite decide_True by done. by rewrite Hmin.
    + rewrite lookup_delete_ne, lookup_insert_eq by done. cbn [default from_option id].
      split; [done |]. unfold ps'. rewrite assocSet_again. fold ps'.
      rewrite insert_id by (by rewrite lookup_delete_ne, lookup_insert_eq).
      rewrite decide_False; [done |].
      rewrite map_size_delete, Hin. lia.
  - rewrite lookup_insert_eq. cbn [default from_option id].
    split; [done |]. unfold ps'. rewrite assocSet_again. fold ps'.
    rewrite insert_insert_eq. by rewrite decide_False.
Qed.

Lemma slashNode_seenProposals (st : NodeState Eff) (pem : string) (ev : Evidence Eff) :
  seenProposals (slashNode st pem ev) = seenProposals st.
Proof.
  unfold slashNode. destruct (addressOfKey pem); [|done].
  case_decide; [done |]. cbn.
  destruct (accountsGet _ _); [|done]. by destruct (_ !! _).
Qed.
End ProposalFacts.

Section ProposalTheorems.
Context `{Crypto} {Eff : Type} `{Json Eff}.
Variable me : Identity.

(** X18.  The record of proposals seen stays small: once it holds at most 10
    epochs it holds at most 10 after every proposal handled, whatever the
    proposal and whatever the answer. *)
Theorem seenProposals_stays_bounded (st : NodeState Eff) (block : Block Eff)
    (Hbound : (size (seenProposals st) ≤ 10)%nat) :
  (size (seenProposals (handleBlockProposal me st block).1) ≤ 10)%nat.
Proof.
  pose proof (checkEquivocation_bound st block Hbound) as Hce.
  unfold handleBlockProposal.
  destruct (checkEquivocation st block) as [st1 [evidence|]]; cbn [fst] in *.
  - by rewrite slashNode_seenProposals.
  - destruct (verifyBlockReceipts block); [done |].
    destruct (if decide (b_previousHash block ≠ lastHash st1) then _ else _); [done |].
    by destruct (b_hash block).
Qed.
(** X19.  A proposal delivered a second time changes nothing: when the first
    delivery found no equivocation, the second leaves the state the first
    one produced and gives the same answer. *)
Theorem proposal_delivered_again_changes_nothing (st : NodeState Eff)
    (block : Block Eff)
    (Hbound : (size (seenProposals st) ≤ 10)%nat)
    (Hclean : (checkEquivocation st block).2 = None) :
  handleBlockProposal me (handleBlockProposal me st block).1 block
  = handleBlockProposal me st block.
Proof.
  destruct (checkEquivocation_settles st block Hbound Hclean) as [Hfind Hsame].
  assert (Hagain : ∀ st' : NodeState Eff,
            seenProposals st' = seenProposals (checkEquivocation st block).1 →
            checkEquivocation st' block = (st', None)).
  { intros st' Hst'. apply checkEquivocation_settled; by rewrite Hst'. }
  unfold handleBlockProposal at 2 3.
  destruct (checkEquivocation st block) as [st1 result]. cbn in Hclean, Hagain.
  subst result.
  assert (Hrun : ∀ st' : NodeState Eff,
            seenProposals st' = seenProposals st1 → chain st' = chain st1 →
            handleBlockProposal me st' block
            = match verifyBlockReceipts block with
              | Some reason => (st', ProposalRefused reason None)
              | None =>
                  match
                    (if decide (b_previousHash block ≠ lastHash st1) then
                       if decide (b_hash block ≠ Some (hashBlock (blockData block)))
                       then Some "Hash mismatch"
                       else if negb (verifyOpt (b_hash block) (b_leaderSignature block)
                                       (b_leaderPubKey block))
                       then Some "Invalid signature"
                       else None
                     else None)
                  with
                  | Some error => (st', ProposalRefused error None)
                  | None =>
                      match b_hash block with
                      | Some h =>
                          (set_proposedBlock st' (Some block),
                           ProposalVote
                             {| v_epoch := b_epoch block; v_blockHash := b_hash block;
                                v_voter := NODE_NAME me;
                                v_voterPubKey := id_publicKeyPem me;
                                v_signature := Some (sign h) |})
                      | None => (set_proposedBlock st' (Some block), ProposalThrew)
                      end
                  end
              end).
  { intros st' Hseen Hchain. unfold handleBlockProposal.
    rewrite (Hagain st' Hseen). unfold lastHash. by rewrite Hchain. }
  destruct (verifyBlockReceipts block) as [reason|] eqn:Hreceipts; cbn [fst].
  { by rewrite Hrun. }
  destruct (if decide (b_previousHash block ≠ lastHash st1) then _ else _)
    as [error|] eqn:Hsync; cbn [fst].
  { rewrite Hrun by done. by rewrite ?Hsync. }
  destruct (b_hash block) as [h|] eqn:Hh; cbn [fst];
    rewrite Hrun by done; rewrite ?Hsync, ?Hh; by destruct st1.
Qed.
End ProposalTheorems.

(* ================================================================== *)
(** ** Properties: slashing, the peer registry and the wallet endpoints *)
(* ================================================================== *)

Section EndpointFacts.
Context `{Crypto} {Eff : Type} `{Json Eff}.
Variable me : Identity.

Lemma learnPeers_keeps (clock : nat → Z) (zero : Eff) (entries : list GossipPeer) :
  ∀ (k : nat) (ps : gmap string (Peer Eff)) (id : string) (p : Peer Eff),
    ps !! id = Some p → learnPeers me clock k zero ps entries !! id = Some p.
Proof.
  induction entries as [|peer rest IH]; intros k ps id p Hp; [done |].
  cbn [learnPeers]. apply IH. unfold learnPeer.
  case_decide as Hnew; [|done]. destruct Hnew as [_ Hnone].
  rewrite lookup_insert_ne; [done | congruence].
Qed.

Lemma learnPeers_not_self (clock : nat → Z) (zero : Eff) (entries : list GossipPeer) :
  ∀ (k : nat) (ps : gmap string (Peer Eff)),
    ps !! NODE_NAME me = None →
    learnPeers me clock k zero ps entries !! NODE_NAME me = None.
Proof.
  induction entries as [|peer rest IH]; intros k ps Hp; [done |].
  cbn [learnPeers]. apply IH. unfold learnPeer.
  case_decide as Hnew; [|done]. destruct Hnew as [Hne _].
  by rewrite lookup_insert_ne.
Qed.

Lemma learnPeers_origin (clock : nat → Z) (zero : Eff) (entries : list GossipPeer) :
  ∀ (k : nat) (ps : gmap string (Peer Eff)) (id : string) (p : Peer Eff),
    learnPeers me clock k zero ps entries !! id = Some p →
    ps !! id = Some p
    ∨ ∃ entry seen,
        entry ∈ entries ∧ gp_id entry = id ∧ id ≠ NODE_NAME me
        ∧ p = {| p_url := gp_url entry; p_publicKeyPem := None;
                 p_publicKeyHash := gp_publicKeyHash entry;
                 p_lastSeen := seen; p_effectiveness := zero |}.
Proof.
  induction entries as [|peer rest IH]; intros k ps id p Hp; [by left |].
  cbn [learnPeers] in Hp. apply IH in Hp as [Hp|(entry & seen & Hin & Hrest)].
  - unfold learnPeer in Hp. case_decide as Hnew; [|by left].
    destruct Hnew as [Hne Hnone].
    destruct (decide (gp_id peer = id)) as [<-|Hid].
    + rewrite lookup_insert_eq in Hp. injection Hp as <-.
      right. exists peer, (clock k). split_and!; try done. apply list_elem_of_here.
    + rewrite lookup_insert_ne in Hp by done. by left.
  - right. exists entry, seen. split; [by apply list_elem_of_further | done].
Qed.
End EndpointFacts.

Section EndpointTheorems.
Context `{Crypto} {Eff : Type} `{Json Eff}.
Variable me : Identity.

(** X20.  A leader is slashed at most once: a second call of [slashNode] for the
    same key, whatever the evidence, changes nothing, and a call counts at
    most one slash event. *)
Theorem slashNode_at_most_once (st : NodeState Eff) (pem : string)
    (ev1 ev2 : Evidence Eff) :
  slashNode (slashNode st pem ev1) pem ev2 = slashNode st pem ev1
  ∧ slashEvents (stats st) ≤ slashEvents (stats (slashNode st pem ev1))
    ≤ slashEvents (stats st) + 1.
Proof.
  destruct (addressOfKey pem) as [addr|] eqn:Haddr.
  2:{ unfold slashNode. rewrite Haddr. split; [done | lia]. }
  destruct (decide (addr ∈ slashedNodes st)) as [Hin|Hnotin].
  - rewrite !(slashNode_already_slashed st pem addr) by done. split; [done | lia].
  - destruct (slashNode_first_time st pem addr ev1 Haddr Hnotin)
      as (Hset & Hcount & _).
    split; [|lia].
    apply (slashNode_already_slashed _ pem addr); [done |]. rewrite Hset.
    apply elem_of_union_l. by apply elem_of_singleton.
Qed.

(** X21.  [handleGossip] only adds to the peer registry.  The node never
    registers itself; a peer known before keeps its record, the time it was
    last seen apart; and a peer that appears was listed in the message
    under an id other than the node's own, with the url and address listed,
    no public key and effectiveness 0. *)
Theorem handleGossip_only_adds_peers (st : NodeState Eff) (clock : nat → Z)
    (now : Z) (zero : Eff) (data : Gossip) :
  let st' := handleGossip me st clock now zero data in
  (peers st !! NODE_NAME me = None → peers st' !! NODE_NAME me = None)
  ∧ (∀ id p, peers st !! id = Some p →
       ∃ seen, peers st' !! id = Some (touchPeer seen p))
  ∧ (∀ id p, peers st' !! id = Some p → peers st !! id = None →
       id ≠ NODE_NAME me
       ∧ ∃ entry, entry ∈ default [] (g_peers data) ∧ gp_id entry = id
                  ∧ p_url p = gp_url entry
                  ∧ p_publicKeyHash p = gp_publicKeyHash entry
                  ∧ p_publicKeyPem p = None ∧ p_effectiveness p = zero).
Proof.
  cbn zeta. unfold handleGossip. cbn [peers set_peers].
  set (learnt := learnPeers me clock 0 zero (peers st) (default [] (g_peers data))).
  assert (Htouch : ∀ id,
            (match g_from data with
             | Some from => if decide (from ≠ "") then alter (touchPeer now) from learnt
                            else learnt
             | None => learnt
             end) !! id = learnt !! id
            ∨ (match g_from data with
               | Some from => if decide (from ≠ "") then alter (touchPeer now) from learnt
                              else learnt
               | None => learnt
               end) !! id = touchPeer now <$> learnt !! id).
  { intros id. destruct (g_from data) as [from|]; [|by left].
    case_decide; [|by left].
    destruct (decide (from = id)) as [->|Hne].
    - right. apply lookup_alter_eq.
    - left. by apply lookup_alter_ne. }
  split_and!.
  - intros Hnone.
    pose proof (learnPeers_not_self me clock zero (default [] (g_peers data)) 0%nat
                  (peers st) Hnone) as Hl.
    fold learnt in Hl. destruct (Htouch (NODE_NAME me)) as [->| ->]; by rewrite Hl.
  - intros id p Hp.
    pose proof (learnPeers_keeps me clock zero (default [] (g_peers data)) 0%nat
                  (peers st) id p Hp) as Hl.
    fold learnt in Hl. destruct (Htouch id) as [->| ->]; rewrite Hl; cbn.
    + exists (p_lastSeen p). by destruct p.
    + by exists now.
  - intros id p Hp Hnew.
    assert (Hl : ∃ q seen, learnt !! id = Some q ∧ p = touchPeer seen q).
    { destruct (Htouch id) as [Heq|Heq]; rewrite Heq in Hp.
      - exists p, (p_lastSeen p). split; [done | by destruct p].
      - destruct (learnt !! id) as [q|]; [|done]. injection Hp as <-. by exists q, now. }
    destruct Hl as (q & seen & Hq & ->).
    apply learnPeers_origin in Hq as [Hq|(entry & seen' & Hin & Hid & Hne & ->)];
      [congruence |].
    split; [done |]. by exists entry.
Qed.

(** X22.  A transaction received twice on [/transaction] is queued once, and
    the endpoint keeps the pending pool free of repeated signatures. *)
Theorem receiveTransaction_queues_once (st : NodeState Eff) (tx : Transaction) :
  receiveTransaction (receiveTransaction st tx) tx = receiveTransaction st tx
  ∧ (NoDup (tx_signature <$> pendingTransactions st) →
     NoDup (tx_signature <$> pendingTransactions (receiveTransaction st tx)))
  ∧ (∃ t, t ∈ pendingTransactions (receiveTransaction st tx)
          ∧ tx_signature t = tx_signature tx).
Proof.
  unfold receiveTransaction at 2 3 4 5.
  destruct (existsb _ (pendingTransactions st)) eqn:Hex.
  - split_and!; [unfold receiveTransaction; by rewrite Hex | done |].
    apply existsb_exists in Hex as (t & Hin & Heq).
    apply bool_decide_eq_true in Heq. exists t. split; [by apply list_elem_of_In | done].
  - split_and!.
    + unfold receiveTransaction. cbn [pendingTransactions set_pendingTransactions].
      rewrite existsb_app. cbn. rewrite bool_decide_eq_true_2 by done.
      by rewrite orb_true_r.
    + cbn [pendingTransactions set_pendingTransactions]. rewrite fmap_app. cbn.
      intros Hnd. apply NoDup_app. split_and!; [done | | apply NoDup_singleton].
      intros sig Hin Hsig. apply list_elem_of_singleton in Hsig. subst sig.
      apply list_elem_of_fmap in Hin as (t & Heq & Hin).
      assert (existsb (λ t, bool_decide (tx_signature t = tx_signature tx))
                (pendingTransactions st) = true); [|congruence].
      apply existsb_exists. exists t. split; [by apply list_elem_of_In |].
      by apply bool_decide_eq_true.
    + exists tx. split; [|done]. cbn. set_solver.
Qed.

End EndpointTheorems.

(* ================================================================== *)
(** ** Properties: the reward pool *)
(* ================================================================== *)

Module RewardFacts.
Import Stdlib.Reals.Reals Stdlib.micromega.Lra.
Import Effectiveness.

Lemma fold_left_Rplus (l : list R) (a : R) :
  fold_left Rplus l a = (a + fold_right Rplus 0 l)%R.
Proof.
  revert a. induction l as [|x rest IH]; intros a; cbn; [lra |].
  rewrite IH. lra.
Qed.

Lemma sum_permutation (l1 l2 : list R) :
  l1 ≡ₚ l2 → fold_right Rplus 0%R l1 = fold_right Rplus 0%R l2.
Proof. induction 1; cbn; lra. Qed.

Lemma totalEffectiveness_empty : totalEffectiveness ∅ = 0%R.
Proof. unfold totalEffectiveness. by rewrite map_to_list_empty. Qed.

Lemma totalEffectiveness_insert (m : gmap string R) (k : string) (x : R) :
  m !! k = None →
  totalEffectiveness (<[k := x]> m) = (x + totalEffectiveness m)%R.
Proof.
  intros Hk. unfold totalEffectiveness. rewrite !fold_left_Rplus.
  rewrite (sum_permutation ((map_to_list (<[k := x]> m)).*2)
             (((k, x) :: map_to_list m).*2)).
  - cbn. lra.
  - apply fmap_Permutation. by apply map_to_list_insert.
Qed.

(** A sum of values that are not negative is at least each of them. *)
Lemma effectiveness_below_total (updates : gmap string R) :
  (∀ addr eff, updates !! addr = Some eff → (0 <= eff)%R) →
  (0 <= totalEffectiveness updates)%R
  ∧ ∀ addr eff, updates !! addr = Some eff → (eff <= totalEffectiveness updates)%R.
Proof.
  induction updates as [|k x m Hk IH] using map_ind; intros Hnonneg.
  - rewrite totalEffectiveness_empty. split; [lra |].
    intros addr eff. by rewrite lookup_empty.
  - assert (Hm : ∀ addr eff, m !! addr = Some eff → (0 <= eff)%R).
    { intros addr eff Haddr. apply (Hnonneg addr).
      rewrite lookup_insert_ne; [done | congruence]. }
    destruct (IH Hm) as [Htotal Heach].
    pose proof (Hnonneg k x (lookup_insert_eq m k x)) as Hx.
    rewrite totalEffectiveness_insert by done. split; [lra |].
    intros addr eff. destruct (decide (k = addr)) as [->|Hne].
    + rewrite lookup_insert_eq. intros [= <-]. lra.
    + rewrite lookup_insert_ne by done. intros Haddr.
      pose proof (Heach addr eff Haddr). lra.
Qed.

(** X24.  [calculateRewards] on effectiveness values that are not negative
    (the engine stores values of the unit interval).  Nobody is paid when
    the values sum to 0.  Otherwise exactly the addresses of positive
    effectiveness are paid, each [eff / total * rewardPerEpoch], an amount
    that is not negative and never above the pool [rewardPerEpoch]. *)
Theorem rewards_are_bounded_shares (updates : gmap string R)
    (Hnonneg : ∀ addr eff, updates !! addr = Some eff → (0 <= eff)%R) :
  let total := totalEffectiveness updates in
  let rewards := calculateRewards updates in
  (total = 0%R → rewards = ∅)
  ∧ (total ≠ 0%R →
     ∀ addr eff, updates !! addr = Some eff → (0 < eff)%R →
                 rewards !! addr = Some (eff / total * rewardPerEpoch)%R)
  ∧ (∀ addr reward,
       rewards !! addr = Some reward →
       ∃ eff, updates !! addr = Some eff ∧ (0 < eff)%R
              ∧ reward = (eff / total * rewardPerEpoch)%R
              ∧ (0 <= reward <= rewardPerEpoch)%R).
Proof.
  cbn zeta. destruct (effectiveness_below_total updates Hnonneg) as [Htotal Heach].
  unfold calculateRewards.
  destruct (Req_dec_T (totalEffectiveness updates) 0) as [Hzero|Hsome].
  - split_and!; [done | done |]. intros addr reward. by rewrite lookup_empty.
  - split_and!; [done | |].
    + intros _ addr eff Haddr Hpos. rewrite lookup_fmap.
      by rewrite (map_lookup_filter_Some_2 _ _ addr eff Haddr Hpos).
    + intros addr reward. rewrite lookup_fmap.
      destruct (filter _ updates !! addr) as [eff|] eqn:Heff; [|done].
      cbn. intros [= <-]. apply map_lookup_filter_Some in Heff as [Heff Hpos].
      cbn in Hpos. exists eff. split_and!; try done.
      * unfold rewardPerEpoch, Rdiv.
        apply Rmult_le_pos; [|lra].
        apply Rmult_le_pos; [lra |]. left. apply Rinv_0_lt_compat. lra.
      * pose proof (Heach addr eff Heff) as Hle.
        assert (Hshare : (eff / totalEffectiveness updates <= 1)%R).
        { apply (Rmult_le_reg_r (totalEffectiveness updates)); [lra |].
          unfold Rdiv. rewrite Rmult_assoc, Rinv_l by done. lra. }
        unfold rewardPerEpoch. lra.
Qed.
End RewardFacts.

(* ================================================================== *)
(** ** Properties: a built block at the peers *)
(* ================================================================== *)

Section BuiltBlockFacts.
Context `{Crypto} {Eff : Type} `{Json Eff}.

Lemma createBlock_sealed (leader : Identity) (st : NodeState Eff) (now : Z)
    (effectivenessUpdates : list (string * Eff)) (rewards : list (string * Z))
    (epoch : Z) (receipts : list Receipt) (txs : list Transaction) :
  let block := createBlock leader st now effectivenessUpdates rewards epoch receipts txs in
  b_hash block = Some (hashBlock (blockData block))
  ∧ b_leaderSignature block = Some (sign (hashBlock (blockData block)))
  ∧ b_leaderPubKey block = id_publicKeyPem leader
  ∧ b_leader block = NODE_NAME leader
  ∧ b_previousHash block = lastHash st
  ∧ b_epoch block = epoch
  ∧ b_receipts block = receipts.
Proof.
  cbn zeta. unfold createBlock.
  by destruct (filterTransactions (accounts st) emptyOverlay [] txs).
Qed.

Lemma filterTransactions_refilter (accts : AccountStore) (txs : list Transaction) :
  ∀ (ov : Overlay) (valid other : list Transaction),
    ∃ kept,
      (filterTransactions accts ov valid txs).1 = valid ++ kept
      ∧ filterTransactions accts ov other kept
        = (other ++ kept, (filterTransactions accts ov valid txs).2).
Proof.
  induction txs as [|tx rest IH]; intros ov valid other.
  - exists []. cbn. by rewrite !app_nil_r.
  - cbn [filterTransactions].
    destruct (filterTransaction accts ov tx) as [keep ov'] eqn:Hstep.
    destruct keep.
    + destruct (IH ov' (valid ++ [tx]) (other ++ [tx])) as (kept & Hkept & Hre).
      exists (tx :: kept). rewrite Hkept, <- app_assoc. split; [done |].
      cbn [filterTransactions]. rewrite Hstep, Hre. by rewrite <- app_assoc.
    + assert (ov' = ov) as ->.
      { revert Hstep. unfold filterTransaction.
        repeat case_decide; congruence. }
      apply IH.
Qed.
End BuiltBlockFacts.

Section BuiltBlockTheorems.
Context `{Crypto} {Eff : Type} `{Json Eff}.

(** X25.  A block built by [createBlock] passes the checks of its receivers,
    provided the leader's signatures verify under the leader's key.  A
    peer that has seen no conflicting proposal and finds the receipts well
    formed stores the block and votes for its hash, whether or not the
    block extends the peer's head; and once the block carries two votes a
    peer that does not have it appends it. *)
Theorem created_block_passes_peer_checks (leader peer : Identity)
    (st peerState : NodeState Eff) (now : Z)
    (effectivenessUpdates : list (string * Eff)) (rewards : list (string * Z))
    (epoch : Z) (receipts : list Receipt) (txs : list Transaction)
    (tally : gmap string string)
    (Hkeys : ∀ data, verify data (sign data) (id_publicKeyPem leader) = true)
    (Hclean : (checkEquivocation peerState
                 (createBlock leader st now effectivenessUpdates rewards epoch
                    receipts txs)).2 = None)
    (Hreceipts : verifyReceipts receipts = None)
    (Hvotes : (2 ≤ size tally)%nat)
    (Hnew : Forall (λ b, b_hash b
                         ≠ b_hash (createBlock leader st now effectivenessUpdates
                                     rewards epoch receipts txs))
              (chain peerState)) :
  let block := createBlock leader st now effectivenessUpdates rewards epoch receipts txs in
  (∃ vote, (handleBlockProposal peer peerState block).2 = ProposalVote vote
           ∧ v_blockHash vote = b_hash block
           ∧ v_voter vote = NODE_NAME peer
           ∧ proposedBlock (handleBlockProposal peer peerState block).1 = Some block)
  ∧ handleCommittedBlock peer peerState (withVotes block tally)
    = commitBlock peer peerState (withVotes block tally).
Proof.
  cbn zeta.
  pose proof (createBlock_sealed leader st now effectivenessUpdates rewards epoch
                receipts txs) as Hsealed. cbn zeta in Hsealed.
  set (block := createBlock leader st now effectivenessUpdates rewards epoch receipts txs)
    in *.
  destruct Hsealed as (Hhash & Hsig & Hpem & _ & _ & _ & Hrec).
  assert (Hverified : verifyOpt (b_hash block) (b_leaderSignature block)
                        (b_leaderPubKey block) = true).
  { rewrite Hhash, Hsig, Hpem. cbn. apply Hkeys. }
  split.
  - unfold handleBlockProposal.
    destruct (checkEquivocation peerState block) as [st1 result]. cbn in Hclean.
    subst result. unfold verifyBlockReceipts. rewrite Hrec, Hreceipts.
    rewrite Hverified. cbn [negb].
    rewrite (decide_False (P := b_hash block ≠ Some (hashBlock (blockData block))))
      by (intros Hne; by apply Hne).
    assert (Hsync : (if decide (b_previousHash block ≠ lastHash st1)
                     then @None string else None) = None) by (by case_decide).
    rewrite Hsync. rewrite Hhash. cbn. eexists. by split_and!.
  - unfold handleCommittedBlock. cbn [b_hash b_votes withVotes default from_option id].
    assert (Hfresh : existsb (λ b, bool_decide (b_hash b = b_hash block))
                       (chain peerState) = false).
    { apply not_true_is_false. intros Hex.
      apply existsb_exists in Hex as (b & Hin & Hb).
      apply bool_decide_eq_true in Hb. apply list_elem_of_In in Hin.
      rewrite Forall_forall in Hnew. by apply (Hnew b Hin). }
    rewrite Hfresh. rewrite decide_False by lia.
    assert (Hdata : blockData (withVotes block tally) = blockData block) by done.
    rewrite Hdata. rewrite decide_False by (intros Hne; by apply Hne).
    cbn [b_leaderSignature b_leaderPubKey withVotes]. by rewrite Hverified.
Qed.

(** X26.  The transaction list of a built block is a fixed point of the filter:
    filtering the kept transactions again, against the same ledger, keeps
    every one of them and ends with the same overlays. *)
Theorem createBlock_filter_keeps_its_output (accts : AccountStore)
    (txs : list Transaction) :
  let built := filterTransactions accts emptyOverlay [] txs in
  filterTransactions accts emptyOverlay [] built.1 = built.
Proof.
  cbn zeta.
  destruct (filterTransactions_refilter accts txs emptyOverlay [] [])
    as (kept & Hkept & Hre).
  cbn [app] in Hkept, Hre. rewrite Hkept, Hre.
  destruct (filterTransactions accts emptyOverlay [] txs) as [validTxs ov].
  cbn [fst snd] in *. by subst.
Qed.
End BuiltBlockTheorems.

(* ================================================================== *)
(** ** The properties at concrete inputs *)
(* ================================================================== *)

Module PropertyExamples.
Import Toy Examples.

Lemma storeOk_ledgerA5 : storeOk ledgerA5.
Proof.
  split; unfold ledgerA5; cbn [entries objects].
  - intros addr ref Hin. apply lookup_singleton_Some in Hin as [_ <-]. simpl. lia.
  - intros a1 a2 ref H1 H2.
    apply lookup_singleton_Some in H1 as [<- _].
    by apply lookup_singleton_Some in H2 as [<- _].
Qed.

Lemma merkleProof_length_logarithmic_witness :
  let k := length (merkleProofFrom ["aa"; "bb"; "cc"] 2) in
  (3 ≤ 2 ^ k)%nat ∧ (2 ^ k < 6)%nat.
Proof.
  apply (merkleProof_length_logarithmic ["aa"; "bb"; "cc"] 2). simpl. lia.
Defined.

Lemma proofFor_verifies_witness :
  ∃ proof,
    getMerkleProof faucetBlock (hashTx faucetTx) = Some proof
    ∧ verifyMerkleProof (hashTx faucetTx) proof (b_txRoot faucetBlock) = true.
Proof.
  assert (Hroots : Forall (λ b : Block unit,
                      b_txRoot b = calculateMerkleRoot (hashTx <$> b_transactions b))
                     [faucetBlock])
    by (repeat constructor).
  assert (Hfound : proofFor [faucetBlock] (hashTx faucetTx)
                   = Some {| pr_blockEpoch := 1; pr_blockHash := b_hash faucetBlock;
                             pr_txRoot := b_txRoot faucetBlock;
                             pr_proof := getMerkleProof faucetBlock (hashTx faucetTx) |}).
  { change (proofFor [faucetBlock] (hashTx faucetTx))
      with (if bool_decide (hashTx faucetTx = hashTx faucetTx) || false
            then Some {| pr_blockEpoch := 1; pr_blockHash := b_hash faucetBlock;
                         pr_txRoot := b_txRoot faucetBlock;
                         pr_proof := getMerkleProof faucetBlock (hashTx faucetTx) |}
            else None).
    by rewrite bool_decide_eq_true_2. }
  exact (proj1 (proofFor_verifies [faucetBlock] (hashTx faucetTx) _ Hroots Hfound)).
Defined.

Lemma applyTransaction_on_account_map_witness :
  accountsView (applyTransaction ledgerA5 small) !! "A"
  = Some {| balance := 2; nonce := 1 |}
  ∧ accountsView (applyTransaction ledgerA5 small) !! "B"
    = Some {| balance := 3; nonce := 0 |}.
Proof.
  destruct (applyTransaction_on_account_map ledgerA5 small storeOk_ledgerA5)
    as (_ & Hmoves & _).
  destruct Hmoves as (Hfrom & Hto & _); [discriminate |].
  split; [exact Hfrom | exact Hto].
Defined.


Lemma rebuild_depends_only_on_chain_witness :
  accountsView (accounts (rebuildStateFromChain node1 committed))
  = accountsView (accounts (rebuildStateFromChain node2 stale)).
Proof.
  exact (proj1 (rebuild_depends_only_on_chain node1 node2 committed stale eq_refl)).
Defined.

Lemma commitBlock_keeps_replay_agreement_witness :
  accountsView (accounts (commitBlock node1 (freshState ∅) blockB))
  = accountsView (accounts (rebuildStateFromChain node1
                              (commitBlock node1 (freshState ∅) blockB))).
Proof.
  refine (proj1 (commitBlock_keeps_replay_agreement node1 (freshState ∅) blockB _ _ _)).
  - split; intros ? ?; cbn; by rewrite ?lookup_empty.
  - vm_compute. reflexivity.
  - repeat constructor. discriminate.
Defined.

Lemma createBlock_overlay_is_ledger_after_commit_witness :
  let built := filterTransactions ledgerA5 emptyOverlay [] [small; again] in
  built.1 = [small]
  ∧ overlayBalance ledgerA5 built.2 "A"
    = balance (accountOrZero (fold_left applyTransaction built.1 ledgerA5) "A").
Proof.
  cbn zeta. split; [vm_compute; reflexivity |].
  refine (proj1 (createBlock_overlay_is_ledger_after_commit ledgerA5 [small; again]
                   storeOk_ledgerA5 _ "A")).
  repeat constructor; discriminate.
Defined.

Lemma createBlock_keeps_valid_sequence_witness :
  b_transactions builtBlock = [small]
  ∧ validateTransaction
      (set_accounts holder (fold_left applyReward (b_rewards builtBlock) ledgerA5))
      small
    = true.
Proof.
  assert (Hkept : b_transactions builtBlock = [small]) by (vm_compute; reflexivity).
  split; [exact Hkept |].
  refine (createBlock_keeps_valid_sequence node1 holder 0 [] [("A", 1)] 1 [] [small; again]
            storeOk_ledgerA5 _ _ 0%nat small _).
  - repeat constructor; discriminate.
  - repeat constructor. cbn. lia.
  - exact (f_equal (λ l, l !! 0%nat) Hkept).
Defined.

Lemma checkViewChange_message_is_counted_witness :
  currentView (checkViewChange node1 (freshState ∅) 9000).1.2 = 1
  ∧ "n1" ∈ default ∅ (viewChangeVotes (handleViewChange (freshState threePeers)
                                          timeoutMessage)
                        !! viewChangeKey timeoutMessage).
Proof.
  destruct (checkViewChange_message_is_counted node1 (freshState ∅)
              (checkViewChange node1 (freshState ∅) 9000).1.2
              (freshState threePeers) 9000 timeoutMessage)
    as (_ & _ & Hview & _ & _ & Hcounted).
  - vm_compute. reflexivity.
  - reflexivity.
  - reflexivity.
  - split; [exact Hview | exact Hcounted].
Defined.

Lemma seenProposals_stays_bounded_witness :
  (size (seenProposals (handleBlockProposal node1 observerHoldingA blockB).1) ≤ 10)%nat.
Proof.
  apply (seenProposals_stays_bounded node1 observerHoldingA blockB).
  vm_compute. lia.
Defined.

Lemma proposal_delivered_again_changes_nothing_witness :
  handleBlockProposal node1 observerHoldingA blockA
  = handleBlockProposal node1 observer blockA.
Proof.
  apply (proposal_delivered_again_changes_nothing node1 observer blockA).
  - vm_compute. lia.
  - vm_compute. reflexivity.
Defined.


Lemma created_block_passes_peer_checks_witness :
  handleCommittedBlock node2 (freshState threePeers) (withVotes builtBlock twoVotes)
  = commitBlock node2 (freshState threePeers) (withVotes builtBlock twoVotes).
Proof.
  refine (proj2 (created_block_passes_peer_checks node1 node2 holder
                   (freshState threePeers) 0 [] [("A", 1)] 1 [] [small; again] twoVotes
                   _ _ _ _ _)).
  - intros data. cbn. unfold toyVerify. by rewrite !bool_decide_eq_true_2.
  - vm_compute. reflexivity.
  - reflexivity.
  - vm_compute. lia.
  - constructor.
Defined.
End PropertyExamples.

Module RewardExamples.
Import Stdlib.Reals.Reals Stdlib.micromega.Lra.

Lemma rewards_are_bounded_shares_witness :
  (∀ addr eff, Effectiveness.twoValidators !! addr = Some eff → (0 <= eff)%R)
  ∧ (∀ addr reward,
       Effectiveness.calculateRewards Effectiveness.twoValidators !! addr = Some reward →
       (0 <= reward <= Effectiveness.rewardPerEpoch)%R).
Proof.
  assert (Hnonneg : ∀ addr eff,
            Effectiveness.twoValidators !! addr = Some eff → (0 <= eff)%R).
  { intros addr eff. unfold Effectiveness.twoValidators.
    rewrite lookup_insert_Some, lookup_singleton_Some.
    intros [[_ <-]|[_ [_ <-]]]; lra. }
  split; [exact Hnonneg |].
  intros addr reward Hreward.
  destruct (proj2 (proj2 (RewardFacts.rewards_are_bounded_shares
                            Effectiveness.twoValidators Hnonneg)) addr reward Hreward)
    as (_ & _ & _ & _ & Hbound).
  exact Hbound.
Defined.
End RewardExamples.
